(** * NoteMesh graph view: a shallow embedding of [GraphRenderer] (graph.js)

    The first part embeds the monolithic [GraphRenderer] class: graph
    generation from the note collection, the physics step, the pointer,
    wheel and touch handlers, the hit test, the render pass as a trace of
    canvas calls, and the life cycle ([bindEvents], [startAnimation],
    [stopAnimation], [destroy]), together with the render pass of the
    modular renderer (script/graph/GraphRenderer.js).  The second part
    proves properties of these functions.

    The model goes on with [zoomToFit], the call of the UI that creates the
    renderer, the utilities of utils.js ([ArrayUtils], [ColorUtils],
    [DateUtils]) and the [Note] and [NoteManager] classes of app.js, which
    produce the notes the graph reads; the last part proves properties of
    these and of how they work together with the graph.

    JavaScript numbers are kept behind the interface [JsNumber].  It has two
    instances: [binary64] (Rocq's primitive IEEE 754 floats, the arithmetic
    the JavaScript engine performs), on which the embedding runs, and [real]
    (the real numbers), the idealisation in which signs and bounds are
    argued: the direction of the spring force, the margins the boundary
    clamp keeps, the bounding box.  What does not depend on arithmetic is
    proved for every instance; the zoom clamp is proved on binary64 as well
    as over the reals.

    In the same way the two string methods that consult the Unicode tables,
    [toLowerCase] and [trim], are kept behind the interface [JsText]; the
    embedding runs on its instance [latin1], and what is proved about the
    resolution of links and about [extractLinks] is proved for every
    instance. *)

From Stdlib Require Import List String Ascii Bool Arith ZArith Lia DecimalString.
From Stdlib Require Import Reals Lra Psatz.
From Stdlib Require Uint63 FloatClass PrimFloat SpecFloat FloatOps FloatAxioms.
Import ListNotations.

Set Implicit Arguments.

(** ** JavaScript numbers *)

Declare Scope js_scope.
Delimit Scope js_scope with js.

Class JsNumber (num : Type) : Type := {
  of_Z : Z -> num;                 (* an integer literal *)
  nadd : num -> num -> num;
  nsub : num -> num -> num;
  nmul : num -> num -> num;
  ndiv : num -> num -> num;
  Math_sqrt : num -> num;
  Math_min : num -> num -> num;
  Math_max : num -> num -> num;
  nltb : num -> num -> bool;        (* a < b *)
  nleb : num -> num -> bool;        (* a <= b *)
  neqb : num -> num -> bool         (* a === b *)
}.

Infix "+" := nadd : js_scope.
Infix "-" := nsub : js_scope.
Infix "*" := nmul : js_scope.
Infix "/" := ndiv : js_scope.
Infix "<?" := nltb : js_scope.
Infix "<=?" := nleb : js_scope.
Infix "=?" := neqb : js_scope.

(** [a > b] is [b < a], also on NaN. *)
Definition gtb {num} `{JsNumber num} (a b : num) : bool := nltb b a.
Infix ">?" := gtb (at level 70) : js_scope.

(** A decimal literal such as [0.95], written [dec 95 100]: numerator and
    denominator are exact in binary64 and the quotient is correctly rounded,
    which is the value of the literal. *)
Definition dec {num} `{JsNumber num} (n d : Z) : num := ndiv (of_Z n) (of_Z d).

(** *** The real numbers

    Exact arithmetic.  The program rounds at every operation: what it
    computes is stated in the operations of the model, and the reals serve
    for the order and the sign of the values. *)

Definition Rltb (a b : R) : bool := if Rlt_dec a b then true else false.
Definition Rleb (a b : R) : bool := if Rle_dec a b then true else false.
Definition Reqb (a b : R) : bool := if Req_dec_T a b then true else false.

#[export] Instance real : JsNumber R := {|
  of_Z := IZR;
  nadd := Rplus;
  nsub := Rminus;
  nmul := Rmult;
  ndiv := Rdiv;
  Math_sqrt := sqrt;
  Math_min := Rmin;
  Math_max := Rmax;
  nltb := Rltb;
  nleb := Rleb;
  neqb := Reqb
|}.

(** *** IEEE 754 binary64 *)

Definition float_of_Z (z : Z) : PrimFloat.float :=
  match z with
  | Z0 => PrimFloat.zero
  | Zpos p => PrimFloat.of_uint63 (Uint63.of_Z (Zpos p))
  | Zneg p => PrimFloat.opp (PrimFloat.of_uint63 (Uint63.of_Z (Zpos p)))
  end.

Definition is_neg_zero (a : PrimFloat.float) : bool :=
  match PrimFloat.classify a with FloatClass.NZero => true | _ => false end.

(** [Math.min] and [Math.max]: NaN if either argument is NaN, and -0 is
    smaller than +0. *)
Definition float_min (a b : PrimFloat.float) : PrimFloat.float :=
  if PrimFloat.is_nan a || PrimFloat.is_nan b then PrimFloat.nan
  else if PrimFloat.ltb a b then a
  else if PrimFloat.ltb b a then b
  else if is_neg_zero a then a else b.

Definition float_max (a b : PrimFloat.float) : PrimFloat.float :=
  if PrimFloat.is_nan a || PrimFloat.is_nan b then PrimFloat.nan
  else if PrimFloat.ltb a b then b
  else if PrimFloat.ltb b a then a
  else if is_neg_zero a then b else a.

#[export] Instance binary64 : JsNumber PrimFloat.float := {|
  of_Z := float_of_Z;
  nadd := PrimFloat.add;
  nsub := PrimFloat.sub;
  nmul := PrimFloat.mul;
  ndiv := PrimFloat.div;
  Math_sqrt := PrimFloat.sqrt;
  Math_min := float_min;
  Math_max := float_max;
  nltb := PrimFloat.ltb;
  nleb := PrimFloat.leb;
  neqb := PrimFloat.eqb
|}.

(** ** Strings and identifiers *)

(** A JavaScript string is a sequence of UTF-16 code units, a Rocq [string]
    a sequence of characters of eight bits.  A Rocq string stands for the
    JavaScript string that has its characters as code units, so that the
    strings of the model are those of the code units below 256 (U+0000 to
    U+00FF), and [===], [length] and the slices are those of Rocq strings.

    Two methods consult the Unicode tables: [String.prototype.toLowerCase]
    and [String.prototype.trim].  They are kept behind the interface
    [JsText], as the numbers are behind [JsNumber].  What is proved for
    every instance uses nothing of what the two methods do; it holds as
    well when the strings stand for texts of other characters in another
    way that keeps different texts apart (by their UTF-8 bytes, say), the
    two methods acting on them as they do on the texts. *)
Class JsText : Type := {
  toLowerCase : string -> string;
  trim : string -> string
}.

(** *** Strings of code units below 256

    The instance on which the embedding runs: what the two methods do to
    the strings of the Basic Latin and Latin-1 Supplement blocks, which
    both map to strings of these blocks. *)

(** The lower case of a code unit.  Below 256 the upper-case letters are A
    to Z (65 to 90), and U+00C0 to U+00DE but for the multiplication sign
    U+00D7 (192 to 214 and 216 to 222); the lower case of each is 32
    above.  The letters without a lower case of their own (the sharp s 223,
    the micro sign 181, the ordinal indicators 170 and 186, y with
    diaeresis 255) map to themselves, as every other unit does. *)
Definition lower_ascii (c : ascii) : ascii :=
  let n := nat_of_ascii c in
  if ((65 <=? n)%nat && (n <=? 90)%nat)
     || ((192 <=? n)%nat && (n <=? 214)%nat)
     || ((216 <=? n)%nat && (n <=? 222)%nat)
  then ascii_of_nat (n + 32) else c.

Fixpoint lowerCaseUnits (s : string) : string :=
  match s with
  | EmptyString => EmptyString
  | String c s' => String (lower_ascii c) (lowerCaseUnits s')
  end.

(** White space and line terminators of [String.prototype.trim].  Below
    256 they are the tab, line feed, vertical tab, form feed and carriage
    return (9 to 13), the space (32) and the no-break space U+00A0 (160);
    the others (U+1680, U+2000 to U+200A, U+2028, U+2029, U+202F, U+205F,
    U+3000, U+FEFF) are from U+0100 on. *)
Definition isSpace (c : ascii) : bool :=
  let n := nat_of_ascii c in
  ((9 <=? n)%nat && (n <=? 13)%nat) || (n =? 32)%nat || (n =? 160)%nat.

Fixpoint trimStart (s : string) : string :=
  match s with
  | EmptyString => EmptyString
  | String c s' => if isSpace c then trimStart s' else s
  end.

Fixpoint trimEnd (s : string) : string :=
  match s with
  | EmptyString => EmptyString
  | String c s' =>
      match trimEnd s' with
      | EmptyString => if isSpace c then EmptyString else String c EmptyString
      | t => String c t
      end
  end.

#[export] Instance latin1 : JsText := {|
  toLowerCase := lowerCaseUnits;
  trim := fun s => trimEnd (trimStart s)
|}.

(** A note identifier: a number or a string, compared with [===]. *)
Inductive Ident : Type :=
| IdNum (n : Z)
| IdStr (s : string).

Definition ident_eqb (a b : Ident) : bool :=
  match a, b with
  | IdNum n, IdNum m => Z.eqb n m
  | IdStr s, IdStr t => String.eqb s t
  | _, _ => false
  end.

(** ** Arrays *)

(** [Array.prototype.find] that also gives the position of the element. *)
Fixpoint findIndexFrom {A} (p : A -> bool) (k : nat) (l : list A) : option (nat * A) :=
  match l with
  | [] => None
  | a :: l' => if p a then Some (k, a) else findIndexFrom p (S k) l'
  end.

Definition findIndex {A} (p : A -> bool) (l : list A) : option (nat * A) :=
  findIndexFrom p 0 l.

(** The object at position [i] modified in place. *)
Fixpoint updateAt {A} (i : nat) (f : A -> A) (l : list A) : list A :=
  match l, i with
  | [], _ => []
  | a :: l', O => f a :: l'
  | a :: l', S i' => a :: updateAt i' f l'
  end.

(** ** Data model *)

(** A note of the note manager, as the graph reads it. *)
Record Note : Type := {
  note_id : Ident;
  note_title : string;
  note_content : string;
  note_tags : list string;
  note_links : list string
}.

Section Model.

Context {num : Type} {N : JsNumber num} {Txt : JsText}.
Local Open Scope string_scope.
Local Open Scope list_scope.
Local Open Scope js_scope.

(** A graph node.  [node_obj] is the identity of the JavaScript object:
    [nodeA === nodeB] compares it, and a reference held in [selectedNode],
    [hoveredNode] or [dragNode] designates the node of the array that has
    the same [node_obj]. *)
Record Node : Type := {
  node_obj : nat;
  node_id : Ident;
  node_title : string;
  node_content : string;
  node_tags : list string;
  node_x : num;
  node_y : num;
  node_vx : num;
  node_vy : num;
  node_radius : num;
  node_connections : nat;
  node_note : Note
}.

(** An edge; [edge_type] is [Some "tag"] on a tag edge and absent on a link
    edge. *)
Record Edge : Type := {
  edge_source : Ident;
  edge_target : Ident;
  edge_strength : num;
  edge_type : option string;
  edge_commonTags : list string
}.

Inductive EdgeKind : Type := DirectLink | SharedTag.

Definition is_tag (edge : Edge) : bool :=
  match edge_type edge with
  | Some t => String.eqb t "tag"
  | None => false
  end.

Definition edge_kind (edge : Edge) : EdgeKind :=
  if is_tag edge then SharedTag else DirectLink.

(** Field updates of a node object. *)
Definition with_position (n : Node) (x y : num) : Node :=
  {| node_obj := node_obj n; node_id := node_id n; node_title := node_title n;
     node_content := node_content n; node_tags := node_tags n;
     node_x := x; node_y := y; node_vx := node_vx n; node_vy := node_vy n;
     node_radius := node_radius n; node_connections := node_connections n;
     node_note := node_note n |}.

Definition with_velocity (n : Node) (vx vy : num) : Node :=
  {| node_obj := node_obj n; node_id := node_id n; node_title := node_title n;
     node_content := node_content n; node_tags := node_tags n;
     node_x := node_x n; node_y := node_y n; node_vx := vx; node_vy := vy;
     node_radius := node_radius n; node_connections := node_connections n;
     node_note := node_note n |}.

Definition with_radius (n : Node) (r : num) : Node :=
  {| node_obj := node_obj n; node_id := node_id n; node_title := node_title n;
     node_content := node_content n; node_tags := node_tags n;
     node_x := node_x n; node_y := node_y n; node_vx := node_vx n; node_vy := node_vy n;
     node_radius := r; node_connections := node_connections n;
     node_note := node_note n |}.

(** [node.connections++] *)
Definition bump (n : Node) : Node :=
  {| node_obj := node_obj n; node_id := node_id n; node_title := node_title n;
     node_content := node_content n; node_tags := node_tags n;
     node_x := node_x n; node_y := node_y n; node_vx := node_vx n; node_vy := node_vy n;
     node_radius := node_radius n; node_connections := S (node_connections n);
     node_note := node_note n |}.

(** ** Configuration ([this.config]) *)

Definition config_node_radius : num := of_Z 8.
Definition config_node_radiusSelected : num := of_Z 12.
Definition config_node_radiusHovered : num := of_Z 10.
Definition config_edge_width : num := of_Z 2.
Definition config_edge_widthHovered : num := of_Z 3.
Definition config_physics_repulsion : num := of_Z 100.
Definition config_physics_attraction : num := dec 1 100.
Definition config_physics_damping : num := dec 95 100.
Definition config_physics_maxDistance : num := of_Z 200.

(** ** Graph generation ([generateGraph]) *)

(** The node of one note.  [rx] and [ry] are the two values [Math.random()]
    returned; [w] and [h] are [canvas.width] and [canvas.height], [dpr] is
    [window.devicePixelRatio]. *)
Definition makeNode (o : nat) (rx ry w h dpr : num) (note : Note) : Node :=
  {| node_obj := o;
     node_id := note_id note;
     node_title := note_title note;
     node_content := note_content note;
     node_tags := note_tags note;
     node_x := rx * w / dpr;
     node_y := ry * h / dpr;
     node_vx := of_Z 0;
     node_vy := of_Z 0;
     node_radius := config_node_radius;
     node_connections := 0;
     node_note := note |}.

(** [notes.forEach(note => this.nodes.push(node))]: the [k]-th note takes the
    object identity [o + k] and the random values number [2k] and [2k+1]
    counted from [r]. *)
Fixpoint createNodes (random : nat -> num) (o r : nat) (w h dpr : num)
    (notes : list Note) : list Node :=
  match notes with
  | [] => []
  | note :: rest =>
      makeNode o (random r) (random (S r)) w h dpr note
        :: createNodes random (S o) (S (S r)) w h dpr rest
  end.

(** The predicate of both [this.edges.find] calls: an edge joins [a] and [b],
    in either direction. *)
Definition joins (a b : Ident) (edge : Edge) : bool :=
  (ident_eqb (edge_source edge) a && ident_eqb (edge_target edge) b)
  || (ident_eqb (edge_source edge) b && ident_eqb (edge_target edge) a).

Definition titleIs (linkTitle : string) (node : Node) : bool :=
  String.eqb (toLowerCase (node_title node)) (toLowerCase linkTitle).

Definition linkEdge (a b : Ident) : Edge :=
  {| edge_source := a; edge_target := b; edge_strength := of_Z 1;
     edge_type := None; edge_commonTags := [] |}.

Definition tagEdge (a b : Ident) (commonTags : list string) : Edge :=
  {| edge_source := a; edge_target := b; edge_strength := dec 3 10;
     edge_type := Some "tag"; edge_commonTags := commonTags |}.

(** The body of [sourceNode.note.links.forEach], for the source node at
    position [i] of the array. *)
Definition addLink (i : nat) (g : list Node * list Edge) (linkTitle : string)
    : list Node * list Edge :=
  match nth_error (fst g) i with
  | None => g
  | Some sourceNode =>
      match findIndex (titleIs linkTitle) (fst g) with
      | Some (j, targetNode) =>
          if negb (ident_eqb (node_id sourceNode) (node_id targetNode)) then
            match find (joins (node_id sourceNode) (node_id targetNode)) (snd g) with
            | None =>
                (updateAt j bump (updateAt i bump (fst g)),
                 snd g ++ [linkEdge (node_id sourceNode) (node_id targetNode)])
            | Some _ => g
            end
          else g
      | None => g
      end
  end.

Definition linksOf (i : nat) (g : list Node * list Edge) : list Node * list Edge :=
  match nth_error (fst g) i with
  | None => g
  | Some sourceNode => fold_left (addLink i) (note_links (node_note sourceNode)) g
  end.

(** "Create edges based on note links" *)
Definition linkPass (g : list Node * list Edge) : list Node * list Edge :=
  fold_left (fun g i => linksOf i g) (seq 0 (List.length (fst g))) g.

(** [nodeA.tags.filter(tag => nodeB.tags.includes(tag))] *)
Definition commonTagsOf (nodeA nodeB : Node) : list string :=
  filter (fun tag => existsb (String.eqb tag) (node_tags nodeB)) (node_tags nodeA).

(** The body of the inner [forEach] of the tag pass. *)
Definition addTagEdge (nodeA : Node) (es : list Edge) (nodeB : Node) : list Edge :=
  if negb (ident_eqb (node_id nodeA) (node_id nodeB)) then
    let commonTags := commonTagsOf nodeA nodeB in
    if (0 <? List.length commonTags)%nat then
      match find (joins (node_id nodeA) (node_id nodeB)) es with
      | None => es ++ [tagEdge (node_id nodeA) (node_id nodeB) commonTags]
      | Some _ => es
      end
    else es
  else es.

(** "Create tag-based connections (weaker)" *)
Definition tagPass (nodes : list Node) (es : list Edge) : list Edge :=
  fold_left (fun es nodeA => fold_left (addTagEdge nodeA) nodes es) nodes es.

(** "Adjust node sizes based on connections" *)
Definition adjustRadius (node : Node) : Node :=
  with_radius node
    (Math_max config_node_radius
       (config_node_radius + of_Z (Z.of_nat (node_connections node)) * of_Z 2)).

Record Bounds : Type := { minX : num; maxX : num; minY : num; maxY : num }.

Definition getGraphBounds (nodes : list Node) : Bounds :=
  match nodes with
  | [] => {| minX := of_Z 0; maxX := of_Z 0; minY := of_Z 0; maxY := of_Z 0 |}
  | first :: _ =>
      fold_left
        (fun bounds node =>
           {| minX := Math_min (minX bounds) (node_x node);
              maxX := Math_max (maxX bounds) (node_x node);
              minY := Math_min (minY bounds) (node_y node);
              maxY := Math_max (maxY bounds) (node_y node) |})
        nodes
        {| minX := node_x first; maxX := node_x first;
           minY := node_y first; maxY := node_y first |}
  end.

Definition centerGraph (w h dpr : num) (nodes : list Node) : list Node :=
  match nodes with
  | [] => []
  | _ =>
      let centerX := w / (of_Z 2 * dpr) in
      let centerY := h / (of_Z 2 * dpr) in
      let bounds := getGraphBounds nodes in
      let currentCenterX := (minX bounds + maxX bounds) / of_Z 2 in
      let currentCenterY := (minY bounds + maxY bounds) / of_Z 2 in
      let offsetX := centerX - currentCenterX in
      let offsetY := centerY - currentCenterY in
      map (fun node => with_position node (node_x node + offsetX) (node_y node + offsetY))
          nodes
  end.

(** Nodes and edges of a non-empty note collection, in the order of
    [generateGraph]: nodes, link edges, tag edges, radii, centring. *)
Definition buildGraph (random : nat -> num) (o r : nat) (w h dpr : num)
    (notes : list Note) : list Node * list Edge :=
  let created := createNodes random o r w h dpr notes in
  let linked := linkPass (created, []) in
  let es := tagPass (fst linked) (snd linked) in
  (centerGraph w h dpr (map adjustRadius (fst linked)), es).

(** ** The physics step ([updatePhysics]) *)

(** The body of the inner [forEach] of "Apply forces between nodes", for the
    objects at positions [i] and [j] of the array. *)
Definition repelPair (i j : nat) (nodes : list Node) : list Node :=
  match nth_error nodes i, nth_error nodes j with
  | Some nodeA, Some nodeB =>
      if ident_eqb (node_id nodeA) (node_id nodeB) then nodes
      else
        let dx := node_x nodeB - node_x nodeA in
        let dy := node_y nodeB - node_y nodeA in
        let distance := Math_sqrt (dx * dx + dy * dy) in
        if distance =? of_Z 0 then nodes
        else if distance <? config_physics_maxDistance then
          let force := config_physics_repulsion / (distance * distance) in
          let fx := (dx / distance) * force in
          let fy := (dy / distance) * force in
          updateAt j (fun n => with_velocity n (node_vx n + fx) (node_vy n + fy))
            (updateAt i (fun n => with_velocity n (node_vx n - fx) (node_vy n - fy))
               nodes)
        else nodes
  | _, _ => nodes
  end.

Definition repulsionPass (nodes : list Node) : list Node :=
  let indices := seq 0 (List.length nodes) in
  fold_left
    (fun ns i => fold_left (fun ns j => repelPair i j ns) indices ns)
    indices nodes.

Definition hasId (a : Ident) (n : Node) : bool := ident_eqb (node_id n) a.

Definition targetDistanceOf (edge : Edge) : num :=
  if is_tag edge then config_physics_maxDistance * dec 15 10
  else config_physics_maxDistance.

(** The spring force along an edge whose end points are [sourceNode] and
    [targetNode]: the scalar [force] and its components [fx] and [fy]. *)
Definition springDistance (sourceNode targetNode : Node) : num :=
  let dx := node_x targetNode - node_x sourceNode in
  let dy := node_y targetNode - node_y sourceNode in
  Math_sqrt (dx * dx + dy * dy).

Definition springForce (edge : Edge) (sourceNode targetNode : Node) : num :=
  config_physics_attraction
  * (springDistance sourceNode targetNode - targetDistanceOf edge)
  * edge_strength edge.

Definition springFx (edge : Edge) (sourceNode targetNode : Node) : num :=
  ((node_x targetNode - node_x sourceNode) / springDistance sourceNode targetNode)
  * springForce edge sourceNode targetNode.

Definition springFy (edge : Edge) (sourceNode targetNode : Node) : num :=
  ((node_y targetNode - node_y sourceNode) / springDistance sourceNode targetNode)
  * springForce edge sourceNode targetNode.

(** The body of [this.edges.forEach] of "Apply spring forces for connected
    nodes". *)
Definition applySpring (nodes : list Node) (edge : Edge) : list Node :=
  match findIndex (hasId (edge_source edge)) nodes,
        findIndex (hasId (edge_target edge)) nodes with
  | Some (i, sourceNode), Some (j, targetNode) =>
      if springDistance sourceNode targetNode =? of_Z 0 then nodes
      else
        let fx := springFx edge sourceNode targetNode in
        let fy := springFy edge sourceNode targetNode in
        updateAt j (fun n => with_velocity n (node_vx n - fx) (node_vy n - fy))
          (updateAt i (fun n => with_velocity n (node_vx n + fx) (node_vy n + fy))
             nodes)
  | _, _ => nodes
  end.

Definition springPass (nodes : list Node) (es : list Edge) : list Node :=
  fold_left applySpring es nodes.

(** One axis of "Keep nodes within canvas bounds": the two tests in their
    order, on the position [p] and the velocity [v]; [size] is the canvas
    width or height in CSS pixels. *)
Definition clampAxis (margin size : num) (pv : num * num) : num * num :=
  let pv1 := if fst pv <? margin then (margin, of_Z 0) else pv in
  if fst pv1 >? size - margin then (size - margin, of_Z 0) else pv1.

(** The body of "Update positions and apply damping" for a node that is not
    the dragged one. *)
Definition moveNode (canvasWidth canvasHeight : num) (node : Node) : Node :=
  let vx := node_vx node * config_physics_damping in
  let vy := node_vy node * config_physics_damping in
  let x := node_x node + vx in
  let y := node_y node + vy in
  let margin := node_radius node + of_Z 10 in
  let ax := clampAxis margin canvasWidth (x, vx) in
  let ay := clampAxis margin canvasHeight (y, vy) in
  with_velocity (with_position node (fst ax) (fst ay)) (snd ax) (snd ay).

(** [node === this.dragNode] *)
Definition isObject (reference : option Node) (node : Node) : bool :=
  match reference with
  | Some r => Nat.eqb (node_obj node) (node_obj r)
  | None => false
  end.

Definition integratePass (canvasWidth canvasHeight : num) (dragNode : option Node)
    (nodes : list Node) : list Node :=
  map (fun node => if isObject dragNode node then node
                   else moveNode canvasWidth canvasHeight node) nodes.

(** [updatePhysics()] on the node array; [w], [h] and [dpr] are
    [canvas.width], [canvas.height] and [window.devicePixelRatio]. *)
Definition physicsStep (w h dpr : num) (dragNode : option Node)
    (nodes : list Node) (es : list Edge) : list Node :=
  integratePass (w / dpr) (h / dpr) dragNode
    (springPass (repulsionPass nodes) es).

(** ** The 2D drawing context *)

(** The calls made on the [CanvasRenderingContext2D], in order. *)
Inductive CanvasOp : Type :=
| OpResize (width height : num)          (* canvas.width = ..; canvas.height = .. *)
| OpClearRect (x y w h : num)
| OpSave
| OpRestore
| OpTranslate (x y : num)
| OpScale (x y : num)
| OpStrokeStyle (style : string)
| OpFillStyle (style : string)
| OpLineWidth (w : num)
| OpLineDash (segments : list num)
| OpGlobalAlpha (a : num)
| OpBeginPath
| OpMoveTo (x y : num)
| OpLineTo (x y : num)
| OpStroke
| OpCircle (x y radius : num)            (* arc(x, y, radius, 0, 2 * Math.PI) *)
| OpFill
| OpFont (font : string)
| OpTextAlign (align : string)
| OpTextBaseline (baseline : string)
| OpFillRect (x y w h : num)
| OpStrokeRect (x y w h : num)
| OpFillText (text : string) (x y : num).

(** The context: the trace of calls, the current font (which [measureText]
    reads) and the fonts pushed by [save]. *)
Record Context2D : Type := {
  ctx_ops : list CanvasOp;
  ctx_font : string;
  ctx_saved : list string
}.

Definition call (op : CanvasOp) (c : Context2D) : Context2D :=
  {| ctx_ops := ctx_ops c ++ [op];
     ctx_font := match op with
                 | OpFont f => f
                 | OpRestore => match ctx_saved c with f :: _ => f | [] => ctx_font c end
                 | _ => ctx_font c
                 end;
     ctx_saved := match op with
                  | OpSave => ctx_font c :: ctx_saved c
                  | OpRestore => tl (ctx_saved c)
                  | _ => ctx_saved c
                  end |}.

(** Statements in sequence. *)
Definition run (stmts : list (Context2D -> Context2D)) (c : Context2D) : Context2D :=
  fold_left (fun c stmt => stmt c) stmts c.

(** Provided by the browser: the width [ctx.measureText(text).width] under a
    font, and the text of [Math.round(v)] in a template literal. *)
Variable measureText : string -> string -> num.
Variable roundText : num -> string.

Definition textWidth (c : Context2D) (text : string) : num :=
  measureText (ctx_font c) text.

(** [s.slice(0, -1)] *)
Fixpoint dropLast (s : string) : string :=
  match s with
  | EmptyString => EmptyString
  | String c EmptyString => EmptyString
  | String c s' => String c (dropLast s')
  end.

(** The [while] loop of [truncateText]; every turn removes one character. *)
Fixpoint truncateLoop (fuel : nat) (c : Context2D) (truncated : string)
    (maxWidth : num) : string :=
  match fuel with
  | O => truncated
  | S fuel' =>
      if (textWidth c (truncated ++ "...")%string >? maxWidth)
         && (0 <? String.length truncated)%nat
      then truncateLoop fuel' c (dropLast truncated) maxWidth
      else truncated
  end.

Definition truncateText (c : Context2D) (text : string) (maxWidth : num) : string :=
  if textWidth c text <=? maxWidth then text
  else (truncateLoop (S (String.length text)) c text maxWidth ++ "...")%string.

(** [text.split(' ')] *)
Fixpoint splitSpaces (current : string) (s : string) : list string :=
  match s with
  | EmptyString => [current]
  | String ch s' =>
      if Ascii.eqb ch " "%char then current :: splitSpaces EmptyString s'
      else splitSpaces (current ++ String ch EmptyString)%string s'
  end.

(** The [for] loop of [wrapText]: the state is the context, the line being
    filled and [currentY]; [first] is [i == 0]. *)
Fixpoint wrapLoop (words : list string) (first : bool) (x maxWidth lineHeight : num)
    (line : string) (currentY : num) (c : Context2D) : Context2D :=
  match words with
  | [] => call (OpFillText line x currentY) c
  | word :: rest =>
      let testLine := (line ++ word ++ " ")%string in
      if (textWidth c testLine >? maxWidth) && negb first then
        wrapLoop rest false x maxWidth lineHeight (word ++ " ")%string
          (currentY + lineHeight) (call (OpFillText line x currentY) c)
      else wrapLoop rest false x maxWidth lineHeight testLine currentY c
  end.

Definition wrapText (text : string) (x y maxWidth lineHeight : num)
    (c : Context2D) : Context2D :=
  wrapLoop (splitSpaces EmptyString text) true x maxWidth lineHeight EmptyString y c.

(** ** Rendering *)

(** [renderEmptyState()], on a canvas of [canvasWidth] by [canvasHeight] CSS
    pixels. *)
Definition renderEmptyState (canvasWidth canvasHeight : num) : Context2D -> Context2D :=
  run [ call (OpFillStyle "#64748b");
        call (OpFont "18px Inter, sans-serif");
        call (OpTextAlign "center");
        call (OpTextBaseline "middle");
        call (OpFillText "No notes to visualize"
                (canvasWidth / of_Z 2) (canvasHeight / of_Z 2 - of_Z 20));
        call (OpFont "14px Inter, sans-serif");
        call (OpFillText "Create some notes and link them to see the graph"
                (canvasWidth / of_Z 2) (canvasHeight / of_Z 2 + of_Z 10)) ].

Definition renderEdge (nodes : list Node) (selectedNode hoveredNode : option Node)
    (edge : Edge) : Context2D -> Context2D :=
  match find (hasId (edge_source edge)) nodes, find (hasId (edge_target edge)) nodes with
  | Some sourceNode, Some targetNode =>
      let isHighlighted :=
        isObject selectedNode sourceNode || isObject selectedNode targetNode
        || isObject hoveredNode sourceNode || isObject hoveredNode targetNode in
      run [ call (OpStrokeStyle (if isHighlighted then "#6366f1" else "#cbd5e1"));
            call (OpLineWidth (if isHighlighted then config_edge_widthHovered
                               else config_edge_width));
            (if is_tag edge
             then run [ call (OpLineDash [of_Z 5; of_Z 5]); call (OpGlobalAlpha (dec 5 10)) ]
             else run [ call (OpLineDash []); call (OpGlobalAlpha (of_Z 1)) ]);
            call OpBeginPath;
            call (OpMoveTo (node_x sourceNode) (node_y sourceNode));
            call (OpLineTo (node_x targetNode) (node_y targetNode));
            call OpStroke;
            call (OpLineDash []);
            call (OpGlobalAlpha (of_Z 1)) ]
  | _, _ => fun c => c
  end.

Definition renderEdges (nodes : list Node) (es : list Edge)
    (selectedNode hoveredNode : option Node) : Context2D -> Context2D :=
  run (map (renderEdge nodes selectedNode hoveredNode) es).

(** The radius [renderNodes] draws a node with. *)
Definition drawnRadius (selectedNode hoveredNode : option Node) (node : Node) : num :=
  if isObject selectedNode node then config_node_radiusSelected
  else if isObject hoveredNode node then config_node_radiusHovered
  else node_radius node.

Definition renderNode (selectedNode hoveredNode : option Node) (node : Node)
    (c : Context2D) : Context2D :=
  let isSelected := isObject selectedNode node in
  let isHovered := isObject hoveredNode node in
  let radius := drawnRadius selectedNode hoveredNode node in
  let fillColor := if isSelected then "#f59e0b"
                   else if isHovered then "#8b5cf6" else "#6366f1" in
  let textColor := if isSelected then "#ffffff" else "#1e293b" in
  let c1 :=
    run [ call (OpFillStyle fillColor);
          call (OpStrokeStyle "#ffffff");
          call (OpLineWidth (of_Z 2));
          call OpBeginPath;
          call (OpCircle (node_x node) (node_y node) radius);
          call OpFill;
          call OpStroke;
          call (OpFillStyle textColor);
          call (OpFont "12px Inter, sans-serif");
          call (OpTextAlign "center");
          call (OpTextBaseline "middle") ] c in
  let maxTextWidth := radius * of_Z 4 in
  let text := truncateText c1 (node_title node) maxTextWidth in
  let c2 :=
    if negb isSelected then
      let width := textWidth c1 text in
      run [ call (OpFillStyle "rgba(255, 255, 255, 0.9)");
            call (OpFillRect (node_x node - width / of_Z 2 - of_Z 4)
                    (node_y node + radius + of_Z 4) (width + of_Z 8) (of_Z 16));
            call (OpFillStyle textColor) ] c1
    else c1 in
  call (OpFillText text (node_x node) (node_y node + radius + of_Z 12)) c2.

Definition renderNodes (nodes : list Node) (selectedNode hoveredNode : option Node)
    : Context2D -> Context2D :=
  run (map (renderNode selectedNode hoveredNode) nodes).

(** [array.join(', ')] *)
Fixpoint joinComma (l : list string) : string :=
  match l with
  | [] => EmptyString
  | [s] => s
  | s :: rest => (s ++ ", " ++ joinComma rest)%string
  end.

Definition renderNodeInfo (canvasWidth : num) (node : Node) (c : Context2D) : Context2D :=
  let padding := of_Z 16 in
  let boxWidth := of_Z 280 in
  let boxHeight := of_Z 120 in
  let x := canvasWidth - boxWidth - padding in
  let y := padding in
  let c1 :=
    run [ call (OpFillStyle "rgba(255, 255, 255, 0.95)");
          call (OpStrokeStyle "#cbd5e1");
          call (OpLineWidth (of_Z 1));
          call (OpFillRect x y boxWidth boxHeight);
          call (OpStrokeRect x y boxWidth boxHeight);
          call (OpFillStyle "#1e293b");
          call (OpFont "bold 14px Inter, sans-serif");
          call (OpTextAlign "left");
          call (OpTextBaseline "top") ] c in
  let title := truncateText c1 (node_title node) (boxWidth - of_Z 32) in
  let c2 :=
    run [ call (OpFillText title (x + of_Z 16) (y + of_Z 16));
          call (OpFont "12px Inter, sans-serif");
          call (OpFillStyle "#64748b") ] c1 in
  let content := truncateText c2 (node_content node) (boxWidth - of_Z 32) in
  let c3 := wrapText content (x + of_Z 16) (y + of_Z 40) (boxWidth - of_Z 32) (of_Z 14) c2 in
  if (0 <? List.length (node_tags node))%nat then
    let c4 := run [ call (OpFillStyle "#6366f1"); call (OpFont "10px Inter, sans-serif") ] c3 in
    let tagsText := joinComma (firstn 3 (node_tags node)) in
    let truncatedTags := truncateText c4 tagsText (boxWidth - of_Z 32) in
    call (OpFillText ("Tags: " ++ truncatedTags)%string (x + of_Z 16) (y + of_Z 90)) c4
  else c3.

Definition natText (n : nat) : string :=
  DecimalString.NilEmpty.string_of_uint (Nat.to_uint n).

Definition renderUI (canvasWidth : num) (nodes : list Node) (es : list Edge)
    (zoom : num) (selectedNode : option Node) (c : Context2D) : Context2D :=
  let stats :=
    [ ("Notes: " ++ natText (List.length nodes))%string;
      ("Connections: " ++ natText (List.length es))%string;
      ("Zoom: " ++ roundText (zoom * of_Z 100) ++ "%")%string ] in
  let c1 :=
    run [ call (OpFillStyle "#64748b");
          call (OpFont "14px Inter, sans-serif");
          call (OpTextAlign "left");
          call (OpTextBaseline "top") ] c in
  let c2 :=
    run (map (fun '(index, stat) =>
                call (OpFillText stat (of_Z 16) (of_Z 16 + of_Z (Z.of_nat index) * of_Z 20)))
             (combine (seq 0 (List.length stats)) stats)) c1 in
  match selectedNode with
  | Some node => renderNodeInfo canvasWidth node c2
  | None => c2
  end.

(** ** The renderer object *)

Record Camera : Type := { camera_x : num; camera_y : num; camera_zoom : num }.

Record Animation : Type := { animation_frame : option nat; animation_running : bool }.

Record Canvas : Type := {
  canvas_width : num;
  canvas_height : num;
  canvas_cursor : string
}.

(** Selection, hover, drag and pan state.  [isPanning] and [lastPanPos] are
    not set by the constructor: they start [undefined]. *)
Record Pointer : Type := {
  selectedNode : option Node;
  hoveredNode : option Node;
  isDragging : bool;
  dragNode : option Node;
  isPanning : bool;
  lastPanPos : option (num * num)
}.

Inductive Method : Type :=
| M_onMouseDown | M_onMouseMove | M_onMouseUp | M_onWheel | M_onClick
| M_onDoubleClick | M_resizeCanvas | M_onTouchStart | M_onTouchMove | M_onTouchEnd.

(** The function object [this.method.bind(this)] creates: every call of
    [bind] gives a new object. *)
Record Callback : Type := { callback_obj : nat; callback_method : Method }.

Inductive EventTarget : Type := TheWindow | TheCanvas.

Record Listener : Type := {
  listener_target : EventTarget;
  listener_type : string;
  listener_callback : Callback
}.

(** What the browser holds: the pixel ratio, the rectangle of the container
    (which the canvas fills), the registered listeners, the frame requests
    not yet run or cancelled, and the counters of frame handles, allocated
    objects and [Math.random()] calls; [openedNotes] records the calls of
    [window.app.openNoteDetail]. *)
Record Host : Type := {
  devicePixelRatio : num;
  rect_left : num;
  rect_top : num;
  rect_width : num;
  rect_height : num;
  listeners : list Listener;
  pendingFrames : list nat;
  nextFrame : nat;
  nextObject : nat;
  randomCalls : nat;
  hasApp : bool;
  openedNotes : list Ident
}.

Record GraphRenderer : Type := {
  noteManager : list Note;         (* this.noteManager.getAllNotes() *)
  canvas : Canvas;
  ctx : Context2D;
  nodes : list Node;
  edges : list Edge;
  pointer : Pointer;
  camera : Camera;
  animation : Animation;
  host : Host
}.

Definition set_canvas (g : GraphRenderer) (v : Canvas) : GraphRenderer :=
  {| noteManager := noteManager g; canvas := v; ctx := ctx g; nodes := nodes g;
     edges := edges g; pointer := pointer g; camera := camera g;
     animation := animation g; host := host g |}.

Definition set_ctx (g : GraphRenderer) (v : Context2D) : GraphRenderer :=
  {| noteManager := noteManager g; canvas := canvas g; ctx := v; nodes := nodes g;
     edges := edges g; pointer := pointer g; camera := camera g;
     animation := animation g; host := host g |}.

Definition set_nodes (g : GraphRenderer) (v : list Node) : GraphRenderer :=
  {| noteManager := noteManager g; canvas := canvas g; ctx := ctx g; nodes := v;
     edges := edges g; pointer := pointer g; camera := camera g;
     animation := animation g; host := host g |}.

Definition set_edges (g : GraphRenderer) (v : list Edge) : GraphRenderer :=
  {| noteManager := noteManager g; canvas := canvas g; ctx := ctx g; nodes := nodes g;
     edges := v; pointer := pointer g; camera := camera g;
     animation := animation g; host := host g |}.

Definition set_pointer (g : GraphRenderer) (v : Pointer) : GraphRenderer :=
  {| noteManager := noteManager g; canvas := canvas g; ctx := ctx g; nodes := nodes g;
     edges := edges g; pointer := v; camera := camera g;
     animation := animation g; host := host g |}.

Definition set_camera (g : GraphRenderer) (v : Camera) : GraphRenderer :=
  {| noteManager := noteManager g; canvas := canvas g; ctx := ctx g; nodes := nodes g;
     edges := edges g; pointer := pointer g; camera := v;
     animation := animation g; host := host g |}.

Definition set_animation (g : GraphRenderer) (v : Animation) : GraphRenderer :=
  {| noteManager := noteManager g; canvas := canvas g; ctx := ctx g; nodes := nodes g;
     edges := edges g; pointer := pointer g; camera := camera g;
     animation := v; host := host g |}.

Definition set_host (g : GraphRenderer) (v : Host) : GraphRenderer :=
  {| noteManager := noteManager g; canvas := canvas g; ctx := ctx g; nodes := nodes g;
     edges := edges g; pointer := pointer g; camera := camera g;
     animation := animation g; host := v |}.

Definition set_cursor (g : GraphRenderer) (cursor : string) : GraphRenderer :=
  set_canvas g {| canvas_width := canvas_width (canvas g);
                  canvas_height := canvas_height (canvas g);
                  canvas_cursor := cursor |}.

(** [this.canvas.width / window.devicePixelRatio] and the same for the
    height. *)
Definition cssWidth (g : GraphRenderer) : num :=
  canvas_width (canvas g) / devicePixelRatio (host g).

Definition cssHeight (g : GraphRenderer) : num :=
  canvas_height (canvas g) / devicePixelRatio (host g).

(** *** Host services *)

Definition with_listeners (h : Host) (ls : list Listener) (next : nat) : Host :=
  {| devicePixelRatio := devicePixelRatio h; rect_left := rect_left h;
     rect_top := rect_top h; rect_width := rect_width h; rect_height := rect_height h;
     listeners := ls; pendingFrames := pendingFrames h; nextFrame := nextFrame h;
     nextObject := next; randomCalls := randomCalls h; hasApp := hasApp h;
     openedNotes := openedNotes h |}.

Definition with_frames (h : Host) (pending : list nat) (next : nat) : Host :=
  {| devicePixelRatio := devicePixelRatio h; rect_left := rect_left h;
     rect_top := rect_top h; rect_width := rect_width h; rect_height := rect_height h;
     listeners := listeners h; pendingFrames := pending; nextFrame := next;
     nextObject := nextObject h; randomCalls := randomCalls h; hasApp := hasApp h;
     openedNotes := openedNotes h |}.

Definition with_allocation (h : Host) (objects randoms : nat) : Host :=
  {| devicePixelRatio := devicePixelRatio h; rect_left := rect_left h;
     rect_top := rect_top h; rect_width := rect_width h; rect_height := rect_height h;
     listeners := listeners h; pendingFrames := pendingFrames h; nextFrame := nextFrame h;
     nextObject := objects; randomCalls := randoms; hasApp := hasApp h;
     openedNotes := openedNotes h |}.

Definition with_opened (h : Host) (opened : list Ident) : Host :=
  {| devicePixelRatio := devicePixelRatio h; rect_left := rect_left h;
     rect_top := rect_top h; rect_width := rect_width h; rect_height := rect_height h;
     listeners := listeners h; pendingFrames := pendingFrames h; nextFrame := nextFrame h;
     nextObject := nextObject h; randomCalls := randomCalls h; hasApp := hasApp h;
     openedNotes := opened |}.

Definition target_eqb (a b : EventTarget) : bool :=
  match a, b with
  | TheWindow, TheWindow | TheCanvas, TheCanvas => true
  | _, _ => false
  end.

(** [target.addEventListener(type, this.method.bind(this))] *)
Definition addBoundListener (target : EventTarget) (type : string) (m : Method)
    (h : Host) : Host :=
  let callback := {| callback_obj := nextObject h; callback_method := m |} in
  with_listeners h
    (listeners h ++ [{| listener_target := target; listener_type := type;
                        listener_callback := callback |}])
    (S (nextObject h)).

(** [target.removeEventListener(type, callback)]: removes the listener of
    that type whose callback is the same function object. *)
Definition removeEventListener (target : EventTarget) (type : string)
    (callback : Callback) (ls : list Listener) : list Listener :=
  filter (fun l => negb (target_eqb (listener_target l) target
                         && String.eqb (listener_type l) type
                         && Nat.eqb (callback_obj (listener_callback l))
                                    (callback_obj callback)))
         ls.

(** [requestAnimationFrame(animate)]: a new handle, never zero. *)
Definition requestAnimationFrame (h : Host) : nat * Host :=
  let handle := S (nextFrame h) in
  (handle, with_frames h (pendingFrames h ++ [handle]) handle).

Definition cancelAnimationFrame (handle : nat) (h : Host) : Host :=
  with_frames h (filter (fun f => negb (Nat.eqb f handle)) (pendingFrames h))
    (nextFrame h).

(** The values of [Math.random()], in the order of the calls. *)
Variable Math_random : nat -> num.

(** *** [generateGraph] and [refresh] *)

Definition generateGraph (g : GraphRenderer) : GraphRenderer :=
  let notes := noteManager g in
  let g0 := set_edges (set_nodes g []) [] in
  match notes with
  | [] => set_ctx g0 (renderEmptyState (cssWidth g0) (cssHeight g0) (ctx g0))
  | _ =>
      let built :=
        buildGraph Math_random (nextObject (host g0)) (randomCalls (host g0))
          (canvas_width (canvas g0)) (canvas_height (canvas g0))
          (devicePixelRatio (host g0)) notes in
      set_host (set_edges (set_nodes g0 (fst built)) (snd built))
        (with_allocation (host g0)
           (nextObject (host g0) + List.length notes)
           (randomCalls (host g0) + 2 * List.length notes))
  end.

Definition refresh (g : GraphRenderer) : GraphRenderer := generateGraph g.

(** *** [updatePhysics] and [render] *)

Definition updatePhysics (g : GraphRenderer) : GraphRenderer :=
  set_nodes g
    (physicsStep (canvas_width (canvas g)) (canvas_height (canvas g))
       (devicePixelRatio (host g)) (dragNode (pointer g)) (nodes g) (edges g)).

Definition render (g : GraphRenderer) : GraphRenderer :=
  let canvasWidth := cssWidth g in
  let canvasHeight := cssHeight g in
  set_ctx g
    (run [ call (OpClearRect (of_Z 0) (of_Z 0) canvasWidth canvasHeight);
           call OpSave;
           call (OpTranslate (camera_x (camera g)) (camera_y (camera g)));
           call (OpScale (camera_zoom (camera g)) (camera_zoom (camera g)));
           renderEdges (nodes g) (edges g)
             (selectedNode (pointer g)) (hoveredNode (pointer g));
           renderNodes (nodes g) (selectedNode (pointer g)) (hoveredNode (pointer g));
           call OpRestore;
           renderUI canvasWidth (nodes g) (edges g) (camera_zoom (camera g))
             (selectedNode (pointer g)) ]
       (ctx g)).

(** *** Pointer, wheel and touch handlers *)

Record MouseEvent : Type := { clientX : num; clientY : num }.

Record WheelEvent : Type := { wheel_clientX : num; wheel_clientY : num; deltaY : num }.

Definition getMousePos (g : GraphRenderer) (e : MouseEvent) : num * num :=
  (clientX e - rect_left (host g), clientY e - rect_top (host g)).

(** The predicate of [this.nodes.find] in [getNodeAt]. *)
Definition hits (transformedX transformedY : num) (node : Node) : bool :=
  let dx := transformedX - node_x node in
  let dy := transformedY - node_y node in
  let distance := Math_sqrt (dx * dx + dy * dy) in
  distance <=? node_radius node.

Definition getNodeAt (g : GraphRenderer) (x y : num) : option Node :=
  let transformedX := (x - camera_x (camera g)) / camera_zoom (camera g) in
  let transformedY := (y - camera_y (camera g)) / camera_zoom (camera g) in
  find (hits transformedX transformedY) (nodes g).

Definition onMouseDown (g : GraphRenderer) (e : MouseEvent) : GraphRenderer :=
  let pos := getMousePos g e in
  let p := pointer g in
  match getNodeAt g (fst pos) (snd pos) with
  | Some clickedNode =>
      set_cursor
        (set_pointer g
           {| selectedNode := selectedNode p; hoveredNode := hoveredNode p;
              isDragging := true; dragNode := Some clickedNode;
              isPanning := isPanning p; lastPanPos := lastPanPos p |})
        "grabbing"
  | None =>
      set_cursor
        (set_pointer g
           {| selectedNode := selectedNode p; hoveredNode := hoveredNode p;
              isDragging := isDragging p; dragNode := dragNode p;
              isPanning := true; lastPanPos := Some pos |})
        "move"
  end.

(** The four assignments to [this.dragNode], seen in the node array: the
    object [d] refers to is the one with the same identity. *)
Definition dragTo (d : Node) (x y : num) (nodes : list Node) : list Node :=
  map (fun n => if isObject (Some d) n
                then with_velocity (with_position n x y) (of_Z 0) (of_Z 0)
                else n) nodes.

(** [a !== b] on node references; [null] and [undefined] are both [None]
    (the assignments guarded by their difference write the values that are
    already there). *)
Definition sameReference (a b : option Node) : bool :=
  match a, b with
  | Some n, Some m => Nat.eqb (node_obj n) (node_obj m)
  | None, None => true
  | _, _ => false
  end.

Definition onMouseMove (g : GraphRenderer) (e : MouseEvent) : GraphRenderer :=
  let pos := getMousePos g e in
  let p := pointer g in
  match isDragging p, dragNode p with
  | true, Some d =>
      set_nodes g
        (dragTo d
           ((fst pos - camera_x (camera g)) / camera_zoom (camera g))
           ((snd pos - camera_y (camera g)) / camera_zoom (camera g))
           (nodes g))
  | _, _ =>
      match isPanning p, lastPanPos p with
      | true, Some last =>
          set_pointer
            (set_camera g
               {| camera_x := camera_x (camera g) + (fst pos - fst last);
                  camera_y := camera_y (camera g) + (snd pos - snd last);
                  camera_zoom := camera_zoom (camera g) |})
            {| selectedNode := selectedNode p; hoveredNode := hoveredNode p;
               isDragging := isDragging p; dragNode := dragNode p;
               isPanning := isPanning p; lastPanPos := Some pos |}
      | _, _ =>
          let hovered := getNodeAt g (fst pos) (snd pos) in
          if negb (sameReference hovered (hoveredNode p)) then
            set_cursor
              (set_pointer g
                 {| selectedNode := selectedNode p; hoveredNode := hovered;
                    isDragging := isDragging p; dragNode := dragNode p;
                    isPanning := isPanning p; lastPanPos := lastPanPos p |})
              (match hovered with Some _ => "pointer" | None => "grab" end)
          else g
      end
  end.

Definition onMouseUp (g : GraphRenderer) : GraphRenderer :=
  let p := pointer g in
  set_cursor
    (set_pointer g
       {| selectedNode := selectedNode p; hoveredNode := hoveredNode p;
          isDragging := false; dragNode := None;
          isPanning := false; lastPanPos := None |})
    (match hoveredNode p with Some _ => "pointer" | None => "grab" end).

Definition onClick (g : GraphRenderer) (e : MouseEvent) : GraphRenderer :=
  let pos := getMousePos g e in
  let p := pointer g in
  let selected :=
    match getNodeAt g (fst pos) (snd pos) with
    | Some clickedNode =>
        if sameReference (selectedNode p) (Some clickedNode) then None
        else Some clickedNode
    | None => None
    end in
  set_pointer g
    {| selectedNode := selected; hoveredNode := hoveredNode p;
       isDragging := isDragging p; dragNode := dragNode p;
       isPanning := isPanning p; lastPanPos := lastPanPos p |}.

Definition onDoubleClick (g : GraphRenderer) (e : MouseEvent) : GraphRenderer :=
  let pos := getMousePos g e in
  match getNodeAt g (fst pos) (snd pos) with
  | Some clickedNode =>
      if hasApp (host g)
      then set_host g (with_opened (host g) (openedNotes (host g) ++ [node_id clickedNode]))
      else g
  | None => g
  end.

Definition onWheel (g : GraphRenderer) (e : WheelEvent) : GraphRenderer :=
  let pos := getMousePos g {| clientX := wheel_clientX e; clientY := wheel_clientY e |} in
  let scaleFactor := if deltaY e >? of_Z 0 then dec 9 10 else dec 11 10 in
  let zoom := camera_zoom (camera g) in
  let newZoom := Math_max (dec 1 10) (Math_min (of_Z 3) (zoom * scaleFactor)) in
  set_camera g
    {| camera_x := fst pos - (fst pos - camera_x (camera g)) * (newZoom / zoom);
       camera_y := snd pos - (snd pos - camera_y (camera g)) * (newZoom / zoom);
       camera_zoom := newZoom |}.

(** Touch events carry the list [e.touches]. *)
Definition onTouchStart (g : GraphRenderer) (touches : list MouseEvent) : GraphRenderer :=
  match touches with
  | [touch] => onMouseDown g touch
  | _ => g
  end.

Definition onTouchMove (g : GraphRenderer) (touches : list MouseEvent) : GraphRenderer :=
  match touches with
  | [touch] => onMouseMove g touch
  | _ => g
  end.

Definition onTouchEnd (g : GraphRenderer) : GraphRenderer := onMouseUp g.

(** *** Life cycle *)

Definition resizeCanvas (g : GraphRenderer) : GraphRenderer :=
  let dpr := devicePixelRatio (host g) in
  let width := rect_width (host g) * dpr in
  let height := rect_height (host g) * dpr in
  set_ctx
    (set_canvas g {| canvas_width := width; canvas_height := height;
                     canvas_cursor := canvas_cursor (canvas g) |})
    (run [ call (OpResize width height); call (OpScale dpr dpr) ] (ctx g)).

(** A new canvas element (300 by 150 until it is sized) and its context. *)
Definition createCanvas (g : GraphRenderer) : GraphRenderer :=
  resizeCanvas
    (set_ctx
       (set_canvas g {| canvas_width := of_Z 300; canvas_height := of_Z 150;
                        canvas_cursor := "grab" |})
       {| ctx_ops := []; ctx_font := "10px sans-serif"; ctx_saved := [] |}).

Definition bindEvents (g : GraphRenderer) : GraphRenderer :=
  set_host g
    (fold_left (fun h '(target, type, m) => addBoundListener target type m h)
       [ (TheCanvas, "mousedown", M_onMouseDown);
         (TheCanvas, "mousemove", M_onMouseMove);
         (TheCanvas, "mouseup", M_onMouseUp);
         (TheCanvas, "wheel", M_onWheel);
         (TheCanvas, "click", M_onClick);
         (TheCanvas, "dblclick", M_onDoubleClick);
         (TheWindow, "resize", M_resizeCanvas);
         (TheCanvas, "touchstart", M_onTouchStart);
         (TheCanvas, "touchmove", M_onTouchMove);
         (TheCanvas, "touchend", M_onTouchEnd) ]
       (host g)).

(** The closure [animate] of [startAnimation]. *)
Definition animate (g : GraphRenderer) : GraphRenderer :=
  if negb (animation_running (animation g)) then g
  else
    let g1 := render (updatePhysics g) in
    let request := requestAnimationFrame (host g1) in
    set_animation (set_host g1 (snd request))
      {| animation_frame := Some (fst request);
         animation_running := animation_running (animation g1) |}.

(** [config.animation.enabled] is [true]. *)
Definition startAnimation (g : GraphRenderer) : GraphRenderer :=
  animate
    (set_animation g {| animation_frame := animation_frame (animation g);
                        animation_running := true |}).

(** The browser reaches the frame request [handle]: its callback runs if the
    request is still pending. *)
Definition frameCallback (handle : nat) (g : GraphRenderer) : GraphRenderer :=
  if existsb (Nat.eqb handle) (pendingFrames (host g))
  then animate (set_host g (cancelAnimationFrame handle (host g)))
  else g.

Definition stopAnimation (g : GraphRenderer) : GraphRenderer :=
  let g1 := set_animation g {| animation_frame := animation_frame (animation g);
                               animation_running := false |} in
  match animation_frame (animation g1) with
  | Some (S handle) => set_host g1 (cancelAnimationFrame (S handle) (host g1))
  | _ => g1
  end.

Definition destroy (g : GraphRenderer) : GraphRenderer :=
  let g1 := stopAnimation g in
  let callback := {| callback_obj := nextObject (host g1);
                     callback_method := M_resizeCanvas |} in
  set_host g1
    (with_listeners (host g1)
       (removeEventListener TheWindow "resize" callback (listeners (host g1)))
       (S (nextObject (host g1)))).

Definition init (g : GraphRenderer) : GraphRenderer :=
  startAnimation (generateGraph (bindEvents (createCanvas g))).

(** The fields the constructor sets before it calls [init], for a note
    manager holding [notes], in the browser state [h]. *)
Definition blankRenderer (notes : list Note) (h : Host) : GraphRenderer :=
  {| noteManager := notes;
     canvas := {| canvas_width := of_Z 300; canvas_height := of_Z 150;
                  canvas_cursor := EmptyString |};
     ctx := {| ctx_ops := []; ctx_font := "10px sans-serif"; ctx_saved := [] |};
     nodes := [];
     edges := [];
     pointer := {| selectedNode := None; hoveredNode := None; isDragging := false;
                   dragNode := None; isPanning := false; lastPanPos := None |};
     camera := {| camera_x := of_Z 0; camera_y := of_Z 0; camera_zoom := of_Z 1 |};
     animation := {| animation_frame := None; animation_running := false |};
     host := h |}.

(** [new GraphRenderer(container, noteManager)] *)
Definition newGraphRenderer (notes : list Note) (h : Host) : GraphRenderer :=
  init (blankRenderer notes h).

(** A browser window with a container of [width] by [height] CSS pixels at
    the origin, pixel ratio 1, and nothing registered yet. *)
Definition freshHost (width height : Z) : Host :=
  {| devicePixelRatio := of_Z 1;
     rect_left := of_Z 0; rect_top := of_Z 0;
     rect_width := of_Z width; rect_height := of_Z height;
     listeners := []; pendingFrames := []; nextFrame := 0; nextObject := 0;
     randomCalls := 0; hasApp := true; openedNotes := [] |}.

(** The note manager's collection replaced by [notes]. *)
Definition set_noteManager (g : GraphRenderer) (notes : list Note) : GraphRenderer :=
  {| noteManager := notes; canvas := canvas g; ctx := ctx g; nodes := nodes g;
     edges := edges g; pointer := pointer g; camera := camera g;
     animation := animation g; host := host g |}.

(** *** The render pass of the modular renderer

    [render] of script/graph/GraphRenderer.js, the refactored sibling of the
    class above: the same drawing functions, behind a test of the node
    array. *)
Definition modularRender (g : GraphRenderer) : GraphRenderer :=
  let canvasWidth := cssWidth g in
  let canvasHeight := cssHeight g in
  let cleared := call (OpClearRect (of_Z 0) (of_Z 0) canvasWidth canvasHeight) (ctx g) in
  match nodes g with
  | [] => set_ctx g (renderEmptyState canvasWidth canvasHeight cleared)
  | _ =>
      set_ctx g
        (run [ call OpSave;
               call (OpTranslate (camera_x (camera g)) (camera_y (camera g)));
               call (OpScale (camera_zoom (camera g)) (camera_zoom (camera g)));
               renderEdges (nodes g) (edges g)
                 (selectedNode (pointer g)) (hoveredNode (pointer g));
               renderNodes (nodes g) (selectedNode (pointer g)) (hoveredNode (pointer g));
               call OpRestore;
               renderUI canvasWidth (nodes g) (edges g) (camera_zoom (camera g))
                 (selectedNode (pointer g)) ]
           cleared)
  end.

End Model.

(** ** Properties of graphs, nodes and frames

    The predicates the statements below are written with. *)

Section Properties.

Context {num : Type} {N : JsNumber num} {Txt : JsText}.
Local Open Scope string_scope.
Local Open Scope list_scope.

(** What the edge passes read of a node; positions, velocities, radius,
    connection count and object identity play no part. *)
Definition sameShape (a b : @Node num) : Prop :=
  node_id a = node_id b /\ node_title a = node_title b
  /\ node_tags a = node_tags b /\ node_note a = node_note b.

(** At most one edge between any unordered pair. *)
Definition singleEdges (es : list (@Edge num)) : Prop :=
  forall a b, List.length (filter (joins a b) es) <= 1.

(** An edge list that extends another. *)
Definition extends (es es' : list (@Edge num)) : Prop := exists extra, es' = es ++ extra.

(** The state of the link pass over the created nodes [ns0]: the nodes keep
    their shape, every edge is a link edge, and no pair has two edges. *)
Definition linkInv (ns0 : list (@Node num)) (g : list (@Node num) * list (@Edge num)) : Prop :=
  Forall2 sameShape ns0 (fst g)
  /\ Forall (fun e => is_tag e = false) (snd g)
  /\ singleEdges (snd g).

(** The link [l] of the node at position [i]: if it resolves to a node with
    another identifier, an edge joins the two. *)
Definition linked (ns0 : list (@Node num)) (es : list (@Edge num)) (i : nat) (l : string)
    : Prop :=
  forall s j t,
    nth_error ns0 i = Some s -> findIndex (titleIs l) ns0 = Some (j, t) ->
    node_id s <> node_id t ->
    exists e, In e es /\ joins (node_id s) (node_id t) e = true.

(** The link pass on two node arrays of the same shape. *)
Definition sameGraph (g g' : list (@Node num) * list (@Edge num)) : Prop :=
  Forall2 sameShape (fst g) (fst g') /\ snd g = snd g'.

(** The created nodes carry the notes. *)
Definition carries (note : Note) (node : @Node num) : Prop :=
  node_id node = note_id note /\ node_title node = note_title note
  /\ node_tags node = note_tags note /\ node_note node = note.




(** The point [(tx, ty)] is at most [radius] away from the centre of
    [node]. *)
Definition within (tx ty : num) (node : @Node num) (radius : num) : bool :=
  let dx := nsub tx (node_x node) in
  let dy := nsub ty (node_y node) in
  nleb (Math_sqrt (nadd (nmul dx dx) (nmul dy dy))) radius.

(** The calls of [renderEmptyState()]. *)
Definition emptyStateOps (canvasWidth canvasHeight : num) : list (@CanvasOp num) :=
  [ OpFillStyle "#64748b";
    OpFont "18px Inter, sans-serif";
    OpTextAlign "center";
    OpTextBaseline "middle";
    OpFillText "No notes to visualize"
      (ndiv canvasWidth (of_Z 2)) (nsub (ndiv canvasHeight (of_Z 2)) (of_Z 20));
    OpFont "14px Inter, sans-serif";
    OpFillText "Create some notes and link them to see the graph"
      (ndiv canvasWidth (of_Z 2)) (nadd (ndiv canvasHeight (of_Z 2)) (of_Z 10)) ].

(** The listener [bindEvents] registers for [type] on [target], as the
    [k]-th function object allocated. *)
Definition boundListener (target : EventTarget) (type : string) (k : nat) (m : Method)
    : Listener :=
  {| listener_target := target; listener_type := type;
     listener_callback := {| callback_obj := k; callback_method := m |} |}.

(** The two forms of edge [generateGraph] pushes: a link edge of strength 1
    and a tag edge of strength 0.3. *)
Definition generatedEdge (e : @Edge num) : Prop :=
  (edge_type e = None /\ edge_strength e = of_Z 1)
  \/ (edge_type e = Some "tag" /\ edge_strength e = dec 3 10).

(** The calls one [render()] adds to the trace; [measureText] and [roundText]
    are the browser's text metrics and number formatting. *)
Definition frameOps (measureText : string -> string -> num) (roundText : num -> string)
    (g : @GraphRenderer num) : list (@CanvasOp num) :=
  skipn (List.length (ctx_ops (ctx g))) (ctx_ops (ctx (render measureText roundText g))).

End Properties.

(** The note a link title resolves to: the first one whose title equals it
    up to case, as [this.nodes.find] picks the target node. *)
Definition resolves {Txt : JsText} (notes : list Note) (linkTitle : string) : option Note :=
  find (fun note => String.eqb (toLowerCase (note_title note)) (toLowerCase linkTitle))
       notes.

(** Wheel events in sequence. *)
Definition wheelEvents (g : @GraphRenderer R) (events : list (@WheelEvent R))
    : @GraphRenderer R :=
  fold_left onWheel events g.

(** A binary64 number that is not NaN. *)
Definition notNaN (x : PrimFloat.float) : Prop :=
  FloatOps.Prim2SF x <> SpecFloat.S754_nan.

(** The zoom is a number between 0.1 and 3, in the order of binary64. *)
Definition inZoomRange (z : PrimFloat.float) : Prop :=
  PrimFloat.leb (dec 1 10) z = true /\ PrimFloat.leb z (of_Z 3) = true.

(** ** Concrete inputs *)

(** Text metrics and number formatting for the runs below: seven pixels a
    character, and a fixed text for the rounded zoom. *)
Definition sampleMeasure {num} `{JsNumber num} (font text : string) : num :=
  of_Z (7 * Z.of_nat (String.length text)).

Definition sampleRound {num} `{JsNumber num} (v : num) : string := "100"%string.

(** [Math.random()] returning 0.1, 0.8, 0.5, 0.2, 0.9, 0.6, ... in turn. *)
Definition sampleRandom {num} `{JsNumber num} (k : nat) : num :=
  dec (Z.of_nat ((k * 7 + 1) mod 10)) 10.

Definition noteAlpha : Note :=
  {| note_id := IdStr "n1"; note_title := "Alpha"; note_content := "see [[beta]]";
     note_tags := ["x"; "y"]%string; note_links := ["beta"%string] |}.

Definition noteBeta : Note :=
  {| note_id := IdStr "n2"; note_title := "Beta"; note_content := EmptyString;
     note_tags := ["y"%string]; note_links := [] |}.

(** Two notes that share the tag "y"; the first links to the second. *)
Definition linkedNotes : list Note := [noteAlpha; noteBeta].

Definition scenarioNotes (contentA contentB contentC : string) : list Note :=
  [ {| note_id := IdNum 1; note_title := "A"; note_content := contentA;
       note_tags := []; note_links := ["B"%string] |};
    {| note_id := IdNum 2; note_title := "B"; note_content := contentB;
       note_tags := ["x"%string]; note_links := [] |};
    {| note_id := IdNum 3; note_title := "C"; note_content := contentC;
       note_tags := ["x"%string]; note_links := [] |} ].

(** The node object of [note] at rest at [(x, y)], with the base radius. *)
Definition plainNode {num} `{JsNumber num} (o : nat) (note : Note) (x y : Z) : Node :=
  with_position (makeNode o (of_Z 0) (of_Z 0) (of_Z 1) (of_Z 1) (of_Z 1) note)
    (of_Z x) (of_Z y).

(** Two nodes 5 apart, at (100, 100) and (103, 104). *)
Definition closePair {num} `{JsNumber num} : list Node :=
  [ plainNode 0 noteAlpha 100 100; plainNode 1 noteBeta 103 104 ].


Definition pointerAt {num} `{JsNumber num} (x y : Z) : MouseEvent :=
  {| clientX := of_Z x; clientY := of_Z y |}.

(** A renderer holding one node of the base radius 8 at (100, 100), which
    is selected and so drawn with the radius 12. *)
Definition selectedState {num} `{JsNumber num} : GraphRenderer :=
  set_pointer
    (set_nodes (blankRenderer [noteAlpha] (freshHost 300 150))
       [plainNode 0 noteAlpha 100 100])
    {| selectedNode := Some (plainNode 0 noteAlpha 100 100); hoveredNode := None;
       isDragging := false; dragNode := None; isPanning := false; lastPanPos := None |}.

(** One node at (400, 300) moving right at 5 pixels a step, on a canvas of
    800 by 600. *)
Definition movingNode : @Node R :=
  with_velocity (plainNode 0 noteAlpha 400 300) 5%R 0%R.

(** Two nodes 500 apart joined by a link edge. *)
Definition farPair {num} `{JsNumber num} : list Node :=
  [ plainNode 0 noteAlpha 0 0; plainNode 1 noteBeta 300 400 ].

(** The link edge between the two sample notes. *)
Definition sampleEdge {num} `{JsNumber num} : Edge :=
  linkEdge (note_id noteAlpha) (note_id noteBeta).

(** * More of the program *)

(** ** The rest of the renderer, and the call that creates it *)

Section ViewAndLoop.

Context {num : Type} {N : JsNumber num}.
Local Open Scope js_scope.

Variable measureText : string -> string -> num.
Variable roundText : num -> string.
Variable Math_random : nat -> num.

(** [zoomToFit()]; [Math.min] of three numbers is the minimum of the first
    two and the third. *)
Definition zoomToFit (g : @GraphRenderer num) : @GraphRenderer num :=
  match nodes g with
  | [] => g
  | _ =>
      let bounds := getGraphBounds (nodes g) in
      let padding := of_Z 50 in
      let canvasWidth := cssWidth g in
      let canvasHeight := cssHeight g in
      let graphWidth := maxX bounds - minX bounds + padding * of_Z 2 in
      let graphHeight := maxY bounds - minY bounds + padding * of_Z 2 in
      let scaleX := canvasWidth / graphWidth in
      let scaleY := canvasHeight / graphHeight in
      let scale := Math_min (Math_min scaleX scaleY) (of_Z 1) in
      set_camera g
        {| camera_x := (canvasWidth - (maxX bounds + minX bounds) * scale) / of_Z 2;
           camera_y := (canvasHeight - (maxY bounds + minY bounds) * scale) / of_Z 2;
           camera_zoom := scale |}
  end.

(** The browser runs the oldest pending frame request. *)
Definition runFrame (g : @GraphRenderer num) : @GraphRenderer num :=
  match pendingFrames (host g) with
  | handle :: _ => frameCallback measureText roundText handle g
  | [] => g
  end.

(** [renderGraph()] of the application's UI, with [window.GraphRenderer]
    defined: a new renderer on the graph container and one call of its
    [render()].  The renderer is kept nowhere; what stays is what it left
    in the browser. *)
Definition renderGraph (notes : list Note) (h : @Host num) : @Host num :=
  host (render measureText roundText
          (newGraphRenderer measureText roundText Math_random notes h)).

(** The listeners registered on the window. *)
Definition windowListeners (h : @Host num) : list Listener :=
  filter (fun l => target_eqb (listener_target l) TheWindow) (listeners h).

End ViewAndLoop.

(** ** Utilities (the objects of utils.js) *)

Module ArrayUtils.

(** [array.slice(from, to)] for indices that are natural numbers. *)
Definition slice {A} (array : list A) (from to : nat) : list A :=
  firstn (to - from) (skipn from array).

(** The [for] loop of [chunk], for a [size] that is a natural number; the
    state is [i] and [chunks].  [fuel] bounds the number of turns: [None] is
    a loop still running when it is used up. *)
Fixpoint chunkLoop {A} (fuel : nat) (array : list A) (size i : nat)
    (chunks : list (list A)) : option (list (list A)) :=
  if i <? List.length array then
    match fuel with
    | O => None
    | S fuel' =>
        chunkLoop fuel' array size (i + size) (chunks ++ [slice array i (i + size)])
    end
  else Some chunks.

Definition chunk {A} (fuel : nat) (array : list A) (size : nat) : option (list (list A)) :=
  chunkLoop fuel array size 0 [].

(** [set.add(a)] on a [Set] kept in insertion order; [eqb] is the equality
    of the values ([SameValueZero]). *)
Definition setAdd {A} (eqb : A -> A -> bool) (set : list A) (a : A) : list A :=
  if existsb (eqb a) set then set else set ++ [a].

(** [[...new Set(array)]] *)
Definition unique {A} (eqb : A -> A -> bool) (array : list A) : list A :=
  fold_left (setAdd eqb) array [].

End ArrayUtils.

Module ColorUtils.

(** [ToInt32]: the integer modulo 2^32, read as a signed 32-bit number. *)
Definition toInt32 (z : Z) : Z :=
  let m := (z mod 2 ^ 32)%Z in
  if (m <? 2 ^ 31)%Z then m else (m - 2 ^ 32)%Z.

(** [a << k] and [a & b] on numbers that hold integers. *)
Definition shiftLeft (a : Z) (k : Z) : Z := toInt32 (Z.shiftl (toInt32 a) k).

Definition bitAnd (a b : Z) : Z := toInt32 (Z.land (toInt32 a) (toInt32 b)).

(** [str.charCodeAt(i)], for a string of one-byte characters. *)
Definition charCode (c : ascii) : Z := Z.of_nat (nat_of_ascii c).

(** The loop of [stringToColor].  The sums and differences are exact as
    long as [hash] stays below 2^53 in absolute value, which it does for
    every string shorter than 2^21 characters. *)
Fixpoint hashLoop (str : string) (hash : Z) : Z :=
  match str with
  | EmptyString => hash
  | String c rest => hashLoop rest (charCode c + (shiftLeft hash 5 - hash))%Z
  end.

Definition hexDigit (d : Z) : ascii :=
  match d with
  | 0%Z => "0" | 1%Z => "1" | 2%Z => "2" | 3%Z => "3" | 4%Z => "4" | 5%Z => "5"
  | 6%Z => "6" | 7%Z => "7" | 8%Z => "8" | 9%Z => "9" | 10%Z => "a" | 11%Z => "b"
  | 12%Z => "c" | 13%Z => "d" | 14%Z => "e" | _ => "f"
  end%char.

(** The digits of [n.toString(16)] before [acc], for [n >= 0]; [fuel] is
    the number of digits at most. *)
Fixpoint hexDigits (fuel : nat) (n : Z) (acc : string) : string :=
  match fuel with
  | O => acc
  | S fuel' =>
      let acc' := String (hexDigit (n mod 16)%Z) acc in
      if (n / 16 =? 0)%Z then acc' else hexDigits fuel' (n / 16)%Z acc'
  end.

(** [n.toString(16)] for an integer [n >= 0]. *)
Definition toString16 (n : Z) : string :=
  hexDigits (S (Z.to_nat (Z.log2 n))) n EmptyString.

Definition upper_ascii (c : ascii) : ascii :=
  let n := nat_of_ascii c in
  if (97 <=? n)%nat && (n <=? 122)%nat then ascii_of_nat (n - 32) else c.

(** [String.prototype.toUpperCase] on strings of ASCII characters, as the
    hexadecimal digits it is applied to are. *)
Fixpoint toUpperCase (s : string) : string :=
  match s with
  | EmptyString => EmptyString
  | String c s' => String (upper_ascii c) (toUpperCase s')
  end.

Definition stringToColor (str : string) : string :=
  let hash := hashLoop str 0%Z in
  let color := toUpperCase (toString16 (bitAnd hash 16777215%Z)) in
  ("#" ++ String.substring 0 (6 - String.length color) "00000" ++ color)%string.

(** An upper-case hexadecimal digit. *)
Definition isHexUpper (c : ascii) : bool :=
  let n := nat_of_ascii c in
  ((48 <=? n)%nat && (n <=? 57)%nat) || ((65 <=? n)%nat && (n <=? 70)%nat).

End ColorUtils.

Module DateUtils.

(** What [getRelativeTime] says: "just now", "yesterday", or a count of
    units ago. *)
Inductive Phrase : Type :=
| JustNow
| Yesterday
| Ago (count : Z) (unit : string).

(** [Math.round(a / b)] for integers [a] and [b > 0]: the quotient rounded
    to the nearest integer, halves upwards.  (Exact for the quotients of
    [getRelativeTime] as long as the two dates are less than 2^53
    milliseconds apart.) *)
Definition roundDiv (a b : Z) : Z := ((2 * a + b) / (2 * b))%Z.

(** [getRelativeTime(date)]; [diffMs] is [now - date], in milliseconds. *)
Definition relativePhrase (diffMs : Z) : Phrase :=
  let diffSecs := roundDiv diffMs 1000 in
  let diffMins := roundDiv diffSecs 60 in
  let diffHours := roundDiv diffMins 60 in
  let diffDays := roundDiv diffHours 24 in
  let diffWeeks := roundDiv diffDays 7 in
  let diffMonths := roundDiv diffDays 30 in
  let diffYears := roundDiv diffDays 365 in
  if (diffSecs <? 60)%Z then JustNow
  else if (diffMins <? 60)%Z then Ago diffMins "minute"
  else if (diffHours <? 24)%Z then Ago diffHours "hour"
  else if (diffDays <? 7)%Z then
    if (diffDays =? 1)%Z then Yesterday else Ago diffDays "day"
  else if (diffWeeks <? 4)%Z then Ago diffWeeks "week"
  else if (diffMonths <? 12)%Z then Ago diffMonths "month"
  else Ago diffYears "year".

(** The text of a phrase: the count, the unit with an "s" unless the count
    is 1, and "ago". *)
Definition phraseText (p : Phrase) : string :=
  match p with
  | JustNow => "just now"
  | Yesterday => "yesterday"
  | Ago count unit =>
      (DecimalString.NilZero.string_of_int (Z.to_int count) ++ " " ++ unit
       ++ (if negb (count =? 1)%Z then "s" else EmptyString) ++ " ago")%string
  end.

Definition getRelativeTime (diffMs : Z) : string := phraseText (relativePhrase diffMs).

End DateUtils.

(** ** Notes and the note manager (the classes of app.js) *)

Module NoteModel.

(** The longest prefix of characters other than "]", and the rest: what
    the group [[^\]]+] of the link pattern takes. *)
Fixpoint untilBracket (s : string) : string * string :=
  match s with
  | EmptyString => (EmptyString, EmptyString)
  | String c s' =>
      if Ascii.eqb c "]" then (EmptyString, s)
      else let (body, rest) := untilBracket s' in (String c body, rest)
  end.

Section Links.

Context {Txt : JsText}.

(** The [while] loop of [extractLinks] over [linkRegex.exec(content)]: the
    pattern is tried at the first character; a match pushes its group,
    trimmed, and the search goes on after the match; without a match the
    search goes on at the next character.  Every turn consumes a character,
    so [fuel] above the length of the string is never used up. *)
Fixpoint scanLinks (fuel : nat) (s : string) : list string :=
  match fuel with
  | O => []
  | S fuel' =>
      match s with
      | EmptyString => []
      | String c rest =>
          let next := scanLinks fuel' rest in
          if Ascii.eqb c "[" then
            match rest with
            | String c' rest' =>
                if Ascii.eqb c' "[" then
                  match untilBracket rest' with
                  | (String b body, String c1 (String c2 after)) =>
                      if Ascii.eqb c1 "]" && Ascii.eqb c2 "]"
                      then trim (String b body) :: scanLinks fuel' after
                      else next
                  | _ => next
                  end
                else next
            | EmptyString => next
            end
          else next
      end
  end.

(** [extractLinks(content)]: the links in order, without repetition. *)
Definition extractLinks (content : string) : list string :=
  ArrayUtils.unique String.eqb (scanLinks (S (String.length content)) content).

(** [id || this.generateId()]: an identifier that is absent ([null], the
    default of the parameter), the number 0 or the empty string is falsy
    and gives way to a generated one. *)
Definition truthy (id : option Ident) : bool :=
  match id with
  | None => false
  | Some (IdNum n) => negb (n =? 0)%Z
  | Some (IdStr s) => negb (String.eqb s EmptyString)
  end.

(** [new Note(title, content, tags, id)] with an array of tags, as far as
    the graph reads the note.  [generated] is the string [generateId()]
    returns, made of the clock and of a random number. *)
Definition newNote (generated : string) (title content : string) (tags : list string)
    (id : option Ident) : Note :=
  {| note_id := match id with
                | Some given => if truthy id then given else IdStr generated
                | None => IdStr generated
                end;
     note_title := title; note_content := content;
     note_tags := tags; note_links := extractLinks content |}.

End Links.

(** A character does not occur in a string. *)
Fixpoint lacks (c : ascii) (s : string) : bool :=
  match s with
  | EmptyString => true
  | String c' s' => negb (Ascii.eqb c' c) && lacks c s'
  end.

(** A content written as pieces of plain text, each followed by a link
    in double brackets, and a last piece of text. *)
Fixpoint linkedText (pieces : list (string * string)) (last : string) : string :=
  match pieces with
  | [] => last
  | (text, title) :: rest =>
      (text ++ "[[" ++ title ++ "]]" ++ linkedText rest last)%string
  end.

(** The pieces are well formed: no "[" in the text, and a title that is not
    empty and has no "]". *)
Definition plainPiece (piece : string * string) : Prop :=
  lacks "[" (fst piece) = true
  /\ snd piece <> EmptyString /\ lacks "]" (snd piece) = true.

End NoteModel.

Module NoteManager.

(** The entries of the [Map] of notes, in insertion order; the key of an
    entry is the identifier of its note. *)
Definition hasId (id : Ident) (note : Note) : bool := ident_eqb (note_id note) id.

(** [addNote(note)]: [this.notes.set(note.id, note)] replaces the value of
    a key that is present, in place, and appends a new entry otherwise. *)
Definition addNote (notes : list Note) (note : Note) : list Note :=
  if existsb (hasId (note_id note)) notes
  then map (fun n => if hasId (note_id note) n then note else n) notes
  else notes ++ [note].

(** [deleteNote(id)], with the value it returns. *)
Definition deleteNote (notes : list Note) (id : Ident) : list Note * bool :=
  match find (hasId id) notes with
  | None => (notes, false)
  | Some _ => (filter (fun n => negb (hasId id n)) notes, true)
  end.

Definition getNote (notes : list Note) (id : Ident) : option Note :=
  find (hasId id) notes.

Definition getAllNotes (notes : list Note) : list Note := notes.

Definition getBacklinks (notes : list Note) (noteTitle : string) : list Note :=
  filter (fun note => existsb (String.eqb noteTitle) (note_links note)
                      && negb (String.eqb (note_title note) noteTitle))
         (getAllNotes notes).

(** The calls that change the collection. *)
Inductive Call : Type :=
| AddNote (note : Note)
| DeleteNote (id : Ident).

Definition perform (notes : list Note) (call : Call) : list Note :=
  match call with
  | AddNote note => addNote notes note
  | DeleteNote id => fst (deleteNote notes id)
  end.

(** The collection after a sequence of calls on a new manager with
    nothing stored. *)
Definition after (calls : list Call) : list Note := fold_left perform calls [].

End NoteManager.

(** ** Further properties of graphs, nodes and frames *)

(** [noteA.tags.filter(tag => noteB.tags.includes(tag))], as the tag pass
    computes it on the nodes of two notes. *)
Definition sharedTags (A B : Note) : list string :=
  filter (fun tag => existsb (String.eqb tag) (note_tags B)) (note_tags A).

Section GraphProperties.

Context {num : Type} {N : JsNumber num} {Txt : JsText}.
Local Open Scope string_scope.
Local Open Scope list_scope.

(** The node [generateGraph] leaves for a note: the note's fields, at
    rest. *)
Definition mirrors (note : Note) (node : @Node num) : Prop :=
  node_note node = note /\ node_id node = note_id note
  /\ node_title node = note_title note /\ node_content node = note_content note
  /\ node_tags node = note_tags note
  /\ node_vx node = of_Z 0 /\ node_vy node = of_Z 0.

(** What the passes of [generateGraph] keep of a created node: all but the
    position, the radius and the connection count. *)
Definition sameOrigin (a b : @Node num) : Prop :=
  node_obj a = node_obj b /\ node_id a = node_id b /\ node_title a = node_title b
  /\ node_content a = node_content b /\ node_tags a = node_tags b
  /\ node_vx a = node_vx b /\ node_vy a = node_vy b /\ node_note a = node_note b.

(** The edge of a link of a note that resolves to another note. *)
Definition linkEdgeOf (notes : list Note) (e : @Edge num) : Prop :=
  exists A B l,
    In A notes /\ In l (note_links A) /\ resolves notes l = Some B
    /\ note_id A <> note_id B /\ e = linkEdge (note_id A) (note_id B).

(** The edge of two notes that share a tag. *)
Definition tagEdgeOf (notes : list Note) (e : @Edge num) : Prop :=
  exists A B,
    In A notes /\ In B notes /\ note_id A <> note_id B /\ sharedTags A B <> []
    /\ e = tagEdge (note_id A) (note_id B) (sharedTags A B).

(** The same two forms, on the nodes the passes work on. *)
Definition linkEdgeAt (ns : list (@Node num)) (e : @Edge num) : Prop :=
  exists i s l j t,
    nth_error ns i = Some s /\ In l (note_links (node_note s))
    /\ findIndex (titleIs l) ns = Some (j, t)
    /\ node_id s <> node_id t /\ e = linkEdge (node_id s) (node_id t).

Definition tagEdgeAt (ns : list (@Node num)) (e : @Edge num) : Prop :=
  exists a b,
    In a ns /\ In b ns /\ node_id a <> node_id b /\ commonTagsOf a b <> []
    /\ e = tagEdge (node_id a) (node_id b) (commonTagsOf a b).

(** The number of link edges that end at the identifier [a]. *)
Definition linkDegree (a : Ident) (es : list (@Edge num)) : nat :=
  List.length
    (filter (fun e => negb (is_tag e)
                      && (ident_eqb (edge_source e) a || ident_eqb (edge_target e) a))
            es).

(** The state of the link pass when identifiers are unique: every node
    counts the link edges at its identifier. *)
Definition countsLinks (g : list (@Node num) * list (@Edge num)) : Prop :=
  forall k n, nth_error (fst g) k = Some n ->
              node_connections n = linkDegree (node_id n) (snd g).

(** A camera coordinate [c] after a pan in which the pointer went from
    [previous] through [positions]: every move adds the difference between
    the position and the one before. *)
Fixpoint panned (c previous : num) (positions : list num) : num :=
  match positions with
  | [] => c
  | position :: rest => panned (nadd c (nsub position previous)) position rest
  end.

(** The calls that put a shape of the graph on the canvas: the two ends of
    an edge line and the disc of a node. *)
Definition isShape (op : @CanvasOp num) : bool :=
  match op with
  | OpMoveTo _ _ | OpLineTo _ _ | OpCircle _ _ _ => true
  | _ => false
  end.

(** The line of an edge whose two end points are in the node array. *)
Definition edgeShape (ns : list (@Node num)) (edge : @Edge num) : list (@CanvasOp num) :=
  match find (hasId (edge_source edge)) ns, find (hasId (edge_target edge)) ns with
  | Some sourceNode, Some targetNode =>
      [ OpMoveTo (node_x sourceNode) (node_y sourceNode);
        OpLineTo (node_x targetNode) (node_y targetNode) ]
  | _, _ => []
  end.

(** The disc of a node. *)
Definition nodeShape (selected hovered : option (@Node num)) (node : @Node num)
    : @CanvasOp num :=
  OpCircle (node_x node) (node_y node) (drawnRadius selected hovered node).

(** A drawing function that appends calls to the trace, whose shapes are
    [shapes]. *)
Definition emits (f : @Context2D num -> @Context2D num) (shapes : list (@CanvasOp num))
    : Prop :=
  forall c, exists ops,
    ctx_ops (f c) = ctx_ops c ++ ops /\ filter isShape ops = shapes.

End GraphProperties.

(** A node array in equilibrium on a canvas of [canvasWidth] by
    [canvasHeight] CSS pixels: every node is at rest and clear of the
    margins, two nodes with different identifiers coincide or are at least
    [maxDistance] apart, and the end points of every edge coincide or are at
    the target distance of the edge. *)
Definition atRest (ns : list (@Node R)) : Prop :=
  forall n, In n ns -> node_vx n = 0%R /\ node_vy n = 0%R.

Definition clearOfMargins (canvasWidth canvasHeight : R) (ns : list (@Node R)) : Prop :=
  forall n, In n ns ->
    (node_radius n + 10 <= node_x n <= canvasWidth - (node_radius n + 10))%R
    /\ (node_radius n + 10 <= node_y n <= canvasHeight - (node_radius n + 10))%R.

Definition outOfRange (ns : list (@Node R)) : Prop :=
  forall a b, In a ns -> In b ns -> node_id a <> node_id b ->
    springDistance a b = 0%R \/ (200 <= springDistance a b)%R.

Definition relaxed (ns : list (@Node R)) (es : list (@Edge R)) : Prop :=
  forall edge i s j t, In edge es ->
    findIndex (hasId (edge_source edge)) ns = Some (i, s) ->
    findIndex (hasId (edge_target edge)) ns = Some (j, t) ->
    springDistance s t = 0%R \/ springDistance s t = targetDistanceOf edge.

(** ** Further inputs *)

(** A note titled "beta", in lower case, as the first sample note writes
    the link. *)
Definition noteLower : Note :=
  {| note_id := IdStr "n2"; note_title := "beta"; note_content := EmptyString;
     note_tags := ["y"%string]; note_links := [] |}.

(** Titles beyond ASCII, written with their code units: "École" (É is 201)
    and "école" (é is 233); a note that links to the second, a note titled
    as the first and a note titled as the second. *)
Definition titleEcole : string := String (ascii_of_nat 201) "cole".
Definition linkEcole : string := String (ascii_of_nat 233) "cole".

Definition noteReader : Note :=
  {| note_id := IdStr "e1"; note_title := "Reader"; note_content := EmptyString;
     note_tags := []; note_links := [linkEcole] |}.

Definition noteEcole : Note :=
  {| note_id := IdStr "e2"; note_title := titleEcole; note_content := EmptyString;
     note_tags := []; note_links := [] |}.

Definition noteEcoleLower : Note :=
  {| note_id := IdStr "e3"; note_title := linkEcole; note_content := EmptyString;
     note_tags := []; note_links := [] |}.

(** The no-break space U+00A0. *)
Definition noBreakSpace : string := String (ascii_of_nat 160) EmptyString.

(** Two nodes at rest 200 apart, at (100, 100) and (100, 300). *)
Definition restPair : list (@Node R) :=
  [ plainNode 0 noteAlpha 100 100; plainNode 1 noteBeta 100 300 ].

(** * Facts about identifiers *)

Lemma ident_eqb_eq (a b : Ident) : ident_eqb a b = true <-> a = b.
Proof.
  destruct a as [n|s], b as [m|t]; simpl; split; intros E;
    try discriminate; try (inversion E; subst).
  - apply Z.eqb_eq in E. now subst.
  - apply Z.eqb_refl.
  - apply String.eqb_eq in E. now subst.
  - apply String.eqb_refl.
Qed.

Lemma ident_eqb_refl (a : Ident) : ident_eqb a a = true.
Proof. now apply ident_eqb_eq. Qed.

Lemma ident_eqb_neq (a b : Ident) : ident_eqb a b = false <-> a <> b.
Proof.
  split.
  - intros E ->. now rewrite ident_eqb_refl in E.
  - intros N. destruct (ident_eqb a b) eqn:E; [|reflexivity].
    now apply ident_eqb_eq in E.
Qed.

(** * Facts about arrays *)

Section ArrayFacts.

Context {A : Type}.

Lemma nth_error_updateAt_same (i : nat) (f : A -> A) (l : list A) :
  nth_error (updateAt i f l) i = option_map f (nth_error l i).
Proof.
  revert i. induction l as [|a l IH]; intros [|i]; simpl; auto.
Qed.

Lemma nth_error_updateAt_other (i j : nat) (f : A -> A) (l : list A) :
  i <> j -> nth_error (updateAt i f l) j = nth_error l j.
Proof.
  revert i j. induction l as [|a l IH]; intros [|i] [|j] D; simpl; auto.
  congruence.
Qed.

Lemma findIndexFrom_nth (p : A -> bool) (k : nat) (l : list A) (j : nat) (a : A) :
  findIndexFrom p k l = Some (j, a) ->
  k <= j /\ nth_error l (j - k) = Some a /\ p a = true.
Proof.
  revert k. induction l as [|b l IH]; intros k; simpl; [discriminate|].
  destruct (p b) eqn:E.
  - intros [= <- <-]. rewrite Nat.sub_diag. auto.
  - intros F. apply IH in F. destruct F as (L & F & Pa).
    split; [lia|]. split; [|exact Pa].
    replace (j - k) with (S (j - S k)) by lia. exact F.
Qed.

Lemma findIndex_nth (p : A -> bool) (l : list A) (j : nat) (a : A) :
  findIndex p l = Some (j, a) -> nth_error l j = Some a /\ p a = true.
Proof.
  intros F. apply findIndexFrom_nth in F. now rewrite Nat.sub_0_r in F.
Qed.

(** A loop keeps what every turn keeps. *)
Lemma fold_left_invariant {S} (step : S -> A -> S) (P : S -> Prop) (l : list A) :
  (forall s a, In a l -> P s -> P (step s a)) ->
  forall s, P s -> P (fold_left step l s).
Proof.
  induction l as [|a l IH]; simpl; intros K s Ps; [exact Ps|].
  apply IH; [intros s' b Ib; apply K; now right|].
  apply K; [now left|exact Ps].
Qed.

(** What the turn of [a] establishes, and later turns keep, holds after the
    loop. *)
Lemma fold_left_established {S} (step : S -> A -> S) (P : S -> Prop)
    (Q : A -> S -> Prop) (l : list A) :
  (forall s a, In a l -> P s -> P (step s a)) ->
  (forall s a, In a l -> P s -> Q a (step s a)) ->
  (forall s a b, In a l -> In b l -> P s -> Q a s -> Q a (step s b)) ->
  forall s, P s -> forall a, In a l -> Q a (fold_left step l s).
Proof.
  induction l as [|b l IH]; simpl; intros KP KQ KK s Ps a; [intros []|].
  intros [E|I].
  - subst b.
    refine (proj2 (fold_left_invariant step (fun s => P s /\ Q a s) l _ (step s a) _)).
    + intros s' c Ic [Ps' Qs']. split; auto.
    + split; auto.
  - apply IH; auto.
Qed.

End ArrayFacts.

Lemma fold_left_related {A B S} (R : A -> B -> Prop) (f : S -> A -> S) (g : S -> B -> S)
    (l : list A) (l' : list B) :
  (forall s a b, R a b -> f s a = g s b) ->
  Forall2 R l l' -> forall s, fold_left f l s = fold_left g l' s.
Proof.
  intros E F. induction F as [|a b l l' Rab F IH]; simpl; intros s; auto.
  rewrite (E s a b Rab). apply IH.
Qed.

(** * Facts about graph generation *)

Section GraphFacts.

Context {num : Type} {N : JsNumber num} {Txt : JsText}.

Lemma sameShape_refl (a : @Node num) : sameShape a a.
Proof. unfold sameShape. auto. Qed.

Lemma sameShape_bump_r (a b : @Node num) : sameShape a b -> sameShape a (bump b).
Proof. unfold sameShape. simpl. auto. Qed.

Lemma Forall2_refl_shape (l : list (@Node num)) : Forall2 sameShape l l.
Proof. induction l; constructor; auto using sameShape_refl. Qed.

Lemma Forall2_updateAt_r (i : nat) (l l' : list (@Node num)) :
  Forall2 sameShape l l' -> Forall2 sameShape l (updateAt i bump l').
Proof.
  intros F. revert i. induction F as [|a b l l' Sab F IH]; intros [|i]; simpl;
    constructor; auto using sameShape_bump_r.
Qed.

Lemma Forall2_nth_error {A B} (R : A -> B -> Prop) (l : list A) (l' : list B) (i : nat) :
  Forall2 R l l' ->
  match nth_error l i, nth_error l' i with
  | Some a, Some b => R a b
  | None, None => True
  | _, _ => False
  end.
Proof.
  intros F. revert i. induction F as [|a b l l' Rab F IH]; intros [|i]; simpl; auto.
  apply IH.
Qed.

Lemma Forall2_findIndexFrom (p : @Node num -> bool) (k : nat) (l l' : list (@Node num)) :
  (forall a b, sameShape a b -> p a = p b) ->
  Forall2 sameShape l l' ->
  match findIndexFrom p k l, findIndexFrom p k l' with
  | Some (i, a), Some (j, b) => i = j /\ sameShape a b
  | None, None => True
  | _, _ => False
  end.
Proof.
  intros E F. revert k. induction F as [|a b l l' Sab F IH]; intros k; simpl; auto.
  rewrite <- (E a b Sab). destruct (p a); auto. apply IH.
Qed.

Lemma titleIs_shape (t : string) (a b : @Node num) :
  sameShape a b -> titleIs t a = titleIs t b.
Proof. intros (_ & E & _). unfold titleIs. now rewrite E. Qed.

(** ** Edges joining a pair *)

Lemma joins_spec (a b : Ident) (e : @Edge num) :
  joins a b e = true <->
  (edge_source e = a /\ edge_target e = b) \/ (edge_source e = b /\ edge_target e = a).
Proof.
  unfold joins. rewrite orb_true_iff, !andb_true_iff, !ident_eqb_eq. tauto.
Qed.

(** Two pairs joined by one edge are joined by the same edges. *)
Lemma joins_same_pair (a b c d : Ident) (e e' : @Edge num) :
  joins a b e = true -> joins c d e = true -> joins c d e' = joins a b e'.
Proof.
  intros H1 H2. apply joins_spec in H1. apply joins_spec in H2.
  destruct (joins a b e') eqn:E.
  - apply joins_spec. apply joins_spec in E.
    destruct H1 as [[]|[]], H2 as [[]|[]], E as [[]|[]]; subst; auto; congruence.
  - destruct (joins c d e') eqn:E'; [|reflexivity].
    rewrite <- E. symmetry. apply joins_spec. apply joins_spec in E'.
    destruct H1 as [[]|[]], H2 as [[]|[]], E' as [[]|[]]; subst; auto; congruence.
Qed.

Lemma find_none_filter {A} (p : A -> bool) (l : list A) :
  find p l = None -> filter p l = [].
Proof.
  induction l as [|a l IH]; simpl; auto.
  destruct (p a); [discriminate|auto].
Qed.

(** The guarded [push] of both passes keeps [singleEdges]. *)
Lemma singleEdges_push (a b : Ident) (e : @Edge num) (es : list (@Edge num)) :
  joins a b e = true -> find (joins a b) es = None ->
  singleEdges es -> singleEdges (es ++ [e]).
Proof.
  intros J F U c d. rewrite filter_app, length_app. simpl.
  destruct (joins c d e) eqn:E; simpl.
  - rewrite (filter_ext _ _ (fun e' => joins_same_pair a b c d e e' J E)).
    rewrite (find_none_filter _ _ F). simpl. lia.
  - specialize (U c d). lia.
Qed.

Lemma singleEdges_unique (a b : Ident) (e e' : @Edge num) (es : list (@Edge num)) :
  singleEdges es -> In e es -> In e' es ->
  joins a b e = true -> joins a b e' = true -> e' = e.
Proof.
  intros U I I' J J'. specialize (U a b).
  assert (F : In e (filter (joins a b) es)) by (apply filter_In; auto).
  assert (F' : In e' (filter (joins a b) es)) by (apply filter_In; auto).
  destruct (filter (joins a b) es) as [|x [|y l]]; simpl in *; try lia; try tauto.
  destruct F as [<-|[]], F' as [<-|[]]. reflexivity.
Qed.

(** ** The link pass *)

(** Every turn of the link loops either leaves the graph as it is or pushes
    the link edge of a resolved pair that no edge joined. *)
Lemma addLink_cases (i : nat) (g : list (@Node num) * list (@Edge num)) (l : string) :
  addLink i g l = g
  \/ exists s j t,
       nth_error (fst g) i = Some s
       /\ findIndex (titleIs l) (fst g) = Some (j, t)
       /\ node_id s <> node_id t
       /\ find (joins (node_id s) (node_id t)) (snd g) = None
       /\ addLink i g l
          = (updateAt j bump (updateAt i bump (fst g)),
             snd g ++ [linkEdge (node_id s) (node_id t)]).
Proof.
  unfold addLink.
  destruct (nth_error (fst g) i) as [s|] eqn:Es; auto.
  destruct (findIndex (titleIs l) (fst g)) as [[j t]|] eqn:Et; auto.
  destruct (ident_eqb (node_id s) (node_id t)) eqn:Eid; simpl; auto.
  destruct (find (joins (node_id s) (node_id t)) (snd g)) eqn:Ef; auto.
  right. exists s, j, t. apply ident_eqb_neq in Eid. auto.
Qed.

Lemma extends_refl (es : list (@Edge num)) : extends es es.
Proof. exists []. now rewrite app_nil_r. Qed.

Lemma extends_trans (es1 es2 es3 : list (@Edge num)) :
  extends es1 es2 -> extends es2 es3 -> extends es1 es3.
Proof. intros [x ->] [y ->]. exists (x ++ y). now rewrite app_assoc. Qed.

Lemma extends_In (es es' : list (@Edge num)) (e : @Edge num) :
  extends es es' -> In e es -> In e es'.
Proof. intros [x ->] I. apply in_or_app. now left. Qed.

Lemma addLink_extends (i : nat) (g : list (@Node num) * list (@Edge num)) (l : string) :
  extends (snd g) (snd (addLink i g l)).
Proof.
  destruct (addLink_cases i g l) as [->|(s & j & t & _ & _ & _ & _ & ->)].
  - apply extends_refl.
  - simpl. now eexists.
Qed.

Lemma joins_linkEdge (a b : Ident) : joins a b (@linkEdge num N a b) = true.
Proof. unfold joins. simpl. now rewrite !ident_eqb_refl. Qed.

Lemma joins_tagEdge (a b : Ident) (tags : list string) :
  joins a b (@tagEdge num N a b tags) = true.
Proof. unfold joins. simpl. now rewrite !ident_eqb_refl. Qed.

Lemma addLink_inv (ns0 : list (@Node num)) (i : nat)
    (g : list (@Node num) * list (@Edge num)) (l : string) :
  linkInv ns0 g -> linkInv ns0 (addLink i g l).
Proof.
  intros (Sh & Ty & Un).
  destruct (addLink_cases i g l) as [->|(s & j & t & _ & _ & _ & Ef & ->)].
  - repeat split; auto.
  - repeat split; simpl.
    + now apply Forall2_updateAt_r, Forall2_updateAt_r.
    + apply Forall_app. split; auto.
    + apply (singleEdges_push (node_id s) (node_id t)); auto using joins_linkEdge.
Qed.

Lemma linked_extends (ns0 : list (@Node num)) (es es' : list (@Edge num)) (i : nat)
    (l : string) :
  extends es es' -> linked ns0 es i l -> linked ns0 es' i l.
Proof.
  intros X L s j t Hs Ht D. destruct (L s j t Hs Ht D) as (e & I & J).
  exists e. split; eauto using extends_In.
Qed.

Lemma addLink_linked (ns0 : list (@Node num)) (i : nat)
    (g : list (@Node num) * list (@Edge num)) (l : string) :
  linkInv ns0 g -> linked ns0 (snd (addLink i g l)) i l.
Proof.
  intros (Sh & _ & _) s j t Hs Ht D.
  pose proof (Forall2_nth_error i Sh) as Hn. rewrite Hs in Hn.
  pose proof (@Forall2_findIndexFrom (titleIs l) 0 _ _ (@titleIs_shape l) Sh) as Hf.
  fold (findIndex (titleIs l) ns0) in Hf. rewrite Ht in Hf.
  fold (findIndex (titleIs l) (fst g)) in Hf.
  unfold addLink.
  destruct (nth_error (fst g) i) as [s'|]; [|contradiction].
  destruct (findIndex (titleIs l) (fst g)) as [[j' t']|]; [|contradiction].
  destruct Hn as (Is & _). destruct Hf as (_ & It & _).
  rewrite <- Is, <- It.
  destruct (ident_eqb (node_id s) (node_id t)) eqn:Eid;
    [apply ident_eqb_eq in Eid; contradiction|]. simpl.
  destruct (find (joins (node_id s) (node_id t)) (snd g)) as [e|] eqn:Ef.
  - apply find_some in Ef. exists e. exact Ef.
  - exists (linkEdge (node_id s) (node_id t)). simpl. split.
    + apply in_or_app. right. now left.
    + apply joins_linkEdge.
Qed.

Lemma linksOf_inv (ns0 : list (@Node num)) (i : nat)
    (g : list (@Node num) * list (@Edge num)) :
  linkInv ns0 g -> linkInv ns0 (linksOf i g).
Proof.
  intros I. unfold linksOf. destruct (nth_error (fst g) i); auto.
  apply fold_left_invariant; auto using addLink_inv.
Qed.

Lemma linksOf_extends (i : nat) (g : list (@Node num) * list (@Edge num)) :
  extends (snd g) (snd (linksOf i g)).
Proof.
  unfold linksOf. destruct (nth_error (fst g) i); [|apply extends_refl].
  apply (fold_left_invariant (addLink i) (fun g' => extends (snd g) (snd g'))).
  - intros g' l _ X. eapply extends_trans; [exact X|apply addLink_extends].
  - apply extends_refl.
Qed.

Lemma linksOf_linked (ns0 : list (@Node num)) (i : nat)
    (g : list (@Node num) * list (@Edge num)) (s : @Node num) (l : string) :
  linkInv ns0 g -> nth_error ns0 i = Some s -> In l (note_links (node_note s)) ->
  linked ns0 (snd (linksOf i g)) i l.
Proof.
  intros I Hs Hl. unfold linksOf.
  pose proof (Forall2_nth_error i (proj1 I)) as Hn. rewrite Hs in Hn.
  destruct (nth_error (fst g) i) as [s'|]; [|contradiction].
  destruct Hn as (_ & _ & _ & En). rewrite <- En.
  refine (@fold_left_established _ _ (addLink i) (linkInv ns0)
            (fun l g' => linked ns0 (snd g') i l) _ _ _ _ g I l Hl).
  - intros; now apply addLink_inv.
  - intros; now apply addLink_linked.
  - intros g' a b _ _ _ L. eapply linked_extends; [apply addLink_extends|exact L].
Qed.

(** After the link pass over the created nodes: the invariant, and every
    link that resolves is an edge. *)
Lemma linkPass_spec (ns0 : list (@Node num)) :
  linkInv ns0 (linkPass (ns0, []))
  /\ forall i s l, nth_error ns0 i = Some s -> In l (note_links (node_note s)) ->
                   linked ns0 (snd (linkPass (ns0, []))) i l.
Proof.
  assert (I0 : linkInv ns0 (ns0, []))
    by (repeat split; simpl; auto using Forall2_refl_shape; intros a b; simpl; lia).
  unfold linkPass. simpl fst. split.
  - apply fold_left_invariant; auto. intros; now apply linksOf_inv.
  - intros i s l Hs Hl.
    refine (@fold_left_established _ _ (fun g i => linksOf i g) (linkInv ns0)
              (fun i g' => forall s l, nth_error ns0 i = Some s ->
                                       In l (note_links (node_note s)) ->
                                       linked ns0 (snd g') i l)
              (seq 0 (List.length ns0)) _ _ _ (ns0, []) I0 i _ s l Hs Hl).
    + intros; now apply linksOf_inv.
    + intros g' a _ I s' l' Hs' Hl'. eapply linksOf_linked; eauto.
    + intros g' a b _ _ _ L s' l' Hs' Hl'.
      eapply linked_extends; [apply linksOf_extends|eauto].
    + apply in_seq. split; [lia|]. simpl. apply nth_error_Some. congruence.
Qed.

(** ** The tag pass *)

Lemma addTagEdge_cases (a : @Node num) (es : list (@Edge num)) (b : @Node num) :
  addTagEdge a es b = es
  \/ (find (joins (node_id a) (node_id b)) es = None
      /\ addTagEdge a es b = es ++ [tagEdge (node_id a) (node_id b) (commonTagsOf a b)]).
Proof.
  unfold addTagEdge.
  destruct (negb (ident_eqb (node_id a) (node_id b))); auto.
  destruct (0 <? List.length (commonTagsOf a b)); auto.
  destruct (find (joins (node_id a) (node_id b)) es); auto.
Qed.

Lemma addTagEdge_extends (a : @Node num) (es : list (@Edge num)) (b : @Node num) :
  extends es (addTagEdge a es b).
Proof.
  destruct (addTagEdge_cases a es b) as [->|[_ ->]];
    [apply extends_refl|now eexists].
Qed.

Lemma addTagEdge_single (a : @Node num) (es : list (@Edge num)) (b : @Node num) :
  singleEdges es -> singleEdges (addTagEdge a es b).
Proof.
  intros U. destruct (addTagEdge_cases a es b) as [->|[F ->]]; auto.
  apply (singleEdges_push (node_id a) (node_id b)); auto using joins_tagEdge.
Qed.

Lemma tagPass_spec (ns : list (@Node num)) (es : list (@Edge num)) :
  singleEdges es -> extends es (tagPass ns es) /\ singleEdges (tagPass ns es).
Proof.
  intros U. unfold tagPass.
  apply (fold_left_invariant
           (fun es' nodeA => fold_left (addTagEdge nodeA) ns es')
           (fun es' => extends es es' /\ singleEdges es')).
  - intros es1 a _ I1.
    apply (fold_left_invariant (addTagEdge a)
             (fun es' => extends es es' /\ singleEdges es')); auto.
    intros es2 b _ [X2 U2]. split.
    + eapply extends_trans; [exact X2|apply addTagEdge_extends].
    + now apply addTagEdge_single.
  - split; [apply extends_refl|exact U].
Qed.

End GraphFacts.

(** ** Generated edges depend on the notes only *)

Section GraphGeneration.

Context {num : Type} {N : JsNumber num} {Txt : JsText}.

Lemma Forall2_updateAt_both (i : nat) (l l' : list (@Node num)) :
  Forall2 sameShape l l' ->
  Forall2 sameShape (updateAt i bump l) (updateAt i bump l').
Proof.
  intros F. revert i. induction F as [|a b l l' Sab F IH]; intros [|i]; simpl;
    constructor; auto.
Qed.

Lemma addLink_sameGraph (i : nat) (l : string)
    (g g' : list (@Node num) * list (@Edge num)) :
  sameGraph g g' -> sameGraph (addLink i g l) (addLink i g' l).
Proof.
  intros [Sh Es].
  pose proof (Forall2_nth_error i Sh) as Hn.
  pose proof (@Forall2_findIndexFrom _ (titleIs l) 0 _ _ (@titleIs_shape _ _ l) Sh) as Hf.
  fold (findIndex (titleIs l) (fst g)) in Hf.
  fold (findIndex (titleIs l) (fst g')) in Hf.
  unfold addLink.
  destruct (nth_error (fst g) i) as [s|], (nth_error (fst g') i) as [s'|];
    try contradiction; [|now split].
  destruct (findIndex (titleIs l) (fst g)) as [[j t]|],
           (findIndex (titleIs l) (fst g')) as [[j' t']|];
    try contradiction; [|now split].
  destruct Hn as (Is & _). destruct Hf as (<- & It & _).
  rewrite <- Is, <- It, <- Es.
  destruct (negb (ident_eqb (node_id s) (node_id t))); [|now split].
  destruct (find (joins (node_id s) (node_id t)) (snd g)); [now split|].
  split; simpl; [|reflexivity].
  now apply Forall2_updateAt_both, Forall2_updateAt_both.
Qed.

Lemma linksOf_sameGraph (i : nat) (g g' : list (@Node num) * list (@Edge num)) :
  sameGraph g g' -> sameGraph (linksOf i g) (linksOf i g').
Proof.
  intros S. pose proof (Forall2_nth_error i (proj1 S)) as Hn. unfold linksOf.
  destruct (nth_error (fst g) i) as [s|], (nth_error (fst g') i) as [s'|];
    try contradiction; auto.
  destruct Hn as (_ & _ & _ & <-).
  generalize (note_links (node_note s)). intros links.
  revert g g' S. induction links as [|l ls IH]; simpl; auto.
  intros g g' S. apply IH. now apply addLink_sameGraph.
Qed.

Lemma linkPass_sameGraph (g g' : list (@Node num) * list (@Edge num)) :
  sameGraph g g' -> sameGraph (linkPass g) (linkPass g').
Proof.
  intros S. unfold linkPass. rewrite <- (Forall2_length (proj1 S)).
  generalize (seq 0 (List.length (fst g))). intros indices.
  revert g g' S. induction indices as [|i rest IH]; simpl; auto.
  intros g g' S. apply IH. now apply linksOf_sameGraph.
Qed.

Lemma commonTagsOf_shape (a a' b b' : @Node num) :
  sameShape a a' -> sameShape b b' -> commonTagsOf a b = commonTagsOf a' b'.
Proof. intros (_ & _ & Ea & _) (_ & _ & Eb & _). unfold commonTagsOf. now rewrite Ea, Eb. Qed.

Lemma addTagEdge_shape (a a' b b' : @Node num) (es : list (@Edge num)) :
  sameShape a a' -> sameShape b b' -> addTagEdge a es b = addTagEdge a' es b'.
Proof.
  intros Sa Sb. unfold addTagEdge.
  rewrite (commonTagsOf_shape Sa Sb).
  destruct Sa as (<- & _). destruct Sb as (<- & _). reflexivity.
Qed.

Lemma tagPass_shape (ns ns' : list (@Node num)) (es : list (@Edge num)) :
  Forall2 sameShape ns ns' -> tagPass ns es = tagPass ns' es.
Proof.
  intros Sh. unfold tagPass.
  apply (@fold_left_related _ _ _ sameShape); [|exact Sh].
  intros es' a a' Sa.
  apply (@fold_left_related _ _ _ sameShape); [|exact Sh].
  intros es'' b b' Sb. now apply addTagEdge_shape.
Qed.

Lemma createNodes_carries (random : nat -> num) (o r : nat) (w h dpr : num)
    (notes : list Note) :
  Forall2 carries notes (createNodes random o r w h dpr notes).
Proof.
  revert o r. induction notes as [|note notes IH]; intros o r; simpl; constructor; auto.
  unfold carries. simpl. auto.
Qed.

Lemma carries_sameShape (notes : list Note) (ns ns' : list (@Node num)) :
  Forall2 carries notes ns -> Forall2 carries notes ns' -> Forall2 sameShape ns ns'.
Proof.
  intros F. revert ns'. induction F as [|note n notes ns C F IH]; intros ns' F';
    inversion F'; subst; constructor; auto.
  unfold carries, sameShape in *. intuition congruence.
Qed.

Lemma buildGraph_edges (random random' : nat -> num) (o o' r r' : nat)
    (w w' h h' dpr dpr' : num) (notes : list Note) :
  snd (buildGraph random o r w h dpr notes)
  = snd (buildGraph random' o' r' w' h' dpr' notes).
Proof.
  unfold buildGraph. simpl.
  assert (S : sameGraph (linkPass (createNodes random o r w h dpr notes, []))
                        (linkPass (createNodes random' o' r' w' h' dpr' notes, []))).
  { apply linkPass_sameGraph. split; simpl; auto.
    eapply carries_sameShape; apply createNodes_carries. }
  destruct S as [Sh Es]. rewrite Es. now apply tagPass_shape.
Qed.

(** The edges [generateGraph] leaves in the renderer, as a function of the
    note collection. *)
Lemma generateGraph_edges (Math_random : nat -> num) (g : @GraphRenderer num) :
  edges (generateGraph Math_random g)
  = match noteManager g with
    | [] => []
    | notes =>
        snd (buildGraph Math_random (nextObject (host g)) (randomCalls (host g))
               (canvas_width (canvas g)) (canvas_height (canvas g))
               (devicePixelRatio (host g)) notes)
    end.
Proof. unfold generateGraph. destruct (noteManager g); reflexivity. Qed.

Lemma generateGraph_noteManager (Math_random : nat -> num) (g : @GraphRenderer num) :
  noteManager (generateGraph Math_random g) = noteManager g.
Proof.
  unfold generateGraph. destruct (noteManager g) eqn:E; simpl; now rewrite E.
Qed.

End GraphGeneration.

(** ** The edges a generated graph holds *)

Section GeneratedEdges.

Context {num : Type} {N : JsNumber num} {Txt : JsText}.

Lemma addLink_generated (i : nat) (g : list (@Node num) * list (@Edge num)) (l : string) :
  Forall generatedEdge (snd g) -> Forall generatedEdge (snd (addLink i g l)).
Proof.
  intros F. destruct (addLink_cases i g l) as [->|(s & j & t & _ & _ & _ & _ & ->)]; auto.
  simpl. apply Forall_app. split; auto. constructor; auto. left. auto.
Qed.

Lemma linkPass_generated (g : list (@Node num) * list (@Edge num)) :
  Forall generatedEdge (snd g) -> Forall generatedEdge (snd (linkPass g)).
Proof.
  unfold linkPass. generalize (seq 0 (List.length (fst g))). intros indices.
  apply (fold_left_invariant (fun g i => linksOf i g)
           (fun g => Forall generatedEdge (snd g))).
  intros g' i _ F. unfold linksOf. destruct (nth_error (fst g') i); auto.
  apply (fold_left_invariant (addLink i) (fun g => Forall generatedEdge (snd g))); auto.
  intros; now apply addLink_generated.
Qed.

Lemma tagPass_generated (ns : list (@Node num)) (es : list (@Edge num)) :
  Forall generatedEdge es -> Forall generatedEdge (tagPass ns es).
Proof.
  unfold tagPass.
  apply (fold_left_invariant
           (fun es' nodeA => fold_left (addTagEdge nodeA) ns es') (Forall generatedEdge)).
  intros es1 a _ F1.
  apply (fold_left_invariant (addTagEdge a) (Forall generatedEdge)); auto.
  intros es2 b _ F2. destruct (addTagEdge_cases a es2 b) as [->|[_ ->]]; auto.
  apply Forall_app. split; auto. constructor; auto. right. auto.
Qed.

(** Every edge of the renderer after [generateGraph] is a link edge of
    strength 1 or a tag edge of strength 0.3. *)
Lemma generateGraph_generated (Math_random : nat -> num) (g : @GraphRenderer num) :
  Forall generatedEdge (edges (generateGraph Math_random g)).
Proof.
  rewrite generateGraph_edges. destruct (noteManager g); [constructor|].
  unfold buildGraph. simpl. apply tagPass_generated, linkPass_generated.
  constructor.
Qed.

End GeneratedEdges.

(** ** One edge per pair, link edges first *)

Section OneEdgePerPair.

Context {num : Type} {N : JsNumber num} {Txt : JsText}.

Lemma carries_In (notes : list Note) (ns : list (@Node num)) (A : Note) :
  Forall2 carries notes ns -> In A notes ->
  exists i s, nth_error ns i = Some s /\ carries A s.
Proof.
  intros F. induction F as [|note n notes ns C F IH]; intros []; subst.
  - exists 0, n. auto.
  - destruct IH as (i & s & Hs & Cs); auto. exists (S i), s. auto.
Qed.

Lemma carries_resolves (l : string) (k : nat) (notes : list Note) (ns : list (@Node num))
    (B : Note) :
  Forall2 carries notes ns -> resolves notes l = Some B ->
  exists j t, findIndexFrom (titleIs l) k ns = Some (j, t) /\ carries B t.
Proof.
  intros F. revert k. unfold resolves.
  induction F as [|note n notes ns C F IH]; intros k; simpl; [discriminate|].
  unfold titleIs at 1. rewrite (proj1 (proj2 C)).
  destruct (String.eqb (toLowerCase (note_title note)) (toLowerCase l)).
  - intros [= <-]. eauto.
  - apply IH.
Qed.

(** The edges of a generated graph, for a non-empty note collection. *)
Lemma buildGraph_spec (random : nat -> num) (o r : nat) (w h dpr : num)
    (notes : list Note) :
  let es := snd (buildGraph random o r w h dpr notes) in
  singleEdges es
  /\ forall A B l,
       In A notes -> In l (note_links A) -> resolves notes l = Some B ->
       note_id A <> note_id B ->
       exists e, In e es /\ joins (note_id A) (note_id B) e = true
                 /\ edge_kind e = DirectLink.
Proof.
  unfold buildGraph. simpl.
  set (ns0 := createNodes random o r w h dpr notes).
  destruct (linkPass_spec ns0) as [(Sh & Ty & Un) L].
  destruct (tagPass_spec (fst (linkPass (ns0, []))) Un) as [X U].
  split; [exact U|].
  intros A B l HA Hl HB D.
  pose proof (createNodes_carries random o r w h dpr notes) as C. fold ns0 in C.
  destruct (@carries_In _ _ A C HA) as (i & s & Hs & Cs).
  destruct (@carries_resolves l 0 _ _ B C HB) as (j & t & Ht & Ct).
  destruct Cs as (Is & _ & _ & Ns). destruct Ct as (It & _).
  assert (Hl' : In l (note_links (node_note s))) by now rewrite Ns.
  assert (D' : node_id s <> node_id t) by congruence.
  destruct (L i s l Hs Hl' s j t Hs Ht D') as (e & Ie & Je).
  exists e. rewrite <- Is, <- It. repeat split; auto.
  - eapply extends_In; eauto.
  - unfold edge_kind. rewrite Forall_forall in Ty. now rewrite (Ty e Ie).
Qed.

(** C1. After [generateGraph], no unordered pair of node identifiers has
    more than one edge; and when a link of note [A] resolves to another note
    [B], exactly one edge joins them and it is a direct-link edge, whether
    or not the two notes share a tag: the tag pass adds no second edge.
    This holds in every number model and for every instance of [JsText]:
    whatever [toLowerCase] does to the titles, a link resolves to the first
    note whose title it equals once both are in lower case. *)
Theorem C1_one_edge_per_pair (Math_random : nat -> num) (g : @GraphRenderer num) :
  let g' := generateGraph Math_random g in
  (forall a b, List.length (filter (joins a b) (edges g')) <= 1)
  /\ forall A B l,
       In A (noteManager g) -> In l (note_links A) ->
       resolves (noteManager g) l = Some B -> note_id A <> note_id B ->
       exists e, In e (edges g')
                 /\ joins (note_id A) (note_id B) e = true
                 /\ edge_kind e = DirectLink
                 /\ forall e', In e' (edges g') ->
                               joins (note_id A) (note_id B) e' = true -> e' = e.
Proof.
  intros g'. subst g'. rewrite generateGraph_edges.
  destruct (noteManager g) as [|note notes] eqn:E.
  - split; [intros a b; simpl; lia|]. intros A B l [].
  - destruct (buildGraph_spec Math_random (nextObject (host g)) (randomCalls (host g))
                (canvas_width (canvas g)) (canvas_height (canvas g))
                (devicePixelRatio (host g)) (note :: notes)) as [U L].
    split; [exact U|].
    intros A B l HA Hl HB D. destruct (L A B l HA Hl HB D) as (e & Ie & Je & Ke).
    exists e. repeat split; auto.
    intros e' Ie' Je'. eapply singleEdges_unique; eauto.
Qed.

End OneEdgePerPair.

Lemma C1_witness :
  exists e : @Edge PrimFloat.float,
    In e (edges (generateGraph sampleRandom (blankRenderer linkedNotes (freshHost 800 600))))
    /\ joins (note_id noteAlpha) (note_id noteBeta) e = true
    /\ edge_kind e = DirectLink
    /\ forall e',
         In e' (edges (generateGraph sampleRandom
                         (blankRenderer linkedNotes (freshHost 800 600)))) ->
         joins (note_id noteAlpha) (note_id noteBeta) e' = true -> e' = e.
Proof.
  apply (proj2 (C1_one_edge_per_pair (N := binary64) sampleRandom
                  (blankRenderer linkedNotes (freshHost 800 600)))
           noteAlpha noteBeta "beta"%string).
  - simpl. auto.
  - simpl. auto.
  - reflexivity.
  - simpl. discriminate.
Defined.

(** Titles beyond ASCII on [latin1]: the link "école" resolves to the note
    titled "École", the first whose title is the link up to case, also when
    a later note is titled "école"; the graph has the one link edge. *)
Lemma accented_titles_resolve :
  toLowerCase titleEcole = linkEcole
  /\ resolves [noteReader; noteEcole; noteEcoleLower] linkEcole = Some noteEcole
  /\ map (fun e => (edge_source e, edge_target e, edge_kind e))
         (edges (generateGraph (N := binary64) sampleRandom
                   (blankRenderer [noteReader; noteEcole; noteEcoleLower]
                      (freshHost 800 600))))
     = [(IdStr "e1", IdStr "e2", DirectLink)].
Proof. vm_compute. repeat split. Qed.

(** ** The three-note scenario *)

(** C2. For the notes 1 "A" (links to "B", no tag), 2 "B" (tag "x") and
    3 "C" (tag "x"), [generateGraph] produces exactly the edges (1,2) of kind
    direct-link and (2,3) of kind shared-tag, and the connection counts 1, 1
    and 0; in every number model, for every random sequence and from every
    renderer state. *)
Theorem C2_scenario {num : Type} {N : JsNumber num} (Math_random : nat -> num)
    (g : @GraphRenderer num) (contentA contentB contentC : string) :
  let g' := generateGraph Math_random
              (set_noteManager g (scenarioNotes contentA contentB contentC)) in
  map (fun e => (edge_source e, edge_target e, edge_kind e)) (edges g')
  = [ (IdNum 1, IdNum 2, DirectLink); (IdNum 2, IdNum 3, SharedTag) ]
  /\ map (fun n => (node_id n, node_connections n)) (nodes g')
     = [ (IdNum 1, 1); (IdNum 2, 1); (IdNum 3, 0) ].
Proof. split; reflexivity. Qed.

(** ** Refreshing twice *)

(** C9. [refresh()] called twice in a row on an unchanged note collection
    leaves the same edges both times: the same list, hence the same pairs
    with the same kinds.  (The node positions come from later values of
    [Math.random()] and need not agree.) *)
Theorem C9_refresh_same_edges {num : Type} {N : JsNumber num}
    (Math_random : nat -> num) (g : @GraphRenderer num) :
  edges (refresh Math_random (refresh Math_random g))
  = edges (refresh Math_random g).
Proof.
  unfold refresh. rewrite !generateGraph_edges, generateGraph_noteManager.
  destruct (noteManager g); [reflexivity|]. apply buildGraph_edges.
Qed.

(** The positions do change from one refresh to the next. *)
Lemma refresh_moves_nodes :
  let g1 := refresh (N := binary64) sampleRandom (blankRenderer linkedNotes (freshHost 800 600)) in
  let g2 := refresh sampleRandom g1 in
  map (fun e => (edge_source e, edge_target e, edge_kind e)) (edges g1)
  = map (fun e => (edge_source e, edge_target e, edge_kind e)) (edges g2)
  /\ map node_x (nodes g1) <> map node_x (nodes g2).
Proof. split; [reflexivity|]. vm_compute. discriminate. Qed.

(** * The camera and the physics over the real numbers *)

(** Exposes the real operations behind the number interface. *)
Ltac js_real :=
  cbv [nadd nsub nmul ndiv nltb nleb neqb gtb Math_sqrt Math_min Math_max of_Z dec real
       config_node_radius config_node_radiusSelected config_node_radiusHovered
       config_physics_repulsion config_physics_attraction config_physics_damping
       config_physics_maxDistance] in *.

Section Zoom.

Local Open Scope R_scope.

Lemma onWheel_zoom (g : @GraphRenderer R) (e : @WheelEvent R) :
  1 / 10 <= camera_zoom (camera (onWheel g e)) <= 3.
Proof.
  unfold onWheel. simpl. js_real. split.
  - apply Rmax_l.
  - apply Rmax_lub; [lra|apply Rmin_l].
Qed.

(** Over the reals: from a zoom within [0.1, 3.0], every finite sequence of
    wheel events leaves the zoom within [0.1, 3.0]. *)
Lemma zoom_stays_in_range_real (g : @GraphRenderer R) (events : list (@WheelEvent R)) :
  1 / 10 <= camera_zoom (camera g) <= 3 ->
  1 / 10 <= camera_zoom (camera (wheelEvents g events)) <= 3.
Proof.
  unfold wheelEvents. revert g.
  induction events as [|e events IH]; simpl; intros g H; [exact H|].
  apply IH. apply onWheel_zoom.
Qed.

End Zoom.

(** ** The zoom clamp on binary64

    The same property for the IEEE 754 arithmetic, from the specification of
    the primitive floats. *)

Section Binary64Order.

Import SpecFloat.

Abbreviation float := PrimFloat.float.
Abbreviation Prim2SF := FloatOps.Prim2SF.

(** Shifting right keeps a mantissa non-negative, so rounding a
    non-negative mantissa never gives NaN. *)
Lemma shr_1_nonneg (mrs : shr_record) : (0 <= shr_m mrs)%Z -> (0 <= shr_m (shr_1 mrs))%Z.
Proof.
  destruct mrs as [m r s]. destruct m as [|[p|p|]|p]; simpl; intros H; lia.
Qed.

Lemma iter_pos_invariant {A} (f : A -> A) (P : A -> Prop) :
  (forall x, P x -> P (f x)) -> forall n x, P x -> P (iter_pos f n x).
Proof.
  intros K. induction n as [n IH|n IH|]; simpl; intros x Px; auto.
Qed.

Lemma shr_fexp_nonneg (prec emax m e : Z) (l : location) :
  (0 <= m)%Z -> (0 <= shr_m (fst (shr_fexp prec emax m e l)))%Z.
Proof.
  intros H. unfold shr_fexp, shr.
  assert (H0 : (0 <= shr_m (shr_record_of_loc m l))%Z)
    by (destruct l as [|[]]; exact H).
  destruct (fexp prec emax (Zdigits2 m + e) - e)%Z; simpl; auto.
  apply (iter_pos_invariant shr_1 (fun mrs => (0 <= shr_m mrs)%Z)); auto.
  apply shr_1_nonneg.
Qed.

Lemma round_nearest_even_nonneg (m : Z) (l : location) :
  (0 <= m)%Z -> (0 <= round_nearest_even m l)%Z.
Proof.
  intros H. destruct l as [|[]]; simpl; try lia. destruct (Z.even m); lia.
Qed.

Lemma binary_round_aux_not_nan (prec emax : Z) (sx : bool) (mx ex : Z) (lx : location) :
  (0 <= mx)%Z -> binary_round_aux prec emax sx mx ex lx <> S754_nan.
Proof.
  intros H. unfold binary_round_aux.
  pose proof (shr_fexp_nonneg prec emax ex lx H) as H1.
  destruct (shr_fexp prec emax mx ex lx) as [mrs' e']. simpl in H1.
  pose proof (shr_fexp_nonneg prec emax e' loc_Exact
                (round_nearest_even_nonneg (loc_of_shr_record mrs') H1)) as H2.
  destruct (shr_fexp prec emax
              (round_nearest_even (shr_m mrs') (loc_of_shr_record mrs')) e' loc_Exact)
    as [mrs'' e'']. simpl in H2.
  destruct (shr_m mrs''); try discriminate; [|lia].
  destruct (e'' <=? emax - prec)%Z; discriminate.
Qed.

(** The order of the specification is total away from NaN. *)
Lemma SFcompare_antisym (a b : spec_float) :
  SFcompare b a = option_map CompOpp (SFcompare a b).
Proof.
  destruct a as [sa|sa| |sa ma ea], b as [sb|sb| |sb mb eb]; simpl; try reflexivity;
    try (destruct sa; reflexivity); try (destruct sb; reflexivity);
    try (destruct sa, sb; reflexivity).
  destruct sa, sb; simpl; try reflexivity;
    rewrite (Z.compare_antisym ea eb); destruct (ea ?= eb)%Z; simpl; try reflexivity;
    rewrite (Pos.compare_cont_antisym ma mb Eq); simpl;
    destruct (Pos.compare_cont Eq mb ma); reflexivity.
Qed.

Lemma SFcompare_refl (a : spec_float) : a <> S754_nan -> SFcompare a a = Some Eq.
Proof.
  destruct a as [s|s| |s m e]; simpl; intros H; try reflexivity; try congruence.
  - destruct s; reflexivity.
  - rewrite Z.compare_refl.
    assert (E : Pos.compare_cont Eq m m = Eq) by apply Pos.compare_cont_refl.
    rewrite E. destruct s; reflexivity.
Qed.

Lemma SFcompare_some (a b : spec_float) :
  a <> S754_nan -> b <> S754_nan -> exists c, SFcompare a b = Some c.
Proof.
  destruct a, b; simpl; intros Ha Hb; try congruence; eauto.
Qed.

Lemma leb_notNaN (a b : float) : PrimFloat.leb a b = true -> notNaN a /\ notNaN b.
Proof.
  rewrite FloatAxioms.leb_spec. unfold SFleb, notNaN.
  destruct (Prim2SF a), (Prim2SF b); simpl; intros H; split; congruence.
Qed.

Lemma is_nan_notNaN (a : float) : notNaN a -> PrimFloat.is_nan a = false.
Proof.
  intros H. unfold PrimFloat.is_nan. rewrite FloatAxioms.eqb_spec. unfold SFeqb.
  now rewrite (SFcompare_refl H).
Qed.

Lemma leb_refl (a : float) : notNaN a -> PrimFloat.leb a a = true.
Proof.
  intros H. rewrite FloatAxioms.leb_spec. unfold SFleb. now rewrite (SFcompare_refl H).
Qed.

Lemma ltb_leb (a b : float) : PrimFloat.ltb a b = true -> PrimFloat.leb a b = true.
Proof.
  rewrite FloatAxioms.ltb_spec, FloatAxioms.leb_spec. unfold SFltb, SFleb.
  destruct (SFcompare (Prim2SF a) (Prim2SF b)) as [[]|]; congruence.
Qed.

Lemma not_ltb_leb (a b : float) :
  notNaN a -> notNaN b -> PrimFloat.ltb a b = false -> PrimFloat.leb b a = true.
Proof.
  intros Ha Hb. rewrite FloatAxioms.ltb_spec, FloatAxioms.leb_spec. unfold SFltb, SFleb.
  rewrite (SFcompare_antisym (Prim2SF a) (Prim2SF b)).
  destruct (SFcompare_some Ha Hb) as [c ->]. destruct c; simpl; congruence.
Qed.

(** The product of a number and a finite non-zero number is not NaN. *)
Lemma mul_notNaN (a b : float) (s : bool) (m : positive) (e : Z) :
  notNaN a -> Prim2SF b = S754_finite s m e -> notNaN (PrimFloat.mul a b).
Proof.
  unfold notNaN. intros Ha Hb. rewrite FloatAxioms.mul_spec, Hb.
  unfold FloatAxioms.SF64mul, SFmul.
  destruct (Prim2SF a) as [sa|sa| |sa ma ea]; try congruence.
  apply binary_round_aux_not_nan. lia.
Qed.

Lemma notNaN_3 : notNaN (of_Z 3).
Proof. unfold notNaN. vm_compute. discriminate. Qed.

Lemma notNaN_tenth : notNaN (dec 1 10).
Proof. unfold notNaN. vm_compute. discriminate. Qed.

Lemma float_min_3 (m : float) :
  notNaN m ->
  notNaN (float_min (of_Z 3) m) /\ PrimFloat.leb (float_min (of_Z 3) m) (of_Z 3) = true.
Proof.
  intros Hm. unfold float_min.
  rewrite (is_nan_notNaN notNaN_3), (is_nan_notNaN Hm). simpl orb. cbv iota.
  destruct (PrimFloat.ltb (of_Z 3) m) eqn:L1.
  - split; [exact notNaN_3|apply leb_refl, notNaN_3].
  - destruct (PrimFloat.ltb m (of_Z 3)) eqn:L2.
    + split; [exact Hm|now apply ltb_leb].
    + replace (is_neg_zero (of_Z 3)) with false by (vm_compute; reflexivity).
      split; [exact Hm|]. apply not_ltb_leb; auto using notNaN_3.
Qed.

Lemma float_max_tenth (x : float) :
  notNaN x -> PrimFloat.leb x (of_Z 3) = true -> inZoomRange (float_max (dec 1 10) x).
Proof.
  intros Hx Lx. unfold float_max, inZoomRange.
  rewrite (is_nan_notNaN notNaN_tenth), (is_nan_notNaN Hx). simpl orb. cbv iota.
  assert (T3 : PrimFloat.leb (dec 1 10) (of_Z 3) = true) by (vm_compute; reflexivity).
  destruct (PrimFloat.ltb (dec 1 10) x) eqn:L1.
  - split; [now apply ltb_leb|exact Lx].
  - destruct (PrimFloat.ltb x (dec 1 10)) eqn:L2.
    + split; [apply leb_refl, notNaN_tenth|exact T3].
    + replace (is_neg_zero (dec 1 10)) with false by (vm_compute; reflexivity).
      split; [apply leb_refl, notNaN_tenth|exact T3].
Qed.

Lemma onWheel_zoom_binary64 (g : @GraphRenderer float) (e : @WheelEvent float) :
  notNaN (camera_zoom (camera g)) ->
  inZoomRange (camera_zoom (camera (onWheel g e))).
Proof.
  intros Hz. unfold onWheel. simpl camera_zoom.
  change (@Math_max float binary64) with float_max.
  change (@Math_min float binary64) with float_min.
  assert (Hm : notNaN (nmul (camera_zoom (camera g))
                         (if gtb (deltaY e) (of_Z 0) then dec 9 10 else dec 11 10))).
  { destruct (gtb (deltaY e) (of_Z 0)).
    - refine (@mul_notNaN _ (dec 9 10) false _ _ Hz _). vm_compute. reflexivity.
    - refine (@mul_notNaN _ (dec 11 10) false _ _ Hz _). vm_compute. reflexivity. }
  destruct (float_min_3 Hm) as [Hx Lx]. now apply float_max_tenth.
Qed.

(** C5. On binary64, the numbers the handler computes with: from a zoom
    within [0.1, 3.0], every finite sequence of wheel events, whatever their
    directions and positions, leaves the zoom within [0.1, 3.0]. *)
Theorem C5_zoom_stays_in_range (g : @GraphRenderer float)
    (events : list (@WheelEvent float)) :
  inZoomRange (camera_zoom (camera g)) ->
  inZoomRange (camera_zoom (camera (fold_left onWheel events g))).
Proof.
  revert g. induction events as [|e events IH]; simpl; intros g H; [exact H|].
  apply IH. apply onWheel_zoom_binary64. exact (proj1 (leb_notNaN (proj2 H))).
Qed.

End Binary64Order.

Lemma C5_witness :
  inZoomRange
    (camera_zoom
       (camera
          (fold_left onWheel
             [ {| wheel_clientX := of_Z 10; wheel_clientY := of_Z 20;
                  deltaY := of_Z (-100) |};
               {| wheel_clientX := of_Z 10; wheel_clientY := of_Z 20;
                  deltaY := of_Z 100 |} ]
             (blankRenderer linkedNotes (freshHost 800 600))))).
Proof.
  apply (C5_zoom_stays_in_range (blankRenderer linkedNotes (freshHost 800 600))).
  split; vm_compute; reflexivity.
Defined.

(** ** The boundary clamp *)

Section Boundary.

Local Open Scope R_scope.

(** One axis: the velocity is zero when a test fired, position and velocity
    are kept when none did, and the position ends between the two margins
    when the canvas has room for both. *)
Lemma clampAxis_real (margin size p v : R) :
  let r := clampAxis margin size (p, v) in
  (p < margin \/ p > size - margin -> snd r = 0)
  /\ (~ (p < margin \/ p > size - margin) -> r = (p, v))
  /\ (2 * margin <= size -> margin <= fst r <= size - margin).
Proof.
  unfold clampAxis. js_real. unfold Rltb. simpl.
  destruct (Rlt_dec p margin) as [L|L]; simpl.
  - destruct (Rlt_dec (size - margin) margin) as [G|G]; simpl;
      repeat split; intros; try lra; try tauto.
  - destruct (Rlt_dec (size - margin) p) as [G|G]; simpl;
      repeat split; intros; try lra; try tauto.
Qed.

(** One axis of a canvas without room for the two margins: wherever the
    node is, the upper test fires last and leaves it at [size - margin],
    at rest. *)
Lemma clampAxis_narrow (margin size p v : R) :
  size < 2 * margin -> clampAxis margin size (p, v) = (size - margin, 0).
Proof.
  intros Narrow. unfold clampAxis. js_real. unfold Rltb. simpl.
  destruct (Rlt_dec p margin) as [L|L]; simpl.
  - destruct (Rlt_dec (size - margin) margin) as [G|G]; [reflexivity|lra].
  - destruct (Rlt_dec (size - margin) p) as [G|G]; [reflexivity|lra].
Qed.

Lemma moveNode_radius {num} {N : JsNumber num} (cw ch : num) (m : @Node num) :
  node_radius (moveNode cw ch m) = node_radius m.
Proof. reflexivity. Qed.

(** Every node the physics step returns, other than the dragged one, is the
    moved image of the node the force passes left at the same position. *)
Lemma physicsStep_moved {num} {N : JsNumber num} (w h dpr : num)
    (drag : option (@Node num)) (nodes : list (@Node num)) (es : list (@Edge num))
    (i : nat) (n' : @Node num) :
  nth_error (physicsStep w h dpr drag nodes es) i = Some n' ->
  isObject drag n' = false ->
  exists m, nth_error (springPass (repulsionPass nodes) es) i = Some m
            /\ n' = moveNode (ndiv w dpr) (ndiv h dpr) m.
Proof.
  unfold physicsStep, integratePass. rewrite nth_error_map.
  destruct (nth_error (springPass (repulsionPass nodes) es) i) as [m|]; simpl;
    [|discriminate].
  destruct (isObject drag m) eqn:E; intros [= <-] D; [congruence|].
  exists m. auto.
Qed.

(** C6, as the code has it.  After a physics step, for every node other
    than the dragged one: on an axis where a boundary test fired, the
    velocity is exactly zero; when the canvas is at least
    2 * (radius + 10) wide (high), the position minus and plus
    (radius + 10) lies within [0, canvasWidth] ([0, canvasHeight]); and on
    a narrower (lower) canvas the node ends at canvasWidth - (radius + 10)
    (canvasHeight - (radius + 10)), at rest on that axis.  [m] is the node
    before it moved. *)
Theorem C6_boundary_clamp (w h dpr : R) (drag : option (@Node R))
    (nodes : list (@Node R)) (es : list (@Edge R)) (i : nat) (n' : @Node R) :
  nth_error (physicsStep w h dpr drag nodes es) i = Some n' ->
  isObject drag n' = false ->
  let canvasWidth := w / dpr in
  let canvasHeight := h / dpr in
  let margin := node_radius n' + 10 in
  exists m,
    nth_error (springPass (repulsionPass nodes) es) i = Some m
    /\ (let x1 := node_x m + node_vx m * (95 / 100) in
        x1 < margin \/ x1 > canvasWidth - margin -> node_vx n' = 0)
    /\ (let y1 := node_y m + node_vy m * (95 / 100) in
        y1 < margin \/ y1 > canvasHeight - margin -> node_vy n' = 0)
    /\ (2 * margin <= canvasWidth ->
        0 <= node_x n' - margin /\ node_x n' + margin <= canvasWidth)
    /\ (2 * margin <= canvasHeight ->
        0 <= node_y n' - margin /\ node_y n' + margin <= canvasHeight)
    /\ (canvasWidth < 2 * margin ->
        node_x n' = canvasWidth - margin /\ node_vx n' = 0)
    /\ (canvasHeight < 2 * margin ->
        node_y n' = canvasHeight - margin /\ node_vy n' = 0).
Proof.
  intros Hn Hd canvasWidth canvasHeight margin.
  destruct (physicsStep_moved _ _ _ _ _ _ _ Hn Hd) as (m & Hm & ->).
  exists m. split; [exact Hm|].
  subst margin. rewrite moveNode_radius.
  pose proof (clampAxis_real (node_radius m + 10) canvasWidth
                (node_x m + node_vx m * (95 / 100)) (node_vx m * (95 / 100)))
    as (Vx & _ & Px).
  pose proof (clampAxis_real (node_radius m + 10) canvasHeight
                (node_y m + node_vy m * (95 / 100)) (node_vy m * (95 / 100)))
    as (Vy & _ & Py).
  pose proof (@clampAxis_narrow (node_radius m + 10) canvasWidth
                (node_x m + node_vx m * (95 / 100)) (node_vx m * (95 / 100)))
    as Nx.
  pose proof (@clampAxis_narrow (node_radius m + 10) canvasHeight
                (node_y m + node_vy m * (95 / 100)) (node_vy m * (95 / 100)))
    as Ny.
  unfold moveNode. simpl. js_real. fold canvasWidth canvasHeight.
  repeat split; intros; try (apply Vx; assumption); try (apply Vy; assumption);
    try (specialize (Px H); js_real; lra); try (specialize (Py H); js_real; lra);
    try (specialize (Nx H); js_real; rewrite Nx; reflexivity);
    try (specialize (Ny H); js_real; rewrite Ny; reflexivity).
Qed.

End Boundary.

Lemma C6_witness :
  (let n' := @moveNode R real (800 / 1) (600 / 1) movingNode in
   0 <= node_x n' - (node_radius n' + 10)
   /\ node_x n' + (node_radius n' + 10) <= 800 / 1)%R.
Proof.
  destruct (C6_boundary_clamp 800 600 1 None [movingNode] [] 0
              (n' := @moveNode R real (800 / 1)%R (600 / 1)%R movingNode)
              eq_refl eq_refl)
    as (m & _ & _ & _ & Px & _).
  apply Px. simpl. js_real. lra.
Defined.

(** On a canvas narrower than two margins the second test undoes the first:
    a node of radius 8 on a canvas of 20 by 20 ends at 20 - 18 = 2, so that
    its position minus (radius + 10) is negative. *)
Lemma C6_counterexample :
  let nodes : list (@Node PrimFloat.float) := [plainNode 0 noteAlpha 10 10] in
  exists n',
    nth_error (physicsStep (of_Z 20) (of_Z 20) (of_Z 1) None nodes []) 0 = Some n'
    /\ isObject None n' = false
    /\ node_x n' = of_Z 2
    /\ nltb (nsub (node_x n') (nadd (node_radius n') (of_Z 10))) (of_Z 0) = true.
Proof.
  vm_compute. eexists. repeat split.
Qed.

(** The same run over the real numbers. *)
Lemma tiny_canvas_real :
  (let n' := @moveNode R real (20 / 1) (20 / 1) (plainNode 0 noteAlpha 10 10) in
   node_x n' - (node_radius n' + 10) < 0)%R.
Proof.
  simpl. unfold clampAxis. js_real. unfold Rltb. simpl.
  destruct (Rlt_dec (10 + 0 * (95 / 100)) (8 + 10))%R as [L|L]; [|lra].
  simpl. destruct (Rlt_dec (20 / 1 - (8 + 10)) (8 + 10))%R as [G|G]; [|lra].
  simpl. lra.
Qed.

(** On binary64, with the bounds the code computes: when neither the
    margin, the upper bound [size - margin] nor the position is NaN and the
    margin is at most the upper bound, the position ends between the two;
    and in every case the velocity is 0 when a test fired. *)
Lemma clampAxis_binary64 (margin size p v : PrimFloat.float) :
  let upper := nsub size margin in
  let r := clampAxis margin size (p, v) in
  (nltb p margin = true \/ nltb upper (fst (if nltb p margin then (margin, of_Z 0)
                                            else (p, v))) = true ->
   snd r = of_Z 0)
  /\ (notNaN margin -> notNaN upper -> notNaN p ->
      PrimFloat.leb margin upper = true ->
      PrimFloat.leb margin (fst r) = true /\ PrimFloat.leb (fst r) upper = true).
Proof.
  intros upper r. subst r. unfold clampAxis, gtb. fold upper.
  change (@nltb PrimFloat.float binary64) with PrimFloat.ltb. simpl fst.
  destruct (PrimFloat.ltb p margin) eqn:L1; simpl fst.
  - destruct (PrimFloat.ltb upper margin) eqn:L2; simpl; split; auto.
    + intros Hm Hu Hp Hle. split; [exact Hle|now apply leb_refl].
    + intros Hm Hu Hp Hle. split; [now apply leb_refl|exact Hle].
  - destruct (PrimFloat.ltb upper p) eqn:L2; simpl; split; auto.
    + intros Hm Hu Hp Hle. split; [exact Hle|now apply leb_refl].
    + intros [H|H]; discriminate.
    + intros Hm Hu Hp Hle. split; now apply not_ltb_leb.
Qed.

(** ** The spring force *)

(** In every number model: when both end points resolve and their distance
    is not 0, the edge loop adds the force [(fx, fy)] to the velocity of the
    source and subtracts it from the velocity of the target. *)
Lemma applySpring_resolved {num} {N : JsNumber num} (nodes : list (@Node num))
    (edge : @Edge num) (i j : nat) (sourceNode targetNode : @Node num) :
  findIndex (hasId (edge_source edge)) nodes = Some (i, sourceNode) ->
  findIndex (hasId (edge_target edge)) nodes = Some (j, targetNode) ->
  neqb (springDistance sourceNode targetNode) (of_Z 0) = false ->
  let fx := springFx edge sourceNode targetNode in
  let fy := springFy edge sourceNode targetNode in
  applySpring nodes edge
  = updateAt j (fun n => with_velocity n (nsub (node_vx n) fx) (nsub (node_vy n) fy))
      (updateAt i (fun n => with_velocity n (nadd (node_vx n) fx) (nadd (node_vy n) fy))
         nodes).
Proof.
  intros Hs Ht Hd fx fy. unfold applySpring. now rewrite Hs, Ht, Hd.
Qed.

(** The edge loop at its [k]-th edge: the first [k] edges have been
    applied, this one is, and the others follow. *)
Lemma springPass_reaches {num} {N : JsNumber num} (nodes : list (@Node num))
    (es : list (@Edge num)) (k : nat) (edge : @Edge num) :
  nth_error es k = Some edge ->
  springPass nodes (firstn (S k) es) = applySpring (springPass nodes (firstn k es)) edge
  /\ springPass nodes es
     = springPass (springPass nodes (firstn (S k) es)) (skipn (S k) es).
Proof.
  intros Hk. split.
  - revert nodes k Hk. induction es as [|a es IH]; intros nodes [|k] Hk;
      try discriminate.
    + injection Hk as ->. reflexivity.
    + apply (IH (applySpring nodes a) k Hk).
  - unfold springPass. rewrite <- fold_left_app, firstn_skipn. reflexivity.
Qed.

(** In every number model: when the edge loop of a physics step reaches an
    edge whose end points resolve and whose length is not 0, it adds the
    force [(fx, fy)] to the velocity of the source and subtracts it from the
    velocity of the target, and the step goes on from that array. *)
Lemma physicsStep_applies_spring {num} {N : JsNumber num} (w h dpr : num)
    (drag : option (@Node num)) (nodes : list (@Node num)) (es : list (@Edge num))
    (k : nat) (edge : @Edge num) (i j : nat) (sourceNode targetNode : @Node num) :
  nth_error es k = Some edge ->
  let before := springPass (repulsionPass nodes) (firstn k es) in
  findIndex (hasId (edge_source edge)) before = Some (i, sourceNode) ->
  findIndex (hasId (edge_target edge)) before = Some (j, targetNode) ->
  neqb (springDistance sourceNode targetNode) (of_Z 0) = false ->
  let fx := springFx edge sourceNode targetNode in
  let fy := springFy edge sourceNode targetNode in
  let after :=
    updateAt j (fun n => with_velocity n (nsub (node_vx n) fx) (nsub (node_vy n) fy))
      (updateAt i (fun n => with_velocity n (nadd (node_vx n) fx) (nadd (node_vy n) fy))
         before) in
  physicsStep w h dpr drag nodes es
  = integratePass (ndiv w dpr) (ndiv h dpr) drag (springPass after (skipn (S k) es)).
Proof.
  intros Hk before Hs Ht Hd fx fy after.
  destruct (springPass_reaches (repulsionPass nodes) es k Hk) as [Step Rest].
  unfold physicsStep. rewrite Rest, Step. fold before.
  now rewrite (applySpring_resolved _ _ Hs Ht Hd).
Qed.

Section Spring.

Local Open Scope R_scope.

Lemma Reqb_false (a b : R) : a <> b -> Reqb a b = false.
Proof. intros D. unfold Reqb. destruct (Req_dec_T a b); [contradiction|reflexivity]. Qed.

Lemma springDistance_real (s t : @Node R) :
  springDistance s t
  = sqrt ((node_x t - node_x s) * (node_x t - node_x s)
          + (node_y t - node_y s) * (node_y t - node_y s)).
Proof. reflexivity. Qed.

Lemma springDistance_self (s : @Node R) : springDistance s s = 0.
Proof.
  rewrite springDistance_real.
  replace ((node_x s - node_x s) * (node_x s - node_x s)
           + (node_y s - node_y s) * (node_y s - node_y s)) with 0 by ring.
  apply sqrt_0.
Qed.

Lemma targetDistanceOf_real (edge : @Edge R) :
  targetDistanceOf edge
  = match edge_kind edge with DirectLink => 200 | SharedTag => 200 * (15 / 10) end.
Proof. unfold targetDistanceOf, edge_kind. destruct (is_tag edge); reflexivity. Qed.

(** The components of a vector of length [d > 0], scaled by [force / d],
    have the length [|force|]. *)
Lemma scaled_length (dx dy force : R) :
  0 < sqrt (dx * dx + dy * dy) ->
  let d := sqrt (dx * dx + dy * dy) in
  sqrt ((dx / d * force) * (dx / d * force) + (dy / d * force) * (dy / d * force))
  = Rabs force.
Proof.
  intros Hd d.
  assert (Hdd : d * d = dx * dx + dy * dy).
  { apply sqrt_sqrt. nra. }
  replace ((dx / d * force) * (dx / d * force) + (dy / d * force) * (dy / d * force))
    with (Rsqr force).
  - apply sqrt_Rsqr_abs.
  - unfold Rsqr. fold d in Hd.
    replace (dx / d * force * (dx / d * force) + dy / d * force * (dy / d * force))
      with ((dx * dx + dy * dy) / (d * d) * (force * force)) by (field; lra).
    rewrite <- Hdd. field. lra.
Qed.

(** In exact arithmetic the two components, the unit vector of the line
    scaled by [force], are a vector along the line, of length [|force|]. *)
Lemma spring_vector_exact (dx dy force : R) :
  0 < sqrt (dx * dx + dy * dy) ->
  let d := sqrt (dx * dx + dy * dy) in
  let fx := dx / d * force in
  let fy := dy / d * force in
  sqrt (fx * fx + fy * fy) = Rabs force /\ fx * dy = fy * dx.
Proof.
  intros Hd d fx fy. split.
  - apply scaled_length. exact Hd.
  - subst fx fy. fold d in Hd. field. lra.
Qed.

(** C3. In a physics step, when the edge loop reaches an edge (the [k]-th
    of the array) whose two end points resolve to nodes at distance
    [d > 0]: the spring force is the scalar [attraction * (d -
    targetDistance) * strength], with the target distance [maxDistance]
    (200) on a direct-link edge and [maxDistance * 1.5] on a shared-tag
    edge, along the unit vector [(dx / d, dy / d)] of the line from the
    source to the target; the loop adds it to the source's velocity and
    subtracts it from the target's, and changes no other node; the step
    goes on from there with the other edges and the integration; and for a
    positive strength the force pulls the source towards the target (and
    the target towards the source) when [d > targetDistance], and pushes
    them apart when [d < targetDistance].  [before] and [after] are the
    node array when the loop reaches the edge and when it leaves it. *)
Theorem C3_spring_force (w h dpr : R) (drag : option (@Node R))
    (nodes : list (@Node R)) (es : list (@Edge R)) (k : nat) (edge : @Edge R)
    (i j : nat) (sourceNode targetNode : @Node R) :
  nth_error es k = Some edge ->
  let before := springPass (repulsionPass nodes) (firstn k es) in
  let after := springPass (repulsionPass nodes) (firstn (S k) es) in
  findIndex (hasId (edge_source edge)) before = Some (i, sourceNode) ->
  findIndex (hasId (edge_target edge)) before = Some (j, targetNode) ->
  let dx := node_x targetNode - node_x sourceNode in
  let dy := node_y targetNode - node_y sourceNode in
  let d := sqrt (dx * dx + dy * dy) in
  0 < d ->
  let targetDistance :=
    match edge_kind edge with DirectLink => 200 | SharedTag => 200 * (15 / 10) end in
  let force := 1 / 100 * (d - targetDistance) * edge_strength edge in
  let fx := dx / d * force in
  let fy := dy / d * force in
  physicsStep w h dpr drag nodes es
  = integratePass (w / dpr) (h / dpr) drag (springPass after (skipn (S k) es))
  /\ i <> j
  /\ nth_error after i
     = Some (with_velocity sourceNode (node_vx sourceNode + fx) (node_vy sourceNode + fy))
  /\ nth_error after j
     = Some (with_velocity targetNode (node_vx targetNode - fx) (node_vy targetNode - fy))
  /\ (forall k', k' <> i -> k' <> j -> nth_error after k' = nth_error before k')
  /\ (0 < edge_strength edge ->
      (targetDistance < d -> 0 < fx * dx + fy * dy)
      /\ (d < targetDistance -> fx * dx + fy * dy < 0)).
Proof.
  intros Hk before after Hs Ht dx dy d Hd targetDistance force fx fy.
  destruct (springPass_reaches (repulsionPass nodes) es k Hk) as [Step Rest].
  fold before after in Step, Rest.
  destruct (findIndex_nth _ _ Hs) as [Ns _].
  destruct (findIndex_nth _ _ Ht) as [Nt _].
  assert (Dij : i <> j).
  { intros ->. rewrite Ns in Nt. injection Nt as <-.
    pose proof (springDistance_self sourceNode) as Z0.
    rewrite springDistance_real in Z0. fold dx dy d in Z0. lra. }
  assert (Ea : after
               = updateAt j (fun n => with_velocity n (node_vx n - fx) (node_vy n - fy))
                   (updateAt i (fun n => with_velocity n (node_vx n + fx) (node_vy n + fy))
                      before)).
  { rewrite Step. unfold applySpring. rewrite Hs, Ht.
    change (@neqb R real (springDistance sourceNode targetNode) (of_Z 0))
      with (Reqb d 0).
    rewrite Reqb_false by lra.
    unfold springFx, springFy, springForce. rewrite targetDistanceOf_real.
    reflexivity. }
  assert (Hdd : d * d = dx * dx + dy * dy) by (apply sqrt_sqrt; nra).
  split; [unfold physicsStep; now rewrite Rest|].
  split; [exact Dij|].
  split.
  { rewrite Ea, nth_error_updateAt_other by auto.
    now rewrite nth_error_updateAt_same, Ns. }
  split.
  { rewrite Ea, nth_error_updateAt_same, nth_error_updateAt_other by auto.
    now rewrite Nt. }
  split.
  { intros k' Ki Kj. rewrite Ea, !nth_error_updateAt_other by auto. reflexivity. }
  intros Pos. split.
  - intros Td. subst fx fy.
    replace (dx / d * force * dx + dy / d * force * dy)
      with (force * ((dx * dx + dy * dy) / d)) by (field; lra).
    rewrite <- Hdd. replace (d * d / d) with d by (field; lra).
    subst force. apply Rmult_lt_0_compat; [|exact Hd].
    apply Rmult_lt_0_compat; [|assumption]. lra.
  - intros Td. subst fx fy.
    replace (dx / d * force * dx + dy / d * force * dy)
      with (force * ((dx * dx + dy * dy) / d)) by (field; lra).
    rewrite <- Hdd. replace (d * d / d) with d by (field; lra).
    subst force.
    assert (0 < (1 / 100 * (targetDistance - d) * edge_strength edge) * d).
    { apply Rmult_lt_0_compat; [|exact Hd].
      apply Rmult_lt_0_compat; [|assumption]. lra. }
    nra.
Qed.

End Spring.

(** Over the reals, the strength of a generated edge is positive. *)
Lemma generated_strength_positive (Math_random : nat -> R) (g : @GraphRenderer R)
    (e : @Edge R) :
  In e (edges (generateGraph Math_random g)) -> (0 < edge_strength e)%R.
Proof.
  intros I. pose proof (generateGraph_generated Math_random g) as F.
  rewrite Forall_forall in F. destruct (F e I) as [[_ ->]|[_ ->]];
    cbv [of_Z dec ndiv real]; lra.
Qed.

(** The two nodes of [farPair] are 500 apart, out of the range of the
    repulsion, which leaves them as they are. *)
Lemma farPair_apart :
  (sqrt ((300 - 0) * (300 - 0) + (400 - 0) * (400 - 0)) = 500)%R.
Proof.
  replace ((300 - 0) * (300 - 0) + (400 - 0) * (400 - 0))%R with (500 * 500)%R by lra.
  apply sqrt_square. lra.
Qed.

Lemma farPair_unrepelled : repulsionPass (@farPair R real) = farPair.
Proof.
  assert (A : (sqrt ((0 - 300) * (0 - 300) + (0 - 400) * (0 - 400)) = 500)%R).
  { replace ((0 - 300) * (0 - 300) + (0 - 400) * (0 - 400))%R with (500 * 500)%R by lra.
    apply sqrt_square. lra. }
  assert (F : forall i j, repelPair i j (@farPair R real) = farPair).
  { intros i j. unfold repelPair, farPair.
    destruct i as [|[|i]], j as [|[|j]]; try reflexivity;
      try (destruct i; reflexivity); try (destruct j; reflexivity);
      cbn [nth_error plainNode makeNode with_position node_id node_x node_y
           noteAlpha noteBeta note_id ident_eqb];
      change (String.eqb "n1" "n2") with false; change (String.eqb "n2" "n1") with false;
      cbv iota; js_real.
    - rewrite farPair_apart. unfold Reqb, Rltb.
      destruct (Req_dec_T 500 0); [lra|]. destruct (Rlt_dec 500 200); [lra|reflexivity].
    - rewrite A. unfold Reqb, Rltb.
      destruct (Req_dec_T 500 0); [lra|]. destruct (Rlt_dec 500 200); [lra|reflexivity]. }
  change (repulsionPass (@farPair R real))
    with (repelPair 1 1 (repelPair 1 0 (repelPair 0 1 (repelPair 0 0 (@farPair R real))))).
  now rewrite !F.
Qed.

Lemma C3_witness :
  (let after := springPass (repulsionPass (@farPair R real)) (firstn 1 [sampleEdge]) in
   let dx := 300 - 0 in
   let dy := 400 - 0 in
   let d := sqrt (dx * dx + dy * dy) in
   let force := 1 / 100 * (d - 200) * 1 in
   let fx := dx / d * force in
   let fy := dy / d * force in
   nth_error after 0 = Some (with_velocity (plainNode 0 noteAlpha 0 0) (0 + fx) (0 + fy))
   /\ nth_error after 1
      = Some (with_velocity (plainNode 1 noteBeta 300 400) (0 - fx) (0 - fy))
   /\ 0 < fx * dx + fy * dy)%R.
Proof.
  pose proof (@C3_spring_force 800 600 1 None farPair [sampleEdge] 0 sampleEdge 0 1
                (plainNode 0 noteAlpha 0 0) (plainNode 1 noteBeta 300 400) eq_refl)
    as K.
  cbv zeta in K. cbn [firstn springPass fold_left] in K.
  rewrite farPair_unrepelled in K.
  destruct (K eq_refl eq_refl) as (_ & _ & Hs & Ht & _ & Sign).
  { simpl. js_real. rewrite farPair_apart. lra. }
  cbv zeta. cbn [firstn]. rewrite farPair_unrepelled.
  split; [exact Hs|]. split; [exact Ht|].
  apply Sign.
  - simpl. js_real. lra.
  - simpl. js_real. rewrite farPair_apart. lra.
Defined.

(** The edge loop on binary64.  Two linked nodes 500 apart, farther than
    the target distance 200, are pulled together: the source gains velocity
    towards the target and the target loses the same amount.  Two linked
    nodes 5 apart are pushed apart. *)
Lemma spring_runs_binary64 :
  let far := applySpring (N := binary64) farPair sampleEdge in
  let close := applySpring (N := binary64) closePair sampleEdge in
  map (fun n => nltb (of_Z 0) (node_vx n)) far = [true; false]
  /\ map (fun n => nltb (node_vx n) (of_Z 0)) far = [false; true]
  /\ neqb (nadd (node_vx (nth 0 far (plainNode 0 noteAlpha 0 0)))
                (node_vx (nth 1 far (plainNode 0 noteAlpha 0 0))))
          (of_Z 0) = true
  /\ map (fun n => nltb (node_vx n) (of_Z 0)) close = [true; false]
  /\ map (fun n => nltb (of_Z 0) (node_vx n)) close = [false; true].
Proof. vm_compute. repeat split. Qed.


(** * Dragging and the hit test, in every number model *)

Section Dragging.

Context {num : Type} {N : JsNumber num}.














End Dragging.



(** ** The hit test *)

Section FirstMatch.

Context {A : Type}.

(** [Array.prototype.find] returns the first element that satisfies the
    predicate. *)
Lemma find_first (p : A -> bool) (l : list A) (a : A) :
  find p l = Some a <->
  exists i, nth_error l i = Some a /\ p a = true
            /\ forall j m, j < i -> nth_error l j = Some m -> p m = false.
Proof.
  induction l as [|b l IH]; simpl.
  - split; [discriminate|]. intros ([|i] & H & _); discriminate.
  - destruct (p b) eqn:E.
    + split.
      * intros [= <-]. exists 0. repeat split; auto. intros j m Hj. lia.
      * intros ([|i] & H & Pa & F).
        -- simpl in H. congruence.
        -- specialize (F 0 b (Nat.lt_0_succ i) eq_refl). congruence.
    + rewrite IH. split.
      * intros (i & H & Pa & F). exists (S i). repeat split; auto.
        intros [|j] m Hj Hm; simpl in Hm; [congruence|]. apply (F j); auto. lia.
      * intros ([|i] & H & Pa & F); simpl in H; [congruence|].
        exists i. repeat split; auto.
        intros j m Hj Hm. apply (F (S j)); auto. lia.
Qed.

Lemma find_nothing (p : A -> bool) (l : list A) :
  find p l = None <-> forall a, In a l -> p a = false.
Proof.
  split; [apply find_none|].
  induction l as [|b l IH]; simpl; auto. intros F.
  rewrite (F b) by auto. apply IH. auto.
Qed.

End FirstMatch.

Section HitTest.

Context {num : Type} {N : JsNumber num}.

(** C10. The hit test maps the pointer position through the inverse camera
    transform and returns the first node of the array whose centre is
    within the node's stored radius, and nothing when there is none.
    Selection and hover play no part.  The radius a node is drawn with is 12
    when it is selected and 10 when it is hovered, but a point farther from
    the centre than the stored radius does not hit the node, whatever the
    radius it is drawn with, and hits nothing when it is the only node. *)
Theorem C10_hit_test (g : @GraphRenderer num) (x y : num) :
  let tx := ndiv (nsub x (camera_x (camera g))) (camera_zoom (camera g)) in
  let ty := ndiv (nsub y (camera_y (camera g))) (camera_zoom (camera g)) in
  let selected := selectedNode (pointer g) in
  let hovered := hoveredNode (pointer g) in
  (forall n,
     getNodeAt g x y = Some n <->
     exists i, nth_error (nodes g) i = Some n
               /\ within tx ty n (node_radius n) = true
               /\ forall j m, j < i -> nth_error (nodes g) j = Some m ->
                              within tx ty m (node_radius m) = false)
  /\ (getNodeAt g x y = None <->
      forall n, In n (nodes g) -> within tx ty n (node_radius n) = false)
  /\ (forall p, getNodeAt (set_pointer g p) x y = getNodeAt g x y)
  /\ (forall n,
        drawnRadius selected hovered n
        = if isObject selected n then config_node_radiusSelected
          else if isObject hovered n then config_node_radiusHovered
          else node_radius n)
  /\ (forall n,
        within tx ty n (node_radius n) = false ->
        getNodeAt g x y <> Some n
        /\ (nodes g = [n] -> getNodeAt g x y = None)).
Proof.
  intros tx ty selected hovered. unfold getNodeAt. fold tx ty.
  change (hits tx ty) with (fun node : @Node num => within tx ty node (node_radius node)).
  split; [|split; [|split; [|split]]].
  - intros n.
    exact (@find_first _ (fun node => within tx ty node (node_radius node)) (nodes g) n).
  - exact (@find_nothing _ (fun node => within tx ty node (node_radius node)) (nodes g)).
  - reflexivity.
  - reflexivity.
  - intros n Out. split.
    + intros F. apply find_some in F. destruct F as [_ F]. congruence.
    + intros ->. simpl. now rewrite Out.
Qed.

End HitTest.

(** The pointer at (110, 100) is 10 away from the centre of the selected
    node: inside the circle of radius 12 it is drawn with, outside its stored
    radius 8; the hit test returns nothing. *)
Lemma C10_witness :
  let g := @selectedState _ binary64 in
  let n := plainNode 0 noteAlpha 100 100 in
  within (of_Z 110) (of_Z 100) n
    (drawnRadius (selectedNode (pointer g)) (hoveredNode (pointer g)) n) = true
  /\ getNodeAt g (of_Z 110) (of_Z 100) <> Some n
  /\ getNodeAt g (of_Z 110) (of_Z 100) = None.
Proof.
  intros g n.
  assert (Out : within (ndiv (nsub (of_Z 110) (camera_x (camera g))) (camera_zoom (camera g)))
                  (ndiv (nsub (of_Z 100) (camera_y (camera g))) (camera_zoom (camera g)))
                  n (node_radius n) = false)
    by (vm_compute; reflexivity).
  destruct (proj2 (proj2 (proj2 (proj2 (C10_hit_test g (of_Z 110) (of_Z 100))))) n Out)
    as [Miss Nothing].
  split; [vm_compute; reflexivity|]. split; [exact Miss|]. apply Nothing. reflexivity.
Defined.

(** * Frames on an empty graph, and tearing down *)

Section EmptyFrame.

Context {num : Type} {N : JsNumber num}.
Variable measureText : string -> string -> num.
Variable roundText : num -> string.
Variable Math_random : nat -> num.

Local Open Scope string_scope.

(** C7 on the code.  With an empty note collection, a frame of [render]
    clears the canvas and then draws the three statistics lines; it draws
    no empty-state message (the one [generateGraph] drew is cleared by the
    first frame).  The render pass of the modular renderer, on the same
    state, clears the canvas, draws the two-line message and returns. *)
Theorem C7_empty_frame (h : @Host num) :
  let g := generateGraph Math_random (blankRenderer [] h) in
  let canvasWidth := cssWidth g in
  let canvasHeight := cssHeight g in
  nodes g = []
  /\ frameOps measureText roundText g
     = [ OpClearRect (of_Z 0) (of_Z 0) canvasWidth canvasHeight;
         OpSave;
         OpTranslate (of_Z 0) (of_Z 0);
         OpScale (of_Z 1) (of_Z 1);
         OpRestore;
         OpFillStyle "#64748b";
         OpFont "14px Inter, sans-serif";
         OpTextAlign "left";
         OpTextBaseline "top";
         OpFillText "Notes: 0" (of_Z 16) (nadd (of_Z 16) (nmul (of_Z 0) (of_Z 20)));
         OpFillText "Connections: 0" (of_Z 16) (nadd (of_Z 16) (nmul (of_Z 1) (of_Z 20)));
         OpFillText ("Zoom: " ++ roundText (nmul (of_Z 1) (of_Z 100)) ++ "%")
           (of_Z 16) (nadd (of_Z 16) (nmul (of_Z 2) (of_Z 20))) ]
  /\ (forall text x y, In (OpFillText text x y) (frameOps measureText roundText g) ->
                       text <> "No notes to visualize")
  /\ ctx_ops (ctx (modularRender measureText roundText g))
     = (ctx_ops (ctx g)
        ++ OpClearRect (of_Z 0) (of_Z 0) canvasWidth canvasHeight
           :: emptyStateOps canvasWidth canvasHeight)%list.
Proof.
  intros g canvasWidth canvasHeight.
  assert (F : frameOps measureText roundText g
     = [ OpClearRect (of_Z 0) (of_Z 0) canvasWidth canvasHeight;
         OpSave;
         OpTranslate (of_Z 0) (of_Z 0);
         OpScale (of_Z 1) (of_Z 1);
         OpRestore;
         OpFillStyle "#64748b";
         OpFont "14px Inter, sans-serif";
         OpTextAlign "left";
         OpTextBaseline "top";
         OpFillText "Notes: 0" (of_Z 16) (nadd (of_Z 16) (nmul (of_Z 0) (of_Z 20)));
         OpFillText "Connections: 0" (of_Z 16) (nadd (of_Z 16) (nmul (of_Z 1) (of_Z 20)));
         OpFillText ("Zoom: " ++ roundText (nmul (of_Z 1) (of_Z 100)) ++ "%")
           (of_Z 16) (nadd (of_Z 16) (nmul (of_Z 2) (of_Z 20))) ]).
  { reflexivity. }
  split; [reflexivity|]. split; [exact F|]. split; [|reflexivity].
  intros text x y I. rewrite F in I. simpl in I.
  repeat (destruct I as [I|I]; [try discriminate I; injection I as <- _ _; discriminate|]).
  contradiction.
Qed.

End EmptyFrame.

(** The whole trace of [new GraphRenderer(..)] over an empty note collection
    in a container of 800 by 600, on binary64: the canvas is sized, the
    message of [generateGraph] is drawn, and the first frame, which
    [startAnimation] runs at once, clears it and draws the statistics. *)
Lemma empty_collection_trace :
  ctx_ops (ctx (newGraphRenderer (N := binary64) sampleMeasure sampleRound sampleRandom
                  [] (freshHost 800 600)))
  = [ OpResize (of_Z 800) (of_Z 600);
      OpScale (of_Z 1) (of_Z 1);
      OpFillStyle "#64748b";
      OpFont "18px Inter, sans-serif";
      OpTextAlign "center";
      OpTextBaseline "middle";
      OpFillText "No notes to visualize" (of_Z 400) (of_Z 280);
      OpFont "14px Inter, sans-serif";
      OpFillText "Create some notes and link them to see the graph" (of_Z 400) (of_Z 310);
      OpClearRect (of_Z 0) (of_Z 0) (of_Z 800) (of_Z 600);
      OpSave;
      OpTranslate (of_Z 0) (of_Z 0);
      OpScale (of_Z 1) (of_Z 1);
      OpRestore;
      OpFillStyle "#64748b";
      OpFont "14px Inter, sans-serif";
      OpTextAlign "left";
      OpTextBaseline "top";
      OpFillText "Notes: 0" (of_Z 16) (of_Z 16);
      OpFillText "Connections: 0" (of_Z 16) (of_Z 36);
      OpFillText "Zoom: 100%" (of_Z 16) (of_Z 56) ]%string.
Proof. vm_compute. reflexivity. Qed.

Section TearDown.

Context {num : Type} {N : JsNumber num}.
Variable measureText : string -> string -> num.
Variable roundText : num -> string.
Variable Math_random : nat -> num.

Local Open Scope string_scope.

(** C8 on the code.  After [new GraphRenderer(..)] and [destroy()]: the
    running flag is false, no frame request is pending, a frame callback or
    a late call of [animate] changes nothing; but the listeners are the ten
    that [bindEvents] registered, the [resize] listener of the window among
    them: [destroy] passes a new function object to [removeEventListener],
    which matches no registered listener, and never touches the canvas
    listeners. *)
Theorem C8_destroy (notes : list Note) (width height : Z) :
  let g := newGraphRenderer measureText roundText Math_random notes
             (freshHost width height) in
  let g' := destroy g in
  animation_running (animation g) = true
  /\ pendingFrames (host g) = [1]
  /\ animation_running (animation g') = false
  /\ pendingFrames (host g') = []
  /\ (forall handle, frameCallback measureText roundText handle g' = g')
  /\ animate measureText roundText g' = g'
  /\ listeners (host g') = listeners (host g)
  /\ listeners (host g')
     = [ boundListener TheCanvas "mousedown" 0 M_onMouseDown;
         boundListener TheCanvas "mousemove" 1 M_onMouseMove;
         boundListener TheCanvas "mouseup" 2 M_onMouseUp;
         boundListener TheCanvas "wheel" 3 M_onWheel;
         boundListener TheCanvas "click" 4 M_onClick;
         boundListener TheCanvas "dblclick" 5 M_onDoubleClick;
         boundListener TheWindow "resize" 6 M_resizeCanvas;
         boundListener TheCanvas "touchstart" 7 M_onTouchStart;
         boundListener TheCanvas "touchmove" 8 M_onTouchMove;
         boundListener TheCanvas "touchend" 9 M_onTouchEnd ].
Proof.
  intros g g'.
  assert (R1 : animation_running (animation g') = false)
    by (destruct notes; reflexivity).
  assert (P1 : pendingFrames (host g') = []) by (destruct notes; reflexivity).
  assert (L : forall r : @GraphRenderer num,
             r = g \/ r = g' ->
             listeners (host r)
             = [ boundListener TheCanvas "mousedown" 0 M_onMouseDown;
                 boundListener TheCanvas "mousemove" 1 M_onMouseMove;
                 boundListener TheCanvas "mouseup" 2 M_onMouseUp;
                 boundListener TheCanvas "wheel" 3 M_onWheel;
                 boundListener TheCanvas "click" 4 M_onClick;
                 boundListener TheCanvas "dblclick" 5 M_onDoubleClick;
                 boundListener TheWindow "resize" 6 M_resizeCanvas;
                 boundListener TheCanvas "touchstart" 7 M_onTouchStart;
                 boundListener TheCanvas "touchmove" 8 M_onTouchMove;
                 boundListener TheCanvas "touchend" 9 M_onTouchEnd ])
    by (intros r [->| ->]; destruct notes; reflexivity).
  split; [destruct notes; reflexivity|].
  split; [destruct notes; reflexivity|].
  split; [exact R1|]. split; [exact P1|].
  split; [intros handle; unfold frameCallback; rewrite P1; reflexivity|].
  split; [unfold animate; rewrite R1; reflexivity|].
  split; [exact (eq_trans (L g' (or_intror eq_refl)) (eq_sym (L g (or_introl eq_refl))))|].
  apply L. auto.
Qed.

End TearDown.

(** * Further facts about graph generation *)

Section GeneratedNodes.

Context {num : Type} {N : JsNumber num} {Txt : JsText}.

Lemma sameOrigin_refl (a : @Node num) : sameOrigin a a.
Proof. unfold sameOrigin. auto 10. Qed.

Lemma sameOrigin_trans (a b c : @Node num) :
  sameOrigin a b -> sameOrigin b c -> sameOrigin a c.
Proof. unfold sameOrigin. intuition congruence. Qed.

Lemma sameOrigin_updateAt (i : nat) (l l' : list (@Node num)) :
  Forall2 sameOrigin l l' -> Forall2 sameOrigin l (updateAt i bump l').
Proof.
  intros F. revert i. induction F as [|a b l l' Sab F IH]; intros [|i]; simpl;
    constructor; auto.
Qed.

Lemma addLink_origin (ns0 : list (@Node num)) (i : nat)
    (g : list (@Node num) * list (@Edge num)) (l : string) :
  Forall2 sameOrigin ns0 (fst g) -> Forall2 sameOrigin ns0 (fst (addLink i g l)).
Proof.
  intros F. destruct (addLink_cases i g l) as [->|(s & j & t & _ & _ & _ & _ & ->)]; auto.
  simpl. now apply sameOrigin_updateAt, sameOrigin_updateAt.
Qed.

Lemma linkPass_origin (ns0 : list (@Node num)) :
  Forall2 sameOrigin ns0 (fst (linkPass (ns0, []))).
Proof.
  unfold linkPass.
  apply (fold_left_invariant (fun g i => linksOf i g)
           (fun g => Forall2 sameOrigin ns0 (fst g))).
  - intros g i _ F. unfold linksOf. destruct (nth_error (fst g) i); auto.
    apply (fold_left_invariant (addLink i) (fun g => Forall2 sameOrigin ns0 (fst g))); auto.
    intros; now apply addLink_origin.
  - simpl. induction ns0; constructor; auto using sameOrigin_refl.
Qed.

(** Centring moves every node by one offset. *)
Lemma centerGraph_shift (w h dpr : num) (l : list (@Node num)) :
  exists ox oy,
    centerGraph w h dpr l
    = map (fun node => with_position node (nadd (node_x node) ox) (nadd (node_y node) oy)) l.
Proof.
  destruct l as [|a l]; [exists (of_Z 0), (of_Z 0); reflexivity|].
  unfold centerGraph. eexists. eexists. reflexivity.
Qed.

(** The nodes of a generated graph, from those the link pass leaves. *)
Lemma buildGraph_nodes (random : nat -> num) (o r : nat) (w h dpr : num)
    (notes : list Note) :
  exists ox oy,
    fst (buildGraph random o r w h dpr notes)
    = map (fun node =>
             with_position (adjustRadius node)
               (nadd (node_x node) ox) (nadd (node_y node) oy))
          (fst (linkPass (createNodes random o r w h dpr notes, []))).
Proof.
  unfold buildGraph. simpl.
  destruct (centerGraph_shift w h dpr
              (map adjustRadius (fst (linkPass (createNodes random o r w h dpr notes, [])))))
    as (ox & oy & E).
  exists ox, oy. rewrite E, map_map. reflexivity.
Qed.

Lemma createNodes_mirrors (random : nat -> num) (o r : nat) (w h dpr : num)
    (notes : list Note) :
  Forall2 mirrors notes (createNodes random o r w h dpr notes).
Proof.
  revert o r. induction notes as [|note notes IH]; intros o r; simpl; constructor; auto.
  unfold mirrors. simpl. auto 10.
Qed.

Lemma createNodes_objects (random : nat -> num) (o r : nat) (w h dpr : num)
    (notes : list Note) :
  map node_obj (createNodes random o r w h dpr notes) = seq o (List.length notes).
Proof.
  revert o r. induction notes as [|note notes IH]; intros o r; simpl; auto.
  now rewrite IH.
Qed.

Lemma Forall2_map_r {A B C} (R : A -> C -> Prop) (f : B -> C) (l : list A) (l' : list B) :
  Forall2 (fun a b => R a (f b)) l l' -> Forall2 R l (map f l').
Proof. induction 1; simpl; constructor; auto. Qed.

Lemma Forall2_compose {A B C} (R : A -> B -> Prop) (S : B -> C -> Prop)
    (T : A -> C -> Prop) (l1 : list A) (l2 : list B) (l3 : list C) :
  (forall a b c, R a b -> S b c -> T a c) ->
  Forall2 R l1 l2 -> Forall2 S l2 l3 -> Forall2 T l1 l3.
Proof.
  intros K F. revert l3. induction F as [|a b l1 l2 Rab F IH]; intros l3 G;
    inversion G; subst; constructor; eauto.
Qed.

Lemma Forall2_impl {A B} (R S : A -> B -> Prop) (l : list A) (l' : list B) :
  (forall a b, R a b -> S a b) -> Forall2 R l l' -> Forall2 S l l'.
Proof. intros K. induction 1; constructor; auto. Qed.

(** The nodes of a generated graph keep the origin of the created ones. *)
Lemma buildGraph_origin (random : nat -> num) (o r : nat) (w h dpr : num)
    (notes : list Note) :
  Forall2 sameOrigin (createNodes random o r w h dpr notes)
    (fst (buildGraph random o r w h dpr notes)).
Proof.
  destruct (buildGraph_nodes random o r w h dpr notes) as (ox & oy & ->).
  apply Forall2_map_r.
  eapply Forall2_impl; [|apply linkPass_origin].
  intros a b. unfold sameOrigin. simpl. auto.
Qed.

Lemma generateGraph_nodes_built (Math_random : nat -> num) (g : @GraphRenderer num) :
  nodes (generateGraph Math_random g)
  = match noteManager g with
    | [] => []
    | notes =>
        fst (buildGraph Math_random (nextObject (host g)) (randomCalls (host g))
               (canvas_width (canvas g)) (canvas_height (canvas g))
               (devicePixelRatio (host g)) notes)
    end.
Proof. unfold generateGraph. destruct (noteManager g); reflexivity. Qed.

Lemma generateGraph_mirrors (Math_random : nat -> num) (g : @GraphRenderer num) :
  Forall2 mirrors (noteManager g) (nodes (generateGraph Math_random g)).
Proof.
  rewrite generateGraph_nodes_built.
  destruct (noteManager g) as [|note notes] eqn:E; [constructor|].
  eapply Forall2_compose;
    [|apply (createNodes_mirrors Math_random (nextObject (host g)) (randomCalls (host g))
               (canvas_width (canvas g)) (canvas_height (canvas g))
               (devicePixelRatio (host g)))
     |apply buildGraph_origin].
  intros A a b. unfold mirrors, sameOrigin. intuition congruence.
Qed.

Lemma generateGraph_objects (Math_random : nat -> num) (g : @GraphRenderer num) :
  map node_obj (nodes (generateGraph Math_random g))
  = seq (nextObject (host g)) (List.length (noteManager g)).
Proof.
  rewrite generateGraph_nodes_built.
  destruct (noteManager g) as [|note notes] eqn:E; [reflexivity|].
  rewrite <- (createNodes_objects Math_random (nextObject (host g))
                (randomCalls (host g)) (canvas_width (canvas g))
                (canvas_height (canvas g)) (devicePixelRatio (host g)) (note :: notes)).
  pose proof (buildGraph_origin Math_random (nextObject (host g)) (randomCalls (host g))
                (canvas_width (canvas g)) (canvas_height (canvas g))
                (devicePixelRatio (host g)) (note :: notes)) as O.
  induction O as [|a b l l' Sab F IH]; simpl; [reflexivity|].
  rewrite IH. now rewrite (proj1 Sab).
Qed.

(** X1.  [generateGraph] leaves one node per note, in the order of the notes:
    the node holds the note and its identifier, title, content and tags,
    and is at rest; the node objects are new ones, all distinct. *)
Theorem generateGraph_one_node_per_note (Math_random : nat -> num)
    (g : @GraphRenderer num) :
  let g' := generateGraph Math_random g in
  Forall2 mirrors (noteManager g) (nodes g')
  /\ map node_obj (nodes g') = seq (nextObject (host g)) (List.length (noteManager g))
  /\ NoDup (map node_obj (nodes g')).
Proof.
  intros g'. subst g'. split; [apply generateGraph_mirrors|].
  split; [apply generateGraph_objects|].
  rewrite generateGraph_objects. apply seq_NoDup.
Qed.

End GeneratedNodes.

(** ** Where the edges of a generated graph come from *)

Section EdgeOrigins.

Context {num : Type} {N : JsNumber num} {Txt : JsText}.

Lemma Forall2_In_r {A B} (R : A -> B -> Prop) (l : list A) (l' : list B) (b : B) :
  Forall2 R l l' -> In b l' -> exists a, In a l /\ R a b.
Proof.
  induction 1 as [|x y l l' Rxy F IH]; intros []; subst.
  - exists x. split; [now left|assumption].
  - destruct IH as (a & I & Ra); auto. exists a. split; [now right|assumption].
Qed.

Lemma Forall2_In_l {A B} (R : A -> B -> Prop) (l : list A) (l' : list B) (a : A) :
  Forall2 R l l' -> In a l -> exists b, In b l' /\ R a b.
Proof.
  induction 1 as [|x y l l' Rxy F IH]; intros []; subst.
  - exists y. split; [now left|assumption].
  - destruct IH as (b & I & Ra); auto. exists b. split; [now right|assumption].
Qed.

Lemma carries_shape (notes : list Note) (ns ns' : list (@Node num)) :
  Forall2 carries notes ns -> Forall2 sameShape ns ns' -> Forall2 carries notes ns'.
Proof.
  apply Forall2_compose. intros A a b. unfold carries, sameShape. intuition congruence.
Qed.

(** The title search on the nodes finds the node of the note the link
    resolves to. *)
Lemma resolves_carries (l : string) (k : nat) (notes : list Note) (ns : list (@Node num))
    (j : nat) (t : @Node num) :
  Forall2 carries notes ns -> findIndexFrom (titleIs l) k ns = Some (j, t) ->
  exists B, resolves notes l = Some B /\ carries B t.
Proof.
  intros F. revert k. unfold resolves.
  induction F as [|note n notes ns C F IH]; intros k; simpl; [discriminate|].
  unfold titleIs at 1. rewrite (proj1 (proj2 C)).
  destruct (String.eqb (toLowerCase (note_title note)) (toLowerCase l)).
  - intros [= <- <-]. eauto.
  - apply IH.
Qed.

Lemma linkEdgeAt_shape (ns ns' : list (@Node num)) (e : @Edge num) :
  Forall2 sameShape ns' ns -> linkEdgeAt ns e -> linkEdgeAt ns' e.
Proof.
  intros Sh (i & s & l & j & t & Hs & Hl & Ht & D & ->).
  pose proof (Forall2_nth_error i Sh) as Hn. rewrite Hs in Hn.
  pose proof (@Forall2_findIndexFrom _ (titleIs l) 0 _ _ (@titleIs_shape _ _ l) Sh) as Hf.
  fold (findIndex (titleIs l) ns) in Hf. rewrite Ht in Hf.
  fold (findIndex (titleIs l) ns') in Hf.
  destruct (nth_error ns' i) as [s'|] eqn:Hs'; [|contradiction].
  destruct (findIndex (titleIs l) ns') as [[j' t']|] eqn:Ht'; [|contradiction].
  destruct Hn as (Is & _ & _ & Ns). destruct Hf as (-> & It & _).
  exists i, s', l, j, t'.
  split; [exact Hs'|]. split; [now rewrite Ns|]. split; [exact Ht'|].
  split; [congruence|now rewrite Is, It].
Qed.

Lemma linksOf_origins (ns0 : list (@Node num)) (i : nat)
    (g : list (@Node num) * list (@Edge num)) :
  Forall2 sameShape ns0 (fst g) -> Forall (linkEdgeAt ns0) (snd g) ->
  Forall2 sameShape ns0 (fst (linksOf i g)) /\ Forall (linkEdgeAt ns0) (snd (linksOf i g)).
Proof.
  intros Sh F. unfold linksOf.
  destruct (nth_error (fst g) i) as [s0|] eqn:Hs0; [|auto].
  apply (fold_left_invariant (addLink i)
           (fun g' => nth_error (fst g') i = Some s0 \/ True ->
                      Forall2 sameShape ns0 (fst g') /\ Forall (linkEdgeAt ns0) (snd g')));
    auto.
  intros g' l Hl K _. destruct K as [Sh' F']; auto.
  destruct (addLink_cases i g' l) as [->|(s & j & t & Hs & Ht & D & _ & ->)]; auto.
  simpl. split; [now apply Forall2_updateAt_r, Forall2_updateAt_r|].
  apply Forall_app. split; auto. constructor; [|constructor].
  apply (linkEdgeAt_shape Sh').
  exists i, s, l, j, t. repeat split; auto.
  pose proof (Forall2_nth_error i Sh') as Hn. rewrite Hs in Hn.
  pose proof (Forall2_nth_error i Sh) as Hn0. rewrite Hs0 in Hn0.
  destruct (nth_error ns0 i) as [s1|]; [|contradiction].
  destruct Hn as (_ & _ & _ & <-). destruct Hn0 as (_ & _ & _ & ->). exact Hl.
Qed.

Lemma linkPass_origins (ns0 : list (@Node num)) :
  Forall (linkEdgeAt ns0) (snd (linkPass (ns0, []))).
Proof.
  unfold linkPass.
  apply (fold_left_invariant (fun g i => linksOf i g)
           (fun g => Forall2 sameShape ns0 (fst g) /\ Forall (linkEdgeAt ns0) (snd g))).
  - intros g i _ [Sh F]. now apply linksOf_origins.
  - simpl. split; [apply Forall2_refl_shape|constructor].
Qed.

Lemma addTagEdge_pushed (a : @Node num) (es : list (@Edge num)) (b : @Node num) :
  addTagEdge a es b = es
  \/ (node_id a <> node_id b /\ commonTagsOf a b <> []
      /\ addTagEdge a es b = es ++ [tagEdge (node_id a) (node_id b) (commonTagsOf a b)]).
Proof.
  unfold addTagEdge.
  destruct (ident_eqb (node_id a) (node_id b)) eqn:Eid; simpl; auto.
  destruct (commonTagsOf a b) as [|tag tags] eqn:Ec; simpl; auto.
  destruct (find (joins (node_id a) (node_id b)) es); auto.
  right. apply ident_eqb_neq in Eid. repeat split; auto. discriminate.
Qed.

(** The tag pass appends tag edges of pairs of nodes with common tags. *)
Lemma tagPass_origins (ns : list (@Node num)) (es : list (@Edge num)) :
  exists extra, tagPass ns es = es ++ extra /\ Forall (tagEdgeAt ns) extra.
Proof.
  unfold tagPass.
  apply (fold_left_invariant
           (fun es' nodeA => fold_left (addTagEdge nodeA) ns es')
           (fun es' => exists extra, es' = es ++ extra /\ Forall (tagEdgeAt ns) extra)).
  - intros es1 a Ia I1.
    apply (fold_left_invariant (addTagEdge a)
             (fun es' => exists extra, es' = es ++ extra /\ Forall (tagEdgeAt ns) extra));
      auto.
    intros es2 b Ib (extra & -> & F).
    destruct (addTagEdge_pushed a (es ++ extra) b) as [->|(D & C & ->)]; eauto.
    exists (extra ++ [tagEdge (node_id a) (node_id b) (commonTagsOf a b)]).
    rewrite app_assoc. split; auto.
    apply Forall_app. split; auto. constructor; [|constructor].
    exists a, b. auto.
  - exists []. rewrite app_nil_r. auto.
Qed.

Lemma commonTagsOf_carries (A B : Note) (a b : @Node num) :
  carries A a -> carries B b -> commonTagsOf a b = sharedTags A B.
Proof.
  intros (_ & _ & Ea & _) (_ & _ & Eb & _). unfold commonTagsOf, sharedTags.
  now rewrite Ea, Eb.
Qed.

(** The edges of a generated graph and the nodes the passes ran on. *)
Lemma buildGraph_origins (random : nat -> num) (o r : nat) (w h dpr : num)
    (notes : list Note) :
  Forall (fun e => linkEdgeOf notes e \/ tagEdgeOf notes e)
         (snd (buildGraph random o r w h dpr notes)).
Proof.
  unfold buildGraph. simpl.
  set (ns0 := createNodes random o r w h dpr notes).
  pose proof (createNodes_carries random o r w h dpr notes) as C. fold ns0 in C.
  destruct (linkPass_spec ns0) as [(Sh & _ & _) _].
  pose proof (linkPass_origins ns0) as L.
  destruct (tagPass_origins (fst (linkPass (ns0, []))) (snd (linkPass (ns0, []))))
    as (extra & -> & T).
  apply Forall_app. split.
  - eapply Forall_impl; [|exact L].
    intros e (i & s & l & j & t & Hs & Hl & Ht & D & ->). left.
    pose proof (Forall2_nth_error i C) as Hn. rewrite Hs in Hn.
    destruct (nth_error notes i) as [A|] eqn:HA; [|contradiction].
    destruct (@resolves_carries l 0 notes ns0 j t C Ht) as (B & HB & Ct).
    destruct Hn as (Is & _ & _ & Ns). destruct Ct as (It & _).
    exists A, B, l. rewrite <- Is, <- It.
    split; [eapply nth_error_In; eauto|]. split; [now rewrite <- Ns|].
    split; [exact HB|]. split; [exact D|reflexivity].
  - eapply Forall_impl; [|exact T].
    intros e (a & b & Ia & Ib & D & Ct & ->). right.
    pose proof (carries_shape C Sh) as C'.
    destruct (Forall2_In_r a C' Ia) as (A & HA & Ca).
    destruct (Forall2_In_r b C' Ib) as (B & HB & Cb).
    rewrite (commonTagsOf_carries Ca Cb) in *.
    exists A, B. rewrite <- (proj1 Ca), <- (proj1 Cb).
    split; [exact HA|]. split; [exact HB|]. split; [exact D|].
    split; [exact Ct|reflexivity].
Qed.

(** X2.  Every edge [generateGraph] leaves is either the link edge of a note
    one of whose links resolves to another note, from the linking note to
    the linked one, or the tag edge of two notes with different identifiers
    that share a tag, carrying the tags of the first that the second has.
    So no edge joins a note to itself and no edge has an end point that is
    not a note. *)
Theorem generateGraph_edge_origins (Math_random : nat -> num) (g : @GraphRenderer num) :
  let g' := generateGraph Math_random g in
  Forall (fun e =>
            (linkEdgeOf (noteManager g) e \/ tagEdgeOf (noteManager g) e)
            /\ edge_source e <> edge_target e
            /\ (exists s, In s (nodes g') /\ node_id s = edge_source e)
            /\ (exists t, In t (nodes g') /\ node_id t = edge_target e))
         (edges g').
Proof.
  intros g'. apply Forall_forall. intros e Ie. subst g'.
  pose proof (generateGraph_mirrors Math_random g) as M.
  rewrite generateGraph_edges in Ie.
  destruct (noteManager g) as [|note notes] eqn:E; [destruct Ie|].
  pose proof (buildGraph_origins Math_random (nextObject (host g)) (randomCalls (host g))
                (canvas_width (canvas g)) (canvas_height (canvas g))
                (devicePixelRatio (host g)) (note :: notes)) as O.
  rewrite Forall_forall in O. specialize (O e Ie).
  split; [exact O|].
  assert (K : exists A B, In A (note :: notes) /\ In B (note :: notes)
                          /\ note_id A <> note_id B
                          /\ edge_source e = note_id A /\ edge_target e = note_id B).
  { destruct O as [(A & B & l & HA & _ & HB & D & ->)|(A & B & HA & HB & D & _ & ->)].
    - exists A, B. split; [exact HA|]. split; [|auto].
      unfold resolves in HB. apply find_some in HB. tauto.
    - exists A, B. auto. }
  destruct K as (A & B & HA & HB & D & Es & Et).
  split; [congruence|].
  destruct (Forall2_In_l A M HA) as (s & Is & Ms).
  destruct (Forall2_In_l B M HB) as (t & It & Mt).
  split; [exists s|exists t]; split; auto.
  - rewrite Es. apply Ms.
  - rewrite Et. apply Mt.
Qed.

End EdgeOrigins.

(** ** Notes that share a tag are joined *)

Section SharedTags.

Context {num : Type} {N : JsNumber num} {Txt : JsText}.

Lemma sharedTags_tag (A B : Note) (tag : string) :
  In tag (note_tags A) -> In tag (note_tags B) -> sharedTags A B <> [].
Proof.
  intros IA IB E.
  assert (I : In tag (sharedTags A B)).
  { apply filter_In. split; [exact IA|]. apply existsb_exists. exists tag.
    split; [exact IB|apply String.eqb_refl]. }
  rewrite E in I. destruct I.
Qed.

Lemma addTagEdge_joined (a : @Node num) (es : list (@Edge num)) (b : @Node num) :
  node_id a <> node_id b -> commonTagsOf a b <> [] ->
  exists e, In e (addTagEdge a es b) /\ joins (node_id a) (node_id b) e = true.
Proof.
  intros D C. unfold addTagEdge.
  apply ident_eqb_neq in D. rewrite D. simpl.
  destruct (commonTagsOf a b) as [|tag tags] eqn:Ec; [congruence|]. simpl.
  destruct (find (joins (node_id a) (node_id b)) es) as [e|] eqn:Ef.
  - apply find_some in Ef. exists e. exact Ef.
  - exists (tagEdge (node_id a) (node_id b) (tag :: tags)). split.
    + apply in_or_app. right. now left.
    + apply joins_tagEdge.
Qed.

Lemma tagPass_joined (ns : list (@Node num)) (es : list (@Edge num)) (a b : @Node num) :
  In a ns -> In b ns -> node_id a <> node_id b -> commonTagsOf a b <> [] ->
  exists e, In e (tagPass ns es) /\ joins (node_id a) (node_id b) e = true.
Proof.
  intros Ia Ib D C. unfold tagPass.
  refine (@fold_left_established _ _
            (fun es' nodeA => fold_left (addTagEdge nodeA) ns es') (fun _ => True)
            (fun a es' => forall b, In b ns -> node_id a <> node_id b ->
                                    commonTagsOf a b <> [] ->
                                    exists e, In e es'
                                              /\ joins (node_id a) (node_id b) e = true)
            ns _ _ _ es I a Ia b Ib D C); auto.
  - intros es1 a1 _ _ b1 Ib1 D1 C1.
    refine (@fold_left_established _ _ (addTagEdge a1) (fun _ => True)
              (fun b es' => node_id a1 <> node_id b -> commonTagsOf a1 b <> [] ->
                            exists e, In e es'
                                      /\ joins (node_id a1) (node_id b) e = true)
              ns _ _ _ es1 I b1 Ib1 D1 C1); auto.
    + intros es2 b2 _ _ D2 C2. now apply addTagEdge_joined.
    + intros es2 b2 c _ _ _ K D2 C2. destruct (K D2 C2) as (e & Ie & Je).
      exists e. split; [|exact Je]. eapply extends_In; [apply addTagEdge_extends|exact Ie].
  - intros es1 a1 c _ _ _ K b1 Ib1 D1 C1. destruct (K b1 Ib1 D1 C1) as (e & Ie & Je).
    exists e. split; [|exact Je].
    apply (fold_left_invariant (addTagEdge c) (fun es' => In e es')); auto.
    intros es2 b2 _ I2. eapply extends_In; [apply addTagEdge_extends|exact I2].
Qed.

(** X3.  Two notes with different identifiers that have a tag in common are
    joined by exactly one edge after [generateGraph]. *)
Theorem generateGraph_shared_tag_joined (Math_random : nat -> num)
    (g : @GraphRenderer num) (A B : Note) (tag : string) :
  In A (noteManager g) -> In B (noteManager g) -> note_id A <> note_id B ->
  In tag (note_tags A) -> In tag (note_tags B) ->
  let g' := generateGraph Math_random g in
  exists e, In e (edges g')
            /\ joins (note_id A) (note_id B) e = true
            /\ forall e', In e' (edges g') ->
                          joins (note_id A) (note_id B) e' = true -> e' = e.
Proof.
  intros HA HB D TA TB g'. subst g'. rewrite generateGraph_edges.
  destruct (noteManager g) as [|note notes] eqn:E; [destruct HA|].
  destruct (buildGraph_spec Math_random (nextObject (host g)) (randomCalls (host g))
              (canvas_width (canvas g)) (canvas_height (canvas g))
              (devicePixelRatio (host g)) (note :: notes)) as [U _].
  revert U. unfold buildGraph. simpl snd.
  set (ns0 := createNodes Math_random (nextObject (host g)) (randomCalls (host g))
                (canvas_width (canvas g)) (canvas_height (canvas g))
                (devicePixelRatio (host g)) (note :: notes)).
  intros U.
  pose proof (createNodes_carries Math_random (nextObject (host g)) (randomCalls (host g))
                (canvas_width (canvas g)) (canvas_height (canvas g))
                (devicePixelRatio (host g)) (note :: notes)) as C. fold ns0 in C.
  destruct (linkPass_spec ns0) as [(Sh & _ & _) _].
  pose proof (carries_shape C Sh) as C'.
  destruct (Forall2_In_l A C' HA) as (a & Ia & Ca).
  destruct (Forall2_In_l B C' HB) as (b & Ib & Cb).
  destruct (@tagPass_joined (fst (linkPass (ns0, []))) (snd (linkPass (ns0, []))) a b
              Ia Ib) as (e & Ie & Je).
  - rewrite (proj1 Ca), (proj1 Cb). exact D.
  - rewrite (commonTagsOf_carries Ca Cb). eapply sharedTags_tag; eauto.
  - rewrite (proj1 Ca), (proj1 Cb) in Je.
    exists e. split; [exact Ie|]. split; [exact Je|].
    intros e' Ie' Je'. eapply singleEdges_unique; eauto.
Qed.

End SharedTags.

Lemma generateGraph_shared_tag_joined_witness :
  exists e : @Edge PrimFloat.float,
    In e (edges (generateGraph sampleRandom
                   (blankRenderer (scenarioNotes EmptyString EmptyString EmptyString)
                      (freshHost 800 600))))
    /\ joins (IdNum 2) (IdNum 3) e = true
    /\ forall e',
         In e' (edges (generateGraph sampleRandom
                         (blankRenderer (scenarioNotes EmptyString EmptyString EmptyString)
                            (freshHost 800 600)))) ->
         joins (IdNum 2) (IdNum 3) e' = true -> e' = e.
Proof.
  apply (@generateGraph_shared_tag_joined _ binary64 latin1 sampleRandom
           (blankRenderer (scenarioNotes EmptyString EmptyString EmptyString)
              (freshHost 800 600))
           {| note_id := IdNum 2; note_title := "B"; note_content := EmptyString;
              note_tags := ["x"%string]; note_links := [] |}
           {| note_id := IdNum 3; note_title := "C"; note_content := EmptyString;
              note_tags := ["x"%string]; note_links := [] |}
           "x"%string).
  - simpl. auto.
  - simpl. auto.
  - simpl. discriminate.
  - simpl. auto.
  - simpl. auto.
Defined.

(** ** Connection counts and radii *)

Section Connections.

Context {num : Type} {N : JsNumber num} {Txt : JsText}.

Lemma map_updateAt_bump {B} (f : @Node num -> B) (i : nat) (l : list (@Node num)) :
  (forall n, f (bump n) = f n) -> map f (updateAt i bump l) = map f l.
Proof.
  intros K. revert i. induction l as [|a l IH]; intros [|i]; simpl; auto.
  - now rewrite K.
  - now rewrite IH.
Qed.

(** With unique identifiers, the position of a node is given by its
    identifier. *)
Lemma unique_position (l : list (@Node num)) (i k : nat) (a b : @Node num) :
  NoDup (map node_id l) -> nth_error l i = Some a -> nth_error l k = Some b ->
  node_id a = node_id b -> i = k.
Proof.
  intros U Ha Hb E.
  apply (proj1 (NoDup_nth_error (map node_id l)) U).
  - rewrite length_map. apply nth_error_Some. congruence.
  - rewrite !nth_error_map, Ha, Hb. simpl. now rewrite E.
Qed.

Lemma linkDegree_push (a : Ident) (es : list (@Edge num)) (s t : Ident) :
  linkDegree a (es ++ [linkEdge s t])
  = linkDegree a es + (if ident_eqb s a || ident_eqb t a then 1 else 0).
Proof.
  unfold linkDegree. rewrite filter_app, length_app. simpl.
  destruct (ident_eqb s a || ident_eqb t a); reflexivity.
Qed.

Lemma linkDegree_tags (a : Ident) (es extra : list (@Edge num)) :
  Forall (fun e => is_tag e = true) extra ->
  linkDegree a (es ++ extra) = linkDegree a es.
Proof.
  intros F. unfold linkDegree. rewrite filter_app, length_app.
  replace (filter _ extra) with (@nil (@Edge num)); [simpl; lia|].
  induction F as [|e extra Te F IH]; simpl; auto. now rewrite Te.
Qed.

Lemma addLink_counts (i : nat) (g : list (@Node num) * list (@Edge num)) (l : string) :
  NoDup (map node_id (fst g)) -> countsLinks g ->
  NoDup (map node_id (fst (addLink i g l))) /\ countsLinks (addLink i g l).
Proof.
  intros U K.
  destruct (addLink_cases i g l) as [->|(s & j & t & Hs & Ht & D & _ & ->)]; auto.
  apply findIndex_nth in Ht. destruct Ht as [Ht _].
  assert (Dij : i <> j) by (intros ->; congruence).
  simpl fst. simpl snd. split.
  - rewrite !map_updateAt_bump; auto.
  - intros k n Hn. simpl fst in Hn. simpl snd. rewrite linkDegree_push.
    destruct (Nat.eq_dec k j) as [->|Dkj].
    + rewrite nth_error_updateAt_same, nth_error_updateAt_other, Ht in Hn; auto.
      injection Hn as <-. simpl. rewrite ident_eqb_refl, orb_true_r.
      rewrite (K j t Ht). lia.
    + rewrite nth_error_updateAt_other in Hn; auto.
      destruct (Nat.eq_dec k i) as [->|Dki].
      * rewrite nth_error_updateAt_same, Hs in Hn. injection Hn as <-. simpl.
        rewrite ident_eqb_refl. simpl. rewrite (K i s Hs). lia.
      * rewrite nth_error_updateAt_other in Hn; auto.
        assert (Es : ident_eqb (node_id s) (node_id n) = false).
        { apply ident_eqb_neq. intros E. apply Dki. symmetry.
          eapply unique_position; eauto. }
        assert (Et : ident_eqb (node_id t) (node_id n) = false).
        { apply ident_eqb_neq. intros E. apply Dkj. symmetry.
          eapply unique_position; eauto. }
        rewrite Es, Et. simpl. rewrite (K k n Hn). lia.
Qed.

Lemma linkPass_counts (ns0 : list (@Node num)) :
  NoDup (map node_id ns0) -> Forall (fun n => node_connections n = 0) ns0 ->
  countsLinks (linkPass (ns0, [])).
Proof.
  intros U Z. unfold linkPass.
  apply (fold_left_invariant (fun g i => linksOf i g)
           (fun g => NoDup (map node_id (fst g)) /\ countsLinks g)).
  - intros g i _ I. unfold linksOf. destruct (nth_error (fst g) i); auto.
    apply (fold_left_invariant (addLink i)
             (fun g => NoDup (map node_id (fst g)) /\ countsLinks g)); auto.
    intros g' l _ [U' K']. now apply addLink_counts.
  - split; [exact U|]. intros k n Hn. simpl in *.
    apply nth_error_In in Hn. rewrite Forall_forall in Z. now apply Z.
Qed.

Lemma createNodes_unconnected (random : nat -> num) (o r : nat) (w h dpr : num)
    (notes : list Note) :
  Forall (fun n => node_connections n = 0) (createNodes random o r w h dpr notes).
Proof.
  revert o r. induction notes as [|note notes IH]; intros o r; simpl; constructor; auto.
Qed.

Lemma tagEdgeAt_is_tag (ns : list (@Node num)) (e : @Edge num) :
  tagEdgeAt ns e -> is_tag e = true.
Proof. intros (a & b & _ & _ & _ & _ & ->). reflexivity. Qed.

(** The connection counts of a generated graph, for notes with pairwise
    different identifiers. *)
Lemma buildGraph_connections (random : nat -> num) (o r : nat) (w h dpr : num)
    (notes : list Note) (node : @Node num) :
  NoDup (map note_id notes) ->
  In node (fst (buildGraph random o r w h dpr notes)) ->
  node_connections node
  = linkDegree (node_id node) (snd (buildGraph random o r w h dpr notes)).
Proof.
  intros U I.
  destruct (buildGraph_nodes random o r w h dpr notes) as (ox & oy & En).
  rewrite En in I. clear En. unfold buildGraph. simpl snd.
  set (ns0 := createNodes random o r w h dpr notes) in *.
  apply in_map_iff in I. destruct I as (n & <- & In_n).
  change (node_connections n
          = linkDegree (node_id n)
              (tagPass (fst (linkPass (ns0, []))) (snd (linkPass (ns0, []))))).
  destruct (tagPass_origins (fst (linkPass (ns0, []))) (snd (linkPass (ns0, []))))
    as (extra & -> & T).
  rewrite linkDegree_tags;
    [|eapply Forall_impl; [|exact T]; intros e; apply tagEdgeAt_is_tag].
  apply In_nth_error in In_n. destruct In_n as (k & Hk).
  apply (@linkPass_counts ns0) with (k := k);
    [|apply createNodes_unconnected|exact Hk].
  pose proof (createNodes_carries random o r w h dpr notes) as C. fold ns0 in C.
  replace (map node_id ns0) with (map note_id notes); [exact U|].
  clear -C. induction C as [|A a l l' Ca F IH]; simpl; [reflexivity|].
  now rewrite IH, (proj1 Ca).
Qed.

(** X4.  When the notes have pairwise different identifiers, the connection
    count of every node of a generated graph is the number of link edges at
    the node; tag edges do not count. *)
Theorem generateGraph_connections (Math_random : nat -> num) (g : @GraphRenderer num) :
  NoDup (map note_id (noteManager g)) ->
  let g' := generateGraph Math_random g in
  forall node, In node (nodes g') ->
               node_connections node = linkDegree (node_id node) (edges g').
Proof.
  intros U g' node I. subst g'.
  rewrite generateGraph_nodes_built in I. rewrite generateGraph_edges.
  destruct (noteManager g) as [|note notes] eqn:E; [destruct I|].
  now apply buildGraph_connections.
Qed.

End Connections.

Lemma generateGraph_connections_witness :
  let g' := generateGraph (N := binary64) sampleRandom
              (blankRenderer linkedNotes (freshHost 800 600)) in
  Forall (fun node => node_connections node = linkDegree (node_id node) (edges g'))
         (nodes g').
Proof.
  apply Forall_forall.
  apply (@generateGraph_connections _ binary64 latin1 sampleRandom
           (blankRenderer linkedNotes (freshHost 800 600))).
  simpl. repeat constructor; simpl; intuition discriminate.
Defined.

(** ** The radius of a generated node, over the reals *)

Section Radius.

Local Open Scope R_scope.

(** X5.  Over the reals, every node of a generated graph has the radius
    [8 + 2 * connections], which is at least the base radius 8. *)
Theorem generateGraph_radius (Math_random : nat -> R) (g : @GraphRenderer R) :
  Forall (fun node => node_radius node = 8 + 2 * INR (node_connections node)
                      /\ 8 <= node_radius node)
         (nodes (generateGraph Math_random g)).
Proof.
  apply Forall_forall. intros node I. rewrite generateGraph_nodes_built in I.
  destruct (noteManager g) as [|note notes] eqn:E; [destruct I|].
  destruct (buildGraph_nodes Math_random (nextObject (host g)) (randomCalls (host g))
              (canvas_width (canvas g)) (canvas_height (canvas g))
              (devicePixelRatio (host g)) (note :: notes)) as (ox & oy & En).
  rewrite En in I. clear En.
  apply in_map_iff in I. destruct I as (n & <- & _). simpl.
  js_real. rewrite <- INR_IZR_INZ.
  pose proof (pos_INR (node_connections n)) as P.
  rewrite Rmax_right by lra. lra.
Qed.

End Radius.

(** ** The bounding box, over the reals *)

Section BoundingBox.

Local Open Scope R_scope.

Lemma bounds_fold (l : list (@Node R)) (b0 : @Bounds R) :
  let step := fun (bounds : @Bounds R) (node : @Node R) =>
                {| minX := Math_min (minX bounds) (node_x node);
                   maxX := Math_max (maxX bounds) (node_x node);
                   minY := Math_min (minY bounds) (node_y node);
                   maxY := Math_max (maxY bounds) (node_y node) |} in
  let b := fold_left step l b0 in
  (minX b <= minX b0 /\ maxX b0 <= maxX b /\ minY b <= minY b0 /\ maxY b0 <= maxY b)
  /\ (forall node, In node l ->
        minX b <= node_x node <= maxX b /\ minY b <= node_y node <= maxY b)
  /\ (minX b = minX b0 \/ exists node, In node l /\ minX b = node_x node)
  /\ (maxX b = maxX b0 \/ exists node, In node l /\ maxX b = node_x node)
  /\ (minY b = minY b0 \/ exists node, In node l /\ minY b = node_y node)
  /\ (maxY b = maxY b0 \/ exists node, In node l /\ maxY b = node_y node).
Proof.
  intros step. revert b0. induction l as [|a l IH]; intros b0; simpl.
  - repeat split; try lra; try tauto; auto.
  - specialize (IH (step b0 a)).
    set (r := fold_left step l (step b0 a)) in *.
    change (minX (step b0 a)) with (Rmin (minX b0) (node_x a)) in IH.
    change (maxX (step b0 a)) with (Rmax (maxX b0) (node_x a)) in IH.
    change (minY (step b0 a)) with (Rmin (minY b0) (node_y a)) in IH.
    change (maxY (step b0 a)) with (Rmax (maxY b0) (node_y a)) in IH.
    destruct IH as ((L1 & L2 & L3 & L4) & In_l & A1 & A2 & A3 & A4).
    pose proof (Rmin_l (minX b0) (node_x a)). pose proof (Rmin_r (minX b0) (node_x a)).
    pose proof (Rmax_l (maxX b0) (node_x a)). pose proof (Rmax_r (maxX b0) (node_x a)).
    pose proof (Rmin_l (minY b0) (node_y a)). pose proof (Rmin_r (minY b0) (node_y a)).
    pose proof (Rmax_l (maxY b0) (node_y a)). pose proof (Rmax_r (maxY b0) (node_y a)).
    split; [repeat split; lra|]. split.
    + intros node [<-|I]; [repeat split; lra|now apply In_l].
    + assert (Q : forall (v v0 : R) (f : @Node R -> R) (m : R),
                 (m = v0 \/ m = f a) ->
                 (v = m \/ exists node, In node l /\ v = f node) ->
                 v = v0 \/ exists node, (a = node \/ In node l) /\ v = f node).
      { intros v v0 f m [->| ->] [->|(node & I & ->)]; eauto. }
      split; [|split; [|split]].
      * apply (Q _ _ node_x (Rmin (minX b0) (node_x a))); auto.
        unfold Rmin. destruct (Rle_dec _ _); auto.
      * apply (Q _ _ node_x (Rmax (maxX b0) (node_x a))); auto.
        unfold Rmax. destruct (Rle_dec _ _); auto.
      * apply (Q _ _ node_y (Rmin (minY b0) (node_y a))); auto.
        unfold Rmin. destruct (Rle_dec _ _); auto.
      * apply (Q _ _ node_y (Rmax (maxY b0) (node_y a))); auto.
        unfold Rmax. destruct (Rle_dec _ _); auto.
Qed.

Lemma getGraphBounds_inside (ns : list (@Node R)) (node : @Node R) :
  In node ns ->
  let b := getGraphBounds ns in
  minX b <= node_x node <= maxX b /\ minY b <= node_y node <= maxY b.
Proof.
  destruct ns as [|first rest]; [intros []|]. intros I.
  unfold getGraphBounds.
  destruct (bounds_fold (first :: rest)
              {| minX := node_x first; maxX := node_x first;
                 minY := node_y first; maxY := node_y first |})
    as (_ & In_l & _).
  now apply In_l.
Qed.

(** X6.  Over the reals, [getGraphBounds] returns the tight bounding box of the
    node centres: every node lies within the bounds, and each bound is the
    coordinate of some node. *)
Theorem getGraphBounds_tight (ns : list (@Node R)) :
  ns <> [] ->
  let b := getGraphBounds ns in
  (forall node, In node ns ->
     minX b <= node_x node <= maxX b /\ minY b <= node_y node <= maxY b)
  /\ (exists node, In node ns /\ minX b = node_x node)
  /\ (exists node, In node ns /\ maxX b = node_x node)
  /\ (exists node, In node ns /\ minY b = node_y node)
  /\ (exists node, In node ns /\ maxY b = node_y node).
Proof.
  destruct ns as [|first rest]; [congruence|]. intros _ b. subst b.
  unfold getGraphBounds.
  destruct (bounds_fold (first :: rest)
              {| minX := node_x first; maxX := node_x first;
                 minY := node_y first; maxY := node_y first |})
    as (_ & In_l & A1 & A2 & A3 & A4).
  split; [exact In_l|].
  simpl minX in *. simpl maxX in *. simpl minY in *. simpl maxY in *.
  assert (F : In first (first :: rest)) by now left.
  split; [|split; [|split]].
  - destruct A1 as [E|K]; [exists first; auto|exact K].
  - destruct A2 as [E|K]; [exists first; auto|exact K].
  - destruct A3 as [E|K]; [exists first; auto|exact K].
  - destruct A4 as [E|K]; [exists first; auto|exact K].
Qed.

End BoundingBox.

Lemma getGraphBounds_tight_witness :
  let b := getGraphBounds (@closePair R real) in
  (forall node, In node (@closePair R real) ->
     (minX b <= node_x node <= maxX b)%R /\ (minY b <= node_y node <= maxY b)%R)
  /\ (exists node, In node (@closePair R real) /\ minX b = node_x node)
  /\ (exists node, In node (@closePair R real) /\ maxX b = node_x node)
  /\ (exists node, In node (@closePair R real) /\ minY b = node_y node)
  /\ (exists node, In node (@closePair R real) /\ maxY b = node_y node).
Proof.
  apply (@getGraphBounds_tight (@closePair R real)). discriminate.
Defined.

(** * Further facts about the physics step *)

(** ** The repulsion of a pair *)

Section RepulsionOfAPair.

Context {num : Type} {N : JsNumber num}.
Local Open Scope js_scope.

Lemma repelPair_in_range (i j : nat) (l : list (@Node num)) (a b : @Node num) :
  nth_error l i = Some a -> nth_error l j = Some b -> node_id a <> node_id b ->
  (springDistance a b =? of_Z 0) = false ->
  (springDistance a b <? of_Z 200) = true ->
  repelPair i j l
  = let d := springDistance a b in
    let fx := (node_x b - node_x a) / d * (of_Z 100 / (d * d)) in
    let fy := (node_y b - node_y a) / d * (of_Z 100 / (d * d)) in
    updateAt j (fun n => with_velocity n (node_vx n + fx) (node_vy n + fy))
      (updateAt i (fun n => with_velocity n (node_vx n - fx) (node_vy n - fy)) l).
Proof.
  intros Ha Hb D Z L. unfold repelPair. rewrite Ha, Hb.
  apply ident_eqb_neq in D. rewrite D.
  unfold springDistance, config_physics_maxDistance, config_physics_repulsion in *.
  cbv zeta in *. rewrite Z, L. reflexivity.
Qed.

(** X9.  In every number model, the repulsion loop visits a pair of nodes
    in both orders and applies a force at each visit: for two nodes with
    different identifiers whose distance, taken either way, is not 0 and
    below 200, the first visit takes the force [100 / d^2] along the line
    from [a] to [b] off the velocity of [a] and adds it to that of [b], and
    the second visit does the same from [b] to [a], so that each node is
    pushed away from the other twice in one step. *)
Theorem repulsion_counts_twice (a b : @Node num) :
  node_id a <> node_id b ->
  let d := springDistance a b in
  let d' := springDistance b a in
  (d =? of_Z 0) = false -> (d <? of_Z 200) = true ->
  (d' =? of_Z 0) = false -> (d' <? of_Z 200) = true ->
  let fx := (node_x b - node_x a) / d * (of_Z 100 / (d * d)) in
  let fy := (node_y b - node_y a) / d * (of_Z 100 / (d * d)) in
  let gx := (node_x a - node_x b) / d' * (of_Z 100 / (d' * d')) in
  let gy := (node_y a - node_y b) / d' * (of_Z 100 / (d' * d')) in
  repulsionPass [a; b]
  = [ with_velocity a (node_vx a - fx + gx) (node_vy a - fy + gy);
      with_velocity b (node_vx b + fx - gx) (node_vy b + fy - gy) ].
Proof.
  intros D d d' Z L Z' L' fx fy gx gy.
  assert (S1 : repelPair 0 0 [a; b] = [a; b]).
  { unfold repelPair. simpl. now rewrite ident_eqb_refl. }
  assert (S2 : repelPair 0 1 [a; b]
               = [ with_velocity a (node_vx a - fx) (node_vy a - fy);
                   with_velocity b (node_vx b + fx) (node_vy b + fy) ]).
  { rewrite (@repelPair_in_range 0 1 [a; b] a b eq_refl eq_refl D Z L).
    reflexivity. }
  set (a1 := with_velocity a (node_vx a - fx) (node_vy a - fy)) in *.
  set (b1 := with_velocity b (node_vx b + fx) (node_vy b + fy)) in *.
  assert (D1 : node_id b1 <> node_id a1) by (simpl; congruence).
  assert (S3 : repelPair 1 0 [a1; b1]
               = [ with_velocity a (node_vx a - fx + gx) (node_vy a - fy + gy);
                   with_velocity b (node_vx b + fx - gx) (node_vy b + fy - gy) ]).
  { rewrite (@repelPair_in_range 1 0 [a1; b1] b1 a1 eq_refl eq_refl D1 Z' L').
    reflexivity. }
  assert (S4 : forall n1 n2 : @Node num, repelPair 1 1 [n1; n2] = [n1; n2]).
  { intros n1 n2. unfold repelPair. simpl. now rewrite ident_eqb_refl. }
  change (repulsionPass [a; b])
    with (repelPair 1 1 (repelPair 1 0 (repelPair 0 1 (repelPair 0 0 [a; b])))).
  rewrite S1, S2, S3. apply S4.
Qed.

End RepulsionOfAPair.

Lemma repulsion_counts_twice_witness :
  let a := @plainNode _ binary64 0 noteAlpha 100 100 in
  let b := @plainNode _ binary64 1 noteBeta 103 104 in
  let d := springDistance a b in
  let d' := springDistance b a in
  let fx := ((node_x b - node_x a) / d * (of_Z 100 / (d * d)))%js in
  let fy := ((node_y b - node_y a) / d * (of_Z 100 / (d * d)))%js in
  let gx := ((node_x a - node_x b) / d' * (of_Z 100 / (d' * d')))%js in
  let gy := ((node_y a - node_y b) / d' * (of_Z 100 / (d' * d')))%js in
  repulsionPass [a; b]
  = [ with_velocity a (node_vx a - fx + gx)%js (node_vy a - fy + gy)%js;
      with_velocity b (node_vx b + fx - gx)%js (node_vy b + fy - gy)%js ].
Proof.
  apply (@repulsion_counts_twice _ binary64
           (@plainNode _ binary64 0 noteAlpha 100 100)
           (@plainNode _ binary64 1 noteBeta 103 104)).
  - simpl. discriminate.
  - vm_compute. reflexivity.
  - vm_compute. reflexivity.
  - vm_compute. reflexivity.
  - vm_compute. reflexivity.
Defined.

(** ** Equilibrium *)

Section Equilibrium.

Local Open Scope R_scope.

Lemma updateAt_fixed {A} (i : nat) (f : A -> A) (l : list A) (a : A) :
  nth_error l i = Some a -> f a = a -> updateAt i f l = l.
Proof.
  revert i. induction l as [|b l IH]; intros [|i]; simpl; try discriminate.
  - intros [= ->] ->. reflexivity.
  - intros H E. now rewrite (IH i H E).
Qed.

Lemma with_velocity_same (n : @Node R) (vx vy : R) :
  vx = node_vx n -> vy = node_vy n -> with_velocity n vx vy = n.
Proof. intros -> ->. destruct n. reflexivity. Qed.

Lemma repelPair_out_of_range (i j : nat) (ns : list (@Node R)) :
  outOfRange ns -> repelPair i j ns = ns.
Proof.
  intros O. unfold repelPair.
  destruct (nth_error ns i) as [a|] eqn:Ha; [|reflexivity].
  destruct (nth_error ns j) as [b|] eqn:Hb; [|reflexivity].
  destruct (ident_eqb (node_id a) (node_id b)) eqn:Eid; [reflexivity|].
  apply ident_eqb_neq in Eid.
  specialize (O a b (nth_error_In _ _ Ha) (nth_error_In _ _ Hb) Eid).
  unfold springDistance in O. js_real. unfold Reqb, Rltb.
  destruct (Req_dec_T _ 0) as [E|E]; [reflexivity|].
  destruct (Rlt_dec _ 200) as [L|L]; [|reflexivity].
  destruct O; [contradiction|lra].
Qed.

Lemma applySpring_relaxed (ns : list (@Node R)) (es : list (@Edge R)) (edge : @Edge R) :
  relaxed ns es -> In edge es -> applySpring ns edge = ns.
Proof.
  intros K I. unfold applySpring.
  destruct (findIndex (hasId (edge_source edge)) ns) as [[i s]|] eqn:Hs; [|reflexivity].
  destruct (findIndex (hasId (edge_target edge)) ns) as [[j t]|] eqn:Ht; [|reflexivity].
  specialize (K edge i s j t I Hs Ht).
  apply findIndex_nth in Hs. apply findIndex_nth in Ht.
  destruct Hs as [Hs _], Ht as [Ht _].
  destruct (neqb (springDistance s t) (of_Z 0)) eqn:Ed; [reflexivity|].
  destruct K as [E|E].
  { rewrite E in Ed. js_real. unfold Reqb in Ed.
    destruct (Req_dec_T 0 0); [discriminate|congruence]. }
  assert (Fx : springFx edge s t = 0)
    by (unfold springFx, springForce; rewrite E; js_real; lra).
  assert (Fy : springFy edge s t = 0)
    by (unfold springFy, springForce; rewrite E; js_real; lra).
  rewrite Fx, Fy.
  rewrite (@updateAt_fixed _ i _ ns s Hs).
  - apply (@updateAt_fixed _ j _ ns t Ht).
    apply with_velocity_same; js_real; lra.
  - apply with_velocity_same; js_real; lra.
Qed.

Lemma moveNode_at_rest (canvasWidth canvasHeight : R) (n : @Node R) :
  node_vx n = 0 -> node_vy n = 0 ->
  node_radius n + 10 <= node_x n <= canvasWidth - (node_radius n + 10) ->
  node_radius n + 10 <= node_y n <= canvasHeight - (node_radius n + 10) ->
  moveNode canvasWidth canvasHeight n = n.
Proof.
  intros Vx Vy Bx By. unfold moveNode.
  destruct (clampAxis_real (node_radius n + 10) canvasWidth
              (node_x n + node_vx n * (95 / 100)) (node_vx n * (95 / 100)))
    as (_ & Kx & _).
  destruct (clampAxis_real (node_radius n + 10) canvasHeight
              (node_y n + node_vy n * (95 / 100)) (node_vy n * (95 / 100)))
    as (_ & Ky & _).
  js_real. rewrite Kx, Ky by (rewrite ?Vx, ?Vy; lra). simpl.
  destruct n. simpl in *. subst. unfold with_velocity, with_position. simpl.
  f_equal; lra.
Qed.

(** X10.  Over the reals, a node array in equilibrium is a fixed point of the
    physics step: no node moves and no velocity changes.  Two nodes joined
    by a link edge and 200 apart are a case, since the repulsion reaches
    only below 200 and the spring rests at 200. *)
Theorem physicsStep_equilibrium (w h dpr : R) (drag : option (@Node R))
    (ns : list (@Node R)) (es : list (@Edge R)) :
  atRest ns -> clearOfMargins (w / dpr) (h / dpr) ns -> outOfRange ns -> relaxed ns es ->
  physicsStep w h dpr drag ns es = ns.
Proof.
  intros Rest Clear Out Rel. unfold physicsStep.
  assert (Er : repulsionPass ns = ns).
  { unfold repulsionPass. generalize (seq 0 (List.length ns)). intros indices.
    apply (fold_left_invariant
             (fun l i => fold_left (fun l j => repelPair i j l) indices l)
             (fun l => l = ns)); auto.
    intros l i _ ->.
    apply (fold_left_invariant (fun l j => repelPair i j l) (fun l => l = ns)); auto.
    intros l j _ ->. now apply repelPair_out_of_range. }
  assert (Es : springPass ns es = ns).
  { unfold springPass.
    apply (fold_left_invariant applySpring (fun l => l = ns)); auto.
    intros l edge I ->. now apply (@applySpring_relaxed ns es edge Rel). }
  rewrite Er, Es. unfold integratePass. js_real.
  rewrite <- (map_id ns) at 2. apply map_ext_in. intros n I.
  destruct (isObject drag n); [reflexivity|].
  destruct (Rest n I) as [Vx Vy]. destruct (Clear n I) as [Bx By].
  now apply moveNode_at_rest.
Qed.

End Equilibrium.

Lemma physicsStep_equilibrium_witness :
  physicsStep 800%R 600%R 1%R None restPair [sampleEdge] = restPair.
Proof.
  assert (S1 : springDistance (@plainNode R real 0 noteAlpha 100 100)
                              (plainNode 1 noteBeta 100 300) = 200%R).
  { rewrite springDistance_real. simpl. js_real.
    replace ((100 - 100) * (100 - 100) + (300 - 100) * (300 - 100))%R
      with (200 * 200)%R by lra.
    apply sqrt_square. lra. }
  assert (S2 : springDistance (@plainNode R real 1 noteBeta 100 300)
                              (plainNode 0 noteAlpha 100 100) = 200%R).
  { rewrite springDistance_real. simpl. js_real.
    replace ((100 - 100) * (100 - 100) + (100 - 300) * (100 - 300))%R
      with (200 * 200)%R by lra.
    apply sqrt_square. lra. }
  apply physicsStep_equilibrium.
  - intros n [<-|[<-|[]]]; split; reflexivity.
  - intros n [<-|[<-|[]]]; simpl; js_real; lra.
  - intros a b [<-|[<-|[]]] [<-|[<-|[]]] Ne; try (now contradiction Ne); right.
    + rewrite S1. lra.
    + rewrite S2. lra.
  - intros edge i s j t [<-|[]] Hs Ht. right.
    injection Hs as <- <-. injection Ht as <- <-.
    rewrite S1. reflexivity.
Defined.

(** * Further facts about the pointer and wheel handlers *)

Section Selection.

Context {num : Type} {N : JsNumber num}.

(** X11.  A click selects the node under the pointer, or clears the selection
    when that node is the selected one or when there is none; the nodes and
    the camera are not touched.  So a second click at the same place undoes
    the first: after two clicks on a node, the node is selected exactly
    when it was selected before. *)
Theorem onClick_toggles (g : @GraphRenderer num) (e : @MouseEvent num) :
  let pos := getMousePos g e in
  let g1 := onClick g e in
  let g2 := onClick g1 e in
  nodes g2 = nodes g /\ camera g2 = camera g
  /\ match getNodeAt g (fst pos) (snd pos) with
     | Some n =>
         if sameReference (selectedNode (pointer g)) (Some n)
         then selectedNode (pointer g1) = None /\ selectedNode (pointer g2) = Some n
         else selectedNode (pointer g1) = Some n /\ selectedNode (pointer g2) = None
     | None => selectedNode (pointer g1) = None /\ selectedNode (pointer g2) = None
     end.
Proof.
  intros pos g1 g2. split; [reflexivity|]. split; [reflexivity|].
  subst pos g1 g2. unfold onClick, getNodeAt, getMousePos. simpl.
  destruct (find _ (nodes g)) as [n|]; [|auto].
  destruct (sameReference (selectedNode (pointer g)) (Some n)); simpl; [auto|].
  now rewrite Nat.eqb_refl.
Qed.

End Selection.

Section Panning.

Context {num : Type} {N : JsNumber num}.
Local Open Scope js_scope.

(** X12.  In every number model, a pan moves the camera and nothing else:
    after a press on empty space and any sequence of moves, each
    coordinate of the camera is the one at the press with, move after move,
    the difference between the position of the pointer and its position
    before added to it; the zoom, the nodes, the selection and the hovered
    node are as before, and the renderer remembers the last position of the
    pointer. *)
Theorem pan_follows_pointer (g : @GraphRenderer num) (press : @MouseEvent num)
    (moves : list (@MouseEvent num)) :
  isDragging (pointer g) = false ->
  getNodeAt g (fst (getMousePos g press)) (snd (getMousePos g press)) = None ->
  let g' := fold_left onMouseMove moves (onMouseDown g press) in
  let start := getMousePos g press in
  camera_x (camera g')
  = panned (camera_x (camera g)) (fst start) (map (fun e => fst (getMousePos g e)) moves)
  /\ camera_y (camera g')
     = panned (camera_y (camera g)) (snd start) (map (fun e => snd (getMousePos g e)) moves)
  /\ camera_zoom (camera g') = camera_zoom (camera g)
  /\ nodes g' = nodes g
  /\ selectedNode (pointer g') = selectedNode (pointer g)
  /\ hoveredNode (pointer g') = hoveredNode (pointer g)
  /\ lastPanPos (pointer g') = Some (getMousePos g (last moves press)).
Proof.
  intros Idle Miss.
  assert (K : forall (moves : list (@MouseEvent num)) (g1 : @GraphRenderer num)
                     (previous : @MouseEvent num),
             isDragging (pointer g1) = false -> isPanning (pointer g1) = true ->
             lastPanPos (pointer g1) = Some (getMousePos g previous) ->
             host g1 = host g ->
             let g' := fold_left onMouseMove moves g1 in
             camera_x (camera g')
             = panned (camera_x (camera g1)) (fst (getMousePos g previous))
                 (map (fun e => fst (getMousePos g e)) moves)
             /\ camera_y (camera g')
                = panned (camera_y (camera g1)) (snd (getMousePos g previous))
                    (map (fun e => snd (getMousePos g e)) moves)
             /\ camera_zoom (camera g') = camera_zoom (camera g1)
             /\ nodes g' = nodes g1
             /\ selectedNode (pointer g') = selectedNode (pointer g1)
             /\ hoveredNode (pointer g') = hoveredNode (pointer g1)
             /\ lastPanPos (pointer g') = Some (getMousePos g (last moves previous))).
  { clear. intros moves. induction moves as [|e moves IH]; intros g1 previous D P L H.
    - simpl. auto 10.
    - simpl fold_left.
      assert (P1 : getMousePos g1 e = getMousePos g e)
        by (unfold getMousePos; now rewrite H).
      assert (E : onMouseMove g1 e
                  = set_pointer
                      (set_camera g1
                         {| camera_x := camera_x (camera g1)
                                        + (fst (getMousePos g e) - fst (getMousePos g previous));
                            camera_y := camera_y (camera g1)
                                        + (snd (getMousePos g e) - snd (getMousePos g previous));
                            camera_zoom := camera_zoom (camera g1) |})
                      {| selectedNode := selectedNode (pointer g1);
                         hoveredNode := hoveredNode (pointer g1);
                         isDragging := isDragging (pointer g1);
                         dragNode := dragNode (pointer g1);
                         isPanning := isPanning (pointer g1);
                         lastPanPos := Some (getMousePos g e) |}).
      { unfold onMouseMove. rewrite D, P, L. cbv zeta. rewrite P1. reflexivity. }
      rewrite E.
      match goal with |- context [fold_left onMouseMove moves ?s] => set (g2 := s) end.
      assert (L2 : lastPanPos (pointer g2) = Some (getMousePos g e)) by reflexivity.
      destruct (IH g2 e D P L2 H) as (Ex & Ey & Ez & En & Es & Eh & El).
      assert (F : last (e :: moves) previous = last moves e).
      { clear. destruct moves as [|m moves]; [reflexivity|].
        change (last (e :: m :: moves) previous) with (last (m :: moves) previous).
        revert m. induction moves as [|m' moves IH]; intros m; [reflexivity|].
        change (last (m :: m' :: moves) previous) with (last (m' :: moves) previous).
        change (last (m :: m' :: moves) e) with (last (m' :: moves) e).
        apply IH. }
      rewrite F. cbv zeta in *. rewrite Ex, Ey, Ez, En, Es, Eh, El.
      repeat split; reflexivity. }
  intros g' start. subst g' start.
  assert (E : onMouseDown g press
              = set_cursor
                  (set_pointer g
                     {| selectedNode := selectedNode (pointer g);
                        hoveredNode := hoveredNode (pointer g);
                        isDragging := isDragging (pointer g);
                        dragNode := dragNode (pointer g);
                        isPanning := true; lastPanPos := Some (getMousePos g press) |})
                  "move").
  { unfold onMouseDown. now rewrite Miss. }
  rewrite E.
  match goal with |- context [fold_left onMouseMove moves ?s] => set (g1 := s) end.
  apply (K moves g1 press); auto.
Qed.

End Panning.

Section PickingACentre.

Local Open Scope R_scope.

(** X14.  Over the reals, every node can be picked at the place its centre is
    drawn: the hit test there returns a node whose disc covers that
    centre. *)
Theorem getNodeAt_centre (g : @GraphRenderer R) (n : @Node R) :
  camera_zoom (camera g) <> 0 -> In n (nodes g) -> 0 <= node_radius n ->
  exists m,
    getNodeAt g (camera_x (camera g) + camera_zoom (camera g) * node_x n)
                (camera_y (camera g) + camera_zoom (camera g) * node_y n) = Some m
    /\ In m (nodes g) /\ hits (node_x n) (node_y n) m = true.
Proof.
  intros Z I Rn. unfold getNodeAt. js_real.
  replace ((camera_x (camera g) + camera_zoom (camera g) * node_x n - camera_x (camera g))
           / camera_zoom (camera g)) with (node_x n) by (field; auto).
  replace ((camera_y (camera g) + camera_zoom (camera g) * node_y n - camera_y (camera g))
           / camera_zoom (camera g)) with (node_y n) by (field; auto).
  assert (H : hits (node_x n) (node_y n) n = true).
  { unfold hits. js_real. unfold Rleb.
    replace ((node_x n - node_x n) * (node_x n - node_x n)
             + (node_y n - node_y n) * (node_y n - node_y n)) with 0 by ring.
    rewrite sqrt_0. destruct (Rle_dec 0 (node_radius n)); [reflexivity|contradiction]. }
  destruct (find (hits (node_x n) (node_y n)) (nodes g)) as [m|] eqn:F.
  - exists m. apply find_some in F. tauto.
  - exfalso. pose proof (find_none _ _ F n I) as K.
    pose proof (eq_trans (eq_sym H) K) as Abs. discriminate Abs.
Qed.

End PickingACentre.

Lemma pan_follows_pointer_witness :
  let g := @blankRenderer _ binary64 [] (freshHost 800 600) in
  let press := @pointerAt _ binary64 10 10 in
  let moves := [@pointerAt _ binary64 30 40; @pointerAt _ binary64 50 20] in
  let g' := fold_left onMouseMove moves (onMouseDown g press) in
  let start := getMousePos g press in
  camera_x (camera g')
  = panned (camera_x (camera g)) (fst start) (map (fun e => fst (getMousePos g e)) moves)
  /\ camera_y (camera g')
     = panned (camera_y (camera g)) (snd start) (map (fun e => snd (getMousePos g e)) moves)
  /\ camera_zoom (camera g') = camera_zoom (camera g)
  /\ nodes g' = nodes g
  /\ selectedNode (pointer g') = selectedNode (pointer g)
  /\ hoveredNode (pointer g') = hoveredNode (pointer g)
  /\ lastPanPos (pointer g') = Some (getMousePos g (last moves press)).
Proof.
  apply (@pan_follows_pointer _ binary64 (@blankRenderer _ binary64 [] (freshHost 800 600))
           (@pointerAt _ binary64 10 10)
           [@pointerAt _ binary64 30 40; @pointerAt _ binary64 50 20]).
  - reflexivity.
  - reflexivity.
Defined.

Lemma getNodeAt_centre_witness :
  let g := @selectedState R real in
  let n := @plainNode R real 0 noteAlpha 100 100 in
  exists m,
    getNodeAt g (camera_x (camera g) + camera_zoom (camera g) * node_x n)%R
                (camera_y (camera g) + camera_zoom (camera g) * node_y n)%R = Some m
    /\ In m (nodes g) /\ hits (node_x n) (node_y n) m = true.
Proof.
  apply (@getNodeAt_centre (@selectedState R real) (@plainNode R real 0 noteAlpha 100 100)).
  - simpl. js_real. lra.
  - simpl. now left.
  - simpl. js_real. lra.
Defined.

(** * Zoom to fit, over the reals *)

Section ZoomToFit.

Local Open Scope R_scope.

(** X15.  Over the reals, on a canvas of positive size, [zoomToFit] chooses
    a zoom in (0, 1] and a camera that puts the centre of every node on the
    canvas.  The zoom is below 0.1, the lower bound the wheel keeps, when
    the bounding box of the node centres is more than ten times as wide as
    the canvas. *)
Theorem zoomToFit_fits (g : @GraphRenderer R) :
  nodes g <> [] -> 0 < cssWidth g -> 0 < cssHeight g ->
  let g' := zoomToFit g in
  let z := camera_zoom (camera g') in
  let b := getGraphBounds (nodes g) in
  0 < z <= 1
  /\ (forall n, In n (nodes g) ->
        0 <= camera_x (camera g') + z * node_x n <= cssWidth g
        /\ 0 <= camera_y (camera g') + z * node_y n <= cssHeight g)
  /\ (10 * cssWidth g < maxX b - minX b -> z < 1 / 10).
Proof.
  intros NE W H.
  assert (Inside : forall node, In node (nodes g) ->
            minX (getGraphBounds (nodes g)) <= node_x node <= maxX (getGraphBounds (nodes g))
            /\ minY (getGraphBounds (nodes g)) <= node_y node
               <= maxY (getGraphBounds (nodes g)))
    by (intros node I; now apply getGraphBounds_inside).
  unfold zoomToFit. destruct (nodes g) as [|first rest] eqn:En; [congruence|].
  assert (I1 : In first (nodes g)) by (rewrite En; now left).
  rewrite <- En in *. cbv zeta. set (n1 := first) in *. unfold set_camera. cbn [camera camera_zoom camera_x camera_y].
  set (b := getGraphBounds (nodes g)) in *.
  set (cw := cssWidth g) in *. set (ch := cssHeight g) in *.
  js_real.
  set (gw := maxX b - minX b + 50 * 2). set (gh := maxY b - minY b + 50 * 2).
  set (z := Rmin (Rmin (cw / gw) (ch / gh)) 1).
  destruct (Inside n1 I1) as [Bx1 By1].
  assert (Gw : 0 < gw) by (unfold gw; lra).
  assert (Gh : 0 < gh) by (unfold gh; lra).
  assert (Sx : 0 < cw / gw) by (apply Rdiv_lt_0_compat; assumption).
  assert (Sy : 0 < ch / gh) by (apply Rdiv_lt_0_compat; assumption).
  assert (Z0 : 0 < z).
  { unfold z. apply Rmin_glb_lt; [apply Rmin_glb_lt; assumption|lra]. }
  assert (Z1 : z <= 1) by (unfold z; apply Rmin_r).
  assert (Zx : z * gw <= cw).
  { replace cw with (cw / gw * gw) by (field; lra).
    apply Rmult_le_compat_r; [lra|].
    unfold z. eapply Rle_trans; [apply Rmin_l|apply Rmin_l]. }
  assert (Zy : z * gh <= ch).
  { replace ch with (ch / gh * gh) by (field; lra).
    apply Rmult_le_compat_r; [lra|].
    unfold z. eapply Rle_trans; [apply Rmin_l|apply Rmin_r]. }
  split; [lra|]. split.
  - intros n I. destruct (Inside n I) as [[Lx Ux] [Ly Uy]].
    pose proof (Rmult_le_compat_l z _ _ (Rlt_le _ _ Z0) Lx).
    pose proof (Rmult_le_compat_l z _ _ (Rlt_le _ _ Z0) Ux).
    pose proof (Rmult_le_compat_l z _ _ (Rlt_le _ _ Z0) Ly).
    pose proof (Rmult_le_compat_l z _ _ (Rlt_le _ _ Z0) Uy).
    unfold gw in Zx. unfold gh in Zy. split; split; lra.
  - intros Wide. apply (Rmult_lt_reg_r gw); [exact Gw|]. unfold gw in *. lra.
Qed.

End ZoomToFit.

Lemma zoomToFit_fits_witness :
  let g := @selectedState R real in
  let g' := zoomToFit g in
  let z := camera_zoom (camera g') in
  let b := getGraphBounds (nodes g) in
  (0 < z <= 1)%R
  /\ (forall n, In n (nodes g) ->
        (0 <= camera_x (camera g') + z * node_x n <= cssWidth g)%R
        /\ (0 <= camera_y (camera g') + z * node_y n <= cssHeight g)%R)
  /\ (10 * cssWidth g < maxX b - minX b -> z < 1 / 10)%R.
Proof.
  apply (@zoomToFit_fits (@selectedState R real)).
  - simpl. discriminate.
  - unfold cssWidth. simpl. js_real. lra.
  - unfold cssHeight. simpl. js_real. lra.
Defined.

(** * Further facts about the text helpers of the renderer *)

Section TextFacts.

Context {num : Type} {N : JsNumber num}.
Variable measureText : string -> string -> num.

Local Open Scope string_scope.

Lemma append_empty_r (s : string) : s ++ EmptyString = s.
Proof. induction s as [|c s IH]; simpl; [reflexivity|now rewrite IH]. Qed.

Lemma append_assoc (a b c : string) : (a ++ b) ++ c = a ++ (b ++ c).
Proof. induction a as [|ch a IH]; simpl; [reflexivity|now rewrite IH]. Qed.

Lemma append_length (a b : string) :
  String.length (a ++ b) = String.length a + String.length b.
Proof. induction a as [|ch a IH]; simpl; [reflexivity|now rewrite IH]. Qed.

Lemma dropLast_length (s : string) :
  String.length (dropLast s) = pred (String.length s).
Proof.
  induction s as [|c s IH]; [reflexivity|].
  destruct s as [|c' s']; [reflexivity|].
  change (dropLast (String c (String c' s'))) with (String c (dropLast (String c' s'))).
  simpl String.length in *. now rewrite IH.
Qed.

Lemma dropLast_app (q rest : string) :
  rest <> EmptyString -> dropLast (q ++ rest) = q ++ dropLast rest.
Proof.
  intros NE. induction q as [|c q IH]; [reflexivity|].
  simpl append. destruct (q ++ rest) as [|c' s'] eqn:E.
  - destruct q; simpl in E; [congruence|discriminate].
  - change (dropLast (String c (String c' s'))) with (String c (dropLast (String c' s'))).
    now rewrite IH.
Qed.

Lemma dropLast_prefix (s : string) : exists rest, s = dropLast s ++ rest.
Proof.
  induction s as [|c s (rest & IH)]; [now exists EmptyString|].
  destruct s as [|c' s']; [now exists (String c EmptyString)|].
  change (dropLast (String c (String c' s'))) with (String c (dropLast (String c' s'))).
  exists rest.
  change (String c (dropLast (String c' s')) ++ rest)
    with (String c (dropLast (String c' s') ++ rest)).
  now rewrite <- IH.
Qed.

(** The loop of [truncateText] ends by its own test, on the longest prefix
    whose text with the ellipsis fits, or on the empty prefix. *)
Lemma truncateLoop_spec (c : @Context2D num) (maxWidth : num) (fuel : nat) (t : string) :
  String.length t < fuel ->
  let p := truncateLoop measureText fuel c t maxWidth in
  (exists rest, t = p ++ rest)
  /\ (gtb (textWidth measureText c (p ++ "...")) maxWidth = false \/ p = EmptyString)
  /\ forall q rest, t = q ++ rest -> String.length p < String.length q ->
                    gtb (textWidth measureText c (q ++ "...")) maxWidth = true.
Proof.
  revert t. induction fuel as [|fuel IH]; intros t L; [lia|].
  simpl truncateLoop.
  destruct (gtb (textWidth measureText c (t ++ "...")) maxWidth) eqn:W; simpl.
  - destruct (String.length t) as [|k] eqn:Len; simpl.
    + split; [exists EmptyString; now rewrite append_empty_r|].
      split; [right; destruct t; [reflexivity|discriminate]|].
      intros q rest -> Lq. rewrite append_length in Len. lia.
    + assert (L' : String.length (dropLast t) < fuel)
        by (rewrite dropLast_length, Len; simpl; lia).
      destruct (IH (dropLast t) L') as ((rest & P) & Fit & Max).
      split; [|split; [exact Fit|]].
      * destruct (dropLast_prefix t) as (rest' & E).
        exists (rest ++ rest'). rewrite <- append_assoc, <- P. exact E.
      * intros q rest' E Lq.
        destruct rest' as [|ch rest'].
        -- rewrite append_empty_r in E. now subst q.
        -- apply (Max q (dropLast (String ch rest'))); [|exact Lq].
           rewrite E. apply dropLast_app. discriminate.
  - split; [exists EmptyString; now rewrite append_empty_r|].
    split; [now left|].
    intros q rest -> Lq. rewrite append_length in Lq. lia.
Qed.

(** X16.  [truncateText] returns the text when it fits.  When it does not, it
    returns a prefix of the text followed by the ellipsis: the longest
    prefix that fits together with the ellipsis, or the ellipsis alone when
    none does. *)
Theorem truncateText_longest_prefix (c : @Context2D num) (text : string) (maxWidth : num) :
  let result := truncateText measureText c text maxWidth in
  if nleb (textWidth measureText c text) maxWidth then result = text
  else
    exists p rest,
      text = p ++ rest /\ result = p ++ "..."
      /\ (gtb (textWidth measureText c (p ++ "...")) maxWidth = false \/ p = EmptyString)
      /\ forall q rest', text = q ++ rest' -> String.length p < String.length q ->
                         gtb (textWidth measureText c (q ++ "...")) maxWidth = true.
Proof.
  intros result. subst result. unfold truncateText.
  destruct (nleb (textWidth measureText c text) maxWidth); [reflexivity|].
  destruct (@truncateLoop_spec c maxWidth (S (String.length text)) text (Nat.lt_succ_diag_r _))
    as ((rest & P) & Fit & Max).
  exists (truncateLoop measureText (S (String.length text)) c text maxWidth), rest.
  auto.
Qed.

(** ** Wrapping *)

Lemma call_ops (op : @CanvasOp num) (c : @Context2D num) :
  ctx_ops (call op c) = (ctx_ops c ++ [op])%list.
Proof. reflexivity. Qed.

Lemma combine_map_l {A B C} (f : A -> B) (l : list A) (l' : list C) :
  combine (map f l) l' = map (fun '(a, b) => (f a, b)) (combine l l').
Proof.
  revert l'. induction l as [|a l IH]; intros [|b l']; simpl; auto. now rewrite IH.
Qed.

(** The lines of [wrapLoop]: their texts, in order, make up the line being
    filled and the remaining words, each followed by a space. *)
Lemma wrapLoop_lines (words : list string) (first : bool) (x maxWidth lineHeight : num)
    (line : string) (currentY : num) (c : @Context2D num) :
  exists lines,
    lines <> []
    /\ ctx_ops (wrapLoop measureText words first x maxWidth lineHeight line currentY c)
       = (ctx_ops c
          ++ map (fun '(k, text) =>
                    OpFillText text x (Nat.iter k (fun v => nadd v lineHeight) currentY))
                 (combine (seq 0 (List.length lines)) lines))%list
    /\ String.concat EmptyString lines
       = line ++ String.concat EmptyString (map (fun word => word ++ " ") words).
Proof.
  revert first line currentY c.
  induction words as [|word rest IH]; intros first line currentY c.
  - exists [line]. split; [discriminate|]. split; [reflexivity|].
    simpl. now rewrite append_empty_r.
  - simpl wrapLoop.
    destruct (gtb (textWidth measureText c (line ++ word ++ " ")) maxWidth && negb first).
    + destruct (IH false (word ++ " ") (nadd currentY lineHeight)
                  (call (OpFillText line x currentY) c)) as (lines & NE & Ops & Cat).
      exists (line :: lines). split; [discriminate|]. split.
      * rewrite Ops, call_ops, <- app_assoc. f_equal. simpl. f_equal.
        rewrite <- seq_shift, combine_map_l. rewrite map_map.
        apply map_ext. intros [k text]. simpl. f_equal.
        clear. induction k as [|k IH]; simpl; [reflexivity|now rewrite IH].
      * destruct lines as [|l1 lines]; [congruence|].
        change (String.concat EmptyString (line :: l1 :: lines))
          with (line ++ EmptyString ++ String.concat EmptyString (l1 :: lines)).
        rewrite Cat. simpl. f_equal.
        destruct rest; simpl; rewrite ?append_empty_r, ?append_assoc; reflexivity.
    + destruct (IH false (line ++ word ++ " ") currentY c) as (lines & NE & Ops & Cat).
      exists lines. split; [exact NE|]. split; [exact Ops|].
      rewrite Cat. simpl. rewrite !append_assoc.
      destruct rest; simpl; rewrite ?append_empty_r, ?append_assoc; reflexivity.
Qed.

Lemma splitSpaces_concat (current s : string) :
  String.concat EmptyString (map (fun word => word ++ " ") (splitSpaces current s))
  = current ++ s ++ " ".
Proof.
  revert current. induction s as [|ch s IH]; intros current.
  - reflexivity.
  - simpl splitSpaces. destruct (Ascii.eqb ch " "%char) eqn:E.
    + apply Ascii.eqb_eq in E. subst ch.
      change (map (fun word => word ++ " ") (current :: splitSpaces EmptyString s))
        with ((current ++ " ") :: map (fun word => word ++ " ") (splitSpaces EmptyString s)).
      specialize (IH EmptyString).
      destruct (map (fun word => word ++ " ") (splitSpaces EmptyString s)) as [|l1 ls] eqn:M.
      * destruct s as [|a s']; simpl in M; [discriminate|].
        destruct (Ascii.eqb a " "%char); discriminate.
      * change (String.concat EmptyString ((current ++ " ") :: l1 :: ls))
          with ((current ++ " ") ++ EmptyString ++ String.concat EmptyString (l1 :: ls)).
        rewrite IH. simpl. now rewrite append_assoc.
    + rewrite IH, append_assoc. reflexivity.
Qed.

(** X17.  [wrapText] draws the text without losing or reordering a character:
    the lines it draws, one after the other, are the text followed by a
    space (every word is followed by a space, the last one too).  There is
    at least one line; the lines are drawn at [x], the first at [y] and
    each one [lineHeight] below the one before. *)
Theorem wrapText_keeps_text (text : string) (x y maxWidth lineHeight : num)
    (c : @Context2D num) :
  exists lines,
    lines <> []
    /\ ctx_ops (wrapText measureText text x y maxWidth lineHeight c)
       = (ctx_ops c
          ++ map (fun '(k, line) =>
                    OpFillText line x (Nat.iter k (fun v => nadd v lineHeight) y))
                 (combine (seq 0 (List.length lines)) lines))%list
    /\ String.concat EmptyString lines = text ++ " ".
Proof.
  unfold wrapText.
  destruct (wrapLoop_lines (splitSpaces EmptyString text) true x maxWidth lineHeight
              EmptyString y c) as (lines & NE & Ops & Cat).
  exists lines. split; [exact NE|]. split; [exact Ops|].
  rewrite Cat, splitSpaces_concat. reflexivity.
Qed.

End TextFacts.

(** * What a frame draws *)

Section Shapes.

Context {num : Type} {N : JsNumber num}.
Variable measureText : string -> string -> num.
Variable roundText : num -> string.

Lemma emits_call (op : @CanvasOp num) :
  emits (call op) (if isShape op then [op] else []).
Proof. intros c. exists [op]. split; [reflexivity|]. simpl. destruct (isShape op); auto. Qed.

Lemma emits_id : emits (fun c : @Context2D num => c) [].
Proof. intros c. exists []. now rewrite app_nil_r. Qed.

Lemma emits_seq (f g : @Context2D num -> @Context2D num) (s t : list (@CanvasOp num)) :
  emits f s -> emits g t -> emits (fun c => g (f c)) (s ++ t).
Proof.
  intros F G c. destruct (F c) as (ops & E & S). destruct (G (f c)) as (ops' & E' & S').
  exists (ops ++ ops'). rewrite E', E, app_assoc, filter_app, S, S'. auto.
Qed.

Lemma emits_run (stmts : list (@Context2D num -> @Context2D num))
    (shapes : list (list (@CanvasOp num))) :
  Forall2 emits stmts shapes -> emits (run stmts) (List.concat shapes).
Proof.
  intros F. unfold run.
  assert (K : forall f s, emits f s ->
                emits (fun c => fold_left (fun c stmt => stmt c) stmts (f c))
                      (s ++ List.concat shapes)).
  { induction F as [|stmt sh stmts shapes E F IH]; intros f s Ef; simpl.
    - rewrite app_nil_r. exact Ef.
    - rewrite app_assoc. apply (IH (fun c => stmt (f c))). now apply emits_seq. }
  exact (K (fun c => c) [] emits_id).
Qed.

Lemma emits_ext (f g : @Context2D num -> @Context2D num) (s : list (@CanvasOp num)) :
  (forall c, f c = g c) -> emits f s -> emits g s.
Proof. intros E F c. rewrite <- E. apply F. Qed.

Lemma emits_plain (stmts : list (@Context2D num -> @Context2D num)) :
  Forall (fun stmt => emits stmt []) stmts -> emits (run stmts) [].
Proof.
  intros F.
  replace (@nil (@CanvasOp num)) with (List.concat (map (fun _ => @nil (@CanvasOp num)) stmts)).
  - apply emits_run. induction F; simpl; constructor; auto.
  - clear F. induction stmts; simpl; auto.
Qed.

Lemma emits_wrapText (text : string) (x y maxWidth lineHeight : num) :
  emits (wrapText measureText text x y maxWidth lineHeight) [].
Proof.
  intros c.
  destruct (wrapLoop_lines measureText (splitSpaces EmptyString text) true x maxWidth
              lineHeight EmptyString y c) as (lines & _ & Ops & _).
  unfold wrapText.
  eexists. split; [exact Ops|].
  generalize (combine (seq 0 (List.length lines)) lines). intros l.
  induction l as [|[k line] l IH]; simpl; auto.
Qed.

Ltac plain_calls :=
  repeat first [ apply Forall_nil
               | apply Forall_cons; [exact (emits_call _)|] ].

Lemma emits_renderEdge (ns : list (@Node num)) (selected hovered : option (@Node num))
    (edge : @Edge num) :
  emits (renderEdge ns selected hovered edge) (edgeShape ns edge).
Proof.
  unfold renderEdge, edgeShape.
  destruct (find (hasId (edge_source edge)) ns) as [s|]; [|apply emits_id].
  destruct (find (hasId (edge_target edge)) ns) as [t|]; [|apply emits_id].
  apply (@emits_run _ [ []; []; []; []; [OpMoveTo (node_x s) (node_y s)];
                        [OpLineTo (node_x t) (node_y t)]; []; []; [] ]).
  repeat (apply Forall2_cons; [try exact (emits_call _)|]); [|apply Forall2_nil].
  destruct (is_tag edge); apply emits_plain; plain_calls.
Qed.

Lemma emits_renderEdges (ns : list (@Node num)) (es : list (@Edge num))
    (selected hovered : option (@Node num)) :
  emits (renderEdges ns es selected hovered) (flat_map (edgeShape ns) es).
Proof.
  unfold renderEdges. rewrite flat_map_concat_map. apply emits_run.
  induction es; simpl; constructor; auto using emits_renderEdge.
Qed.

Lemma emits_renderNode (selected hovered : option (@Node num)) (node : @Node num) :
  emits (renderNode measureText selected hovered node) [nodeShape selected hovered node].
Proof.
  intros c. unfold renderNode, nodeShape.
  destruct (isObject selected node); simpl; eexists;
    (split; [rewrite <- ?app_assoc; simpl; reflexivity|reflexivity]).
Qed.

Lemma emits_renderNodes (ns : list (@Node num)) (selected hovered : option (@Node num)) :
  emits (renderNodes measureText ns selected hovered) (map (nodeShape selected hovered) ns).
Proof.
  unfold renderNodes.
  replace (map (nodeShape selected hovered) ns)
    with (List.concat (map (fun node => [nodeShape selected hovered node]) ns))
    by (induction ns; simpl; congruence).
  apply emits_run. induction ns; simpl; constructor; auto using emits_renderNode.
Qed.

Lemma emits_renderNodeInfo (canvasWidth : num) (node : @Node num) :
  emits (renderNodeInfo measureText canvasWidth node) [].
Proof.
  intros c. unfold renderNodeInfo. cbv zeta.
  match goal with
  | |- context [run ?l c] =>
      destruct (@emits_plain l ltac:(plain_calls) c) as (o1 & E1 & S1);
      set (c1 := run l c) in *
  end.
  match goal with
  | |- context [run ?l c1] =>
      destruct (@emits_plain l ltac:(plain_calls) c1) as (o2 & E2 & S2);
      set (c2 := run l c1) in *
  end.
  match goal with
  | |- context [wrapText measureText ?t ?x ?y ?w ?h c2] =>
      destruct (emits_wrapText t x y w h c2) as (o3 & E3 & S3);
      set (c3 := wrapText measureText t x y w h c2) in *
  end.
  destruct (0 <? List.length (node_tags node))%nat.
  - match goal with
    | |- context [run ?l c3] =>
        destruct (@emits_plain l ltac:(plain_calls) c3) as (o4 & E4 & S4);
        set (c4 := run l c3) in *
    end.
    eexists. rewrite call_ops, E4, E3, E2, E1, <- !app_assoc.
    split; [reflexivity|]. rewrite !filter_app, S1, S2, S3, S4. reflexivity.
  - eexists. rewrite E3, E2, E1, <- !app_assoc.
    split; [reflexivity|]. rewrite !filter_app, S1, S2, S3. reflexivity.
Qed.

Lemma emits_renderUI (canvasWidth : num) (ns : list (@Node num)) (es : list (@Edge num))
    (zoom : num) (selected : option (@Node num)) :
  emits (renderUI measureText roundText canvasWidth ns es zoom selected) [].
Proof.
  intros c. unfold renderUI. cbv zeta.
  match goal with
  | |- context [run ?l c] =>
      destruct (@emits_plain l ltac:(plain_calls) c) as (o1 & E1 & S1);
      set (c1 := run l c) in *
  end.
  match goal with
  | |- context [run ?l c1] =>
      assert (F : Forall (fun stmt : @Context2D num -> @Context2D num => emits stmt []) l)
        by (apply Forall_map, Forall_forall; intros [index stat] _; exact (emits_call _));
      destruct (@emits_plain l F c1) as (o2 & E2 & S2);
      set (c2 := run l c1) in *
  end.
  destruct selected as [node|].
  - destruct (emits_renderNodeInfo canvasWidth node c2) as (o3 & E3 & S3).
    eexists. rewrite E3, E2, E1, <- !app_assoc.
    split; [reflexivity|]. rewrite !filter_app, S1, S2, S3. reflexivity.
  - eexists. rewrite E2, E1, <- !app_assoc.
    split; [reflexivity|]. rewrite !filter_app, S1, S2. reflexivity.
Qed.

(** X18.  One [render()] puts on the canvas, in this order: for every edge both
    of whose end points are in the node array, one line from the source to
    the target (an edge with a missing end point is skipped); then for
    every node, one disc at its position, with the radius 12 when it is
    selected, 10 when it is hovered and its own otherwise.  Edges are under
    the nodes, and nothing is drawn twice. *)
Theorem render_shapes (g : @GraphRenderer num) :
  filter isShape (frameOps measureText roundText g)
  = flat_map (edgeShape (nodes g)) (edges g)
    ++ map (nodeShape (selectedNode (pointer g)) (hoveredNode (pointer g))) (nodes g).
Proof.
  unfold frameOps, render.
  pose proof (@emits_run
                [ call (OpClearRect (of_Z 0) (of_Z 0) (cssWidth g) (cssHeight g));
                  call OpSave;
                  call (OpTranslate (camera_x (camera g)) (camera_y (camera g)));
                  call (OpScale (camera_zoom (camera g)) (camera_zoom (camera g)));
                  renderEdges (nodes g) (edges g)
                    (selectedNode (pointer g)) (hoveredNode (pointer g));
                  renderNodes measureText (nodes g)
                    (selectedNode (pointer g)) (hoveredNode (pointer g));
                  call OpRestore;
                  renderUI measureText roundText (cssWidth g) (nodes g) (edges g)
                    (camera_zoom (camera g)) (selectedNode (pointer g)) ]
                [ []; []; []; [];
                  flat_map (edgeShape (nodes g)) (edges g);
                  map (nodeShape (selectedNode (pointer g)) (hoveredNode (pointer g)))
                      (nodes g);
                  []; [] ]) as K.
  destruct (K ltac:(repeat (apply Forall2_cons; [try exact (emits_call _)|]);
                    [apply emits_renderEdges|apply emits_renderNodes
                    |apply emits_renderUI|apply Forall2_nil]) (ctx g))
    as (ops & E & S).
  cbv zeta. unfold set_ctx. cbn [ctx]. rewrite E, skipn_app, Nat.sub_diag, skipn_all. simpl.
  rewrite S. simpl. now rewrite !app_nil_r.
Qed.

End Shapes.

(** * The animation loop *)

Section Loop.

Context {num : Type} {N : JsNumber num}.
Variable measureText : string -> string -> num.
Variable roundText : num -> string.

Lemma render_host (g : @GraphRenderer num) :
  host (render measureText roundText g) = host g.
Proof. reflexivity. Qed.

Lemma animate_running (g : @GraphRenderer num) :
  animation_running (animation g) = true ->
  host (animate measureText roundText g)
  = with_frames (host g) (pendingFrames (host g) ++ [S (nextFrame (host g))])
      (S (nextFrame (host g)))
  /\ animation (animate measureText roundText g)
     = {| animation_frame := Some (S (nextFrame (host g))); animation_running := true |}.
Proof.
  intros Run. unfold animate. rewrite Run. simpl negb. cbv iota.
  split; [reflexivity|]. simpl. now rewrite Run.
Qed.

Lemma runFrame_running (g : @GraphRenderer num) (handle : nat) :
  animation_running (animation g) = true -> pendingFrames (host g) = [handle] ->
  let g' := runFrame measureText roundText g in
  animation_running (animation g') = true
  /\ pendingFrames (host g') = [S (nextFrame (host g))]
  /\ animation_frame (animation g') = Some (S (nextFrame (host g)))
  /\ nextFrame (host g') = S (nextFrame (host g)).
Proof.
  intros Run Pending. unfold runFrame, frameCallback. rewrite Pending.
  simpl existsb. rewrite Nat.eqb_refl. simpl orb. cbv iota.
  destruct (@animate_running (set_host g (cancelAnimationFrame handle (host g))) Run)
    as [Eh Ea].
  cbv zeta. rewrite Eh, Ea. simpl. rewrite Pending. simpl. rewrite Nat.eqb_refl.
  simpl. auto.
Qed.

(** X19.  Once started, the animation loop keeps itself going: after any number
    of frames the renderer is still running, with exactly one frame request
    pending, the one [animation.frame] holds.  The loop does not end by
    itself. *)
Theorem animation_keeps_running (g : @GraphRenderer num) (k : nat) :
  pendingFrames (host g) = [] ->
  let g' := Nat.iter k (runFrame measureText roundText)
              (startAnimation measureText roundText g) in
  animation_running (animation g') = true
  /\ pendingFrames (host g') = [S (nextFrame (host g) + k)]
  /\ animation_frame (animation g') = Some (S (nextFrame (host g) + k)).
Proof.
  intros Idle.
  assert (K : let g' := Nat.iter k (runFrame measureText roundText)
                          (startAnimation measureText roundText g) in
              animation_running (animation g') = true
              /\ pendingFrames (host g') = [S (nextFrame (host g) + k)]
              /\ animation_frame (animation g') = Some (S (nextFrame (host g) + k))
              /\ nextFrame (host g') = S (nextFrame (host g) + k)).
  { induction k as [|k IH].
    - simpl Nat.iter. unfold startAnimation.
      match goal with |- context [animate measureText roundText ?s] => set (g0 := s) end.
      destruct (@animate_running g0 eq_refl) as [Eh Ea].
      cbv zeta. rewrite Eh, Ea. simpl. rewrite Idle, Nat.add_0_r. auto.
    - simpl Nat.iter. cbv zeta in IH. destruct IH as (Run & Pending & _ & Next).
      destruct (runFrame_running _ Run Pending) as (R' & P' & F' & N').
      rewrite Next in P', F', N'. rewrite Nat.add_succ_r. auto. }
  cbv zeta in K. intros g'. subst g'. tauto.
Qed.

End Loop.

Lemma animation_keeps_running_witness :
  let g := @blankRenderer PrimFloat.float binary64 linkedNotes (freshHost 800 600) in
  let g' := Nat.iter 3 (runFrame sampleMeasure sampleRound)
              (startAnimation sampleMeasure sampleRound g) in
  animation_running (animation g') = true
  /\ pendingFrames (host g') = [S (nextFrame (host g) + 3)]
  /\ animation_frame (animation g') = Some (S (nextFrame (host g) + 3)).
Proof.
  apply (@animation_keeps_running _ binary64 sampleMeasure sampleRound
           (@blankRenderer PrimFloat.float binary64 linkedNotes (freshHost 800 600)) 3).
  reflexivity.
Defined.

(** ** The renderers the UI creates *)

Section RenderGraphCalls.

Context {num : Type} {N : JsNumber num}.
Variable measureText : string -> string -> num.
Variable roundText : num -> string.
Variable Math_random : nat -> num.

Lemma generateGraph_host (g : @GraphRenderer num) :
  listeners (host (generateGraph Math_random g)) = listeners (host g)
  /\ pendingFrames (host (generateGraph Math_random g)) = pendingFrames (host g)
  /\ nextFrame (host (generateGraph Math_random g)) = nextFrame (host g).
Proof. unfold generateGraph. destruct (noteManager g); auto. Qed.

Lemma bindEvents_host (g : @GraphRenderer num) :
  listeners (host (bindEvents g))
  = listeners (host g)
    ++ [ boundListener TheCanvas "mousedown" (nextObject (host g)) M_onMouseDown;
         boundListener TheCanvas "mousemove" (1 + nextObject (host g)) M_onMouseMove;
         boundListener TheCanvas "mouseup" (2 + nextObject (host g)) M_onMouseUp;
         boundListener TheCanvas "wheel" (3 + nextObject (host g)) M_onWheel;
         boundListener TheCanvas "click" (4 + nextObject (host g)) M_onClick;
         boundListener TheCanvas "dblclick" (5 + nextObject (host g)) M_onDoubleClick;
         boundListener TheWindow "resize" (6 + nextObject (host g)) M_resizeCanvas;
         boundListener TheCanvas "touchstart" (7 + nextObject (host g)) M_onTouchStart;
         boundListener TheCanvas "touchmove" (8 + nextObject (host g)) M_onTouchMove;
         boundListener TheCanvas "touchend" (9 + nextObject (host g)) M_onTouchEnd ]
  /\ pendingFrames (host (bindEvents g)) = pendingFrames (host g)
  /\ nextFrame (host (bindEvents g)) = nextFrame (host g).
Proof.
  unfold bindEvents. simpl. rewrite <- !app_assoc. simpl.
  split; [reflexivity|split; reflexivity].
Qed.

(** A call of [renderGraph()] leaves everything the browser held and adds
    one resize listener on the window and one pending frame request. *)
Lemma renderGraph_adds (notes : list Note) (h : @Host num) :
  let h' := renderGraph measureText roundText Math_random notes h in
  pendingFrames h' = pendingFrames h ++ [S (nextFrame h)]
  /\ windowListeners h'
     = windowListeners h
       ++ [boundListener TheWindow "resize" (6 + nextObject h) M_resizeCanvas]
  /\ exists extra, listeners h' = listeners h ++ extra.
Proof.
  unfold renderGraph, newGraphRenderer, init. cbv zeta.
  set (g0 := createCanvas (blankRenderer notes h)).
  assert (H0 : host g0 = h) by reflexivity.
  destruct (bindEvents_host g0) as (Bl & Bp & Bn).
  destruct (generateGraph_host (bindEvents g0)) as (Gl & Gp & Gn).
  set (g1 := generateGraph Math_random (bindEvents g0)) in *.
  unfold startAnimation.
  match goal with |- context [animate measureText roundText ?s] => set (g2 := s) end.
  destruct (animate_running measureText roundText g2 eq_refl) as [Eh _].
  rewrite render_host, Eh.
  change (host g2) with (host g1).
  cbn [pendingFrames with_frames]. rewrite Gp, Bp, Gn, Bn, H0. split; [reflexivity|].
  unfold windowListeners. cbn [listeners with_frames]. rewrite Gl, Bl, H0.
  split; [|eauto]. rewrite filter_app. reflexivity.
Qed.

(** X20.  Every call of [renderGraph()] creates a renderer that is never
    destroyed: after [k] calls, [k] more frame requests are pending and [k]
    more resize listeners are registered on the window, and nothing the
    browser held before has been removed. *)
Theorem renderGraph_accumulates (notes : list Note) (h : @Host num) (k : nat) :
  let h' := Nat.iter k (renderGraph measureText roundText Math_random notes) h in
  List.length (pendingFrames h') = List.length (pendingFrames h) + k
  /\ List.length (windowListeners h') = List.length (windowListeners h) + k
  /\ exists extra, listeners h' = listeners h ++ extra.
Proof.
  cbv zeta. induction k as [|k IH].
  - simpl. split; [lia|]. split; [lia|]. exists []. now rewrite app_nil_r.
  - destruct IH as (Ep & Ew & extra & El).
    change (Nat.iter (S k) (renderGraph measureText roundText Math_random notes) h)
      with (renderGraph measureText roundText Math_random notes
              (Nat.iter k (renderGraph measureText roundText Math_random notes) h)).
    destruct (renderGraph_adds notes
                (Nat.iter k (renderGraph measureText roundText Math_random notes) h))
      as (Ap & Aw & extra' & Al).
    rewrite Ap, Aw, Al, El, !length_app, Ep, Ew. simpl.
    split; [lia|]. split; [lia|]. exists (extra ++ extra'). now rewrite app_assoc.
Qed.

End RenderGraphCalls.


(** * Facts about the utilities *)

Section ChunkFacts.

Context {A : Type}.

Lemma chunkLoop_spec (array : list A) (size : nat) (fuel i : nat) (chunks : list (list A)) :
  0 < size -> List.length array - i <= fuel ->
  exists rest,
    ArrayUtils.chunkLoop fuel array size i chunks = Some (chunks ++ rest)
    /\ List.concat rest = skipn i array
    /\ Forall (fun c => 1 <= List.length c <= size) rest
    /\ (forall k, S k < List.length rest -> List.length (nth k rest []) = size)
    /\ (rest = [] <-> List.length array <= i).
Proof.
  intros Pos. revert i chunks. induction fuel as [|fuel IH]; intros i chunks Fuel.
  - exists []. simpl. destruct (Nat.ltb_spec i (List.length array)); [lia|].
    rewrite app_nil_r, skipn_all2 by lia.
    split; [reflexivity|]. split; [reflexivity|]. split; [constructor|].
    split; [simpl; intros; lia|]. split; auto.
  - simpl. destruct (Nat.ltb_spec i (List.length array)) as [L|L].
    + destruct (IH (i + size) (chunks ++ [ArrayUtils.slice array i (i + size)]))
        as (rest & E & C & F & K & Z); [lia|].
      assert (Ec : ArrayUtils.slice array i (i + size) = firstn size (skipn i array)).
      { unfold ArrayUtils.slice. now replace (i + size - i) with size by lia. }
      assert (Lc : List.length (firstn size (skipn i array))
                   = Nat.min size (List.length array - i))
        by now rewrite length_firstn, length_skipn.
      exists (ArrayUtils.slice array i (i + size) :: rest).
      split; [now rewrite E, <- app_assoc|]. rewrite Ec. split; [|split; [|split]].
      * simpl. rewrite C.
        replace (i + size) with (size + i) by lia.
        rewrite <- skipn_skipn. apply firstn_skipn.
      * constructor; [|exact F]. rewrite Lc. lia.
      * intros [|k] Hk; simpl in *.
        -- rewrite Lc. destruct rest as [|c rest]; [simpl in Hk; lia|].
           assert (~ List.length array <= i + size)
             by (intros Le; apply Z in Le; discriminate).
           lia.
        -- apply K. lia.
      * split; [discriminate|lia].
    + exists []. rewrite app_nil_r, skipn_all2 by lia.
      split; [reflexivity|]. split; [reflexivity|]. split; [constructor|].
      split; [simpl; intros; lia|]. split; auto.
Qed.

(** X21.  [chunk] with a positive size returns, and what it returns is the array
    cut into consecutive pieces: the chunks in order make up the array, no
    chunk is empty or longer than [size], and every chunk but the last has
    exactly [size] elements.  (An empty array gives no chunk.) *)
Theorem chunk_partitions (array : list A) (size fuel : nat) :
  0 < size -> List.length array <= fuel ->
  exists chunks,
    ArrayUtils.chunk fuel array size = Some chunks
    /\ List.concat chunks = array
    /\ Forall (fun c => 1 <= List.length c <= size) chunks
    /\ forall k, S k < List.length chunks -> List.length (nth k chunks []) = size.
Proof.
  intros Pos Fuel.
  destruct (@chunkLoop_spec array size fuel 0 [] Pos) as (rest & E & C & F & K & _); [lia|].
  exists rest. unfold ArrayUtils.chunk. auto.
Qed.

(** X22.  [chunk] with the size 0 never returns on an array that is not empty:
    the loop index stays 0. *)
Theorem chunk_size_zero_loops (array : list A) (fuel : nat) :
  array <> [] -> ArrayUtils.chunk fuel array 0 = None.
Proof.
  intros NE. unfold ArrayUtils.chunk. generalize (@nil (list A)).
  induction fuel as [|fuel IH]; intros chunks; simpl;
    (destruct array as [|a array]; [congruence|]); simpl; [reflexivity|apply IH].
Qed.

End ChunkFacts.

Lemma chunk_partitions_witness :
  exists chunks,
    ArrayUtils.chunk 5 [1; 2; 3; 4; 5] 2 = Some chunks
    /\ List.concat chunks = [1; 2; 3; 4; 5]
    /\ Forall (fun c => 1 <= List.length c <= 2) chunks
    /\ forall k, S k < List.length chunks -> List.length (nth k chunks []) = 2.
Proof.
  apply (@chunk_partitions nat [1; 2; 3; 4; 5] 2 5); simpl; lia.
Defined.

Lemma chunk_size_zero_loops_witness : ArrayUtils.chunk 7 [1; 2; 3] 0 = None.
Proof.
  apply (@chunk_size_zero_loops nat [1; 2; 3] 7). discriminate.
Defined.

Section UniqueFacts.

Context {A : Type}.
Variable eqb : A -> A -> bool.
Hypothesis eqb_spec : forall a b, eqb a b = true <-> a = b.

Lemma existsb_eqb (a : A) (l : list A) : existsb (eqb a) l = true <-> In a l.
Proof.
  rewrite existsb_exists. split.
  - intros (x & I & E). apply eqb_spec in E. now subst.
  - intros I. exists a. split; [exact I|now apply eqb_spec].
Qed.

Lemma setAdd_spec (set : list A) (a : A) :
  NoDup set ->
  NoDup (ArrayUtils.setAdd eqb set a)
  /\ forall x, In x (ArrayUtils.setAdd eqb set a) <-> In x set \/ x = a.
Proof.
  intros U. unfold ArrayUtils.setAdd.
  destruct (existsb (eqb a) set) eqn:E.
  - apply existsb_eqb in E. split; [exact U|]. intros x. split; [auto|].
    intros [I| ->]; assumption.
  - assert (NI : ~ In a set) by (intros I; apply existsb_eqb in I; congruence).
    split.
    + apply NoDup_app; [exact U|repeat constructor; auto|].
      intros x Ix [<-|[]]. contradiction.
    + intros x. rewrite in_app_iff. simpl. intuition.
Qed.

Lemma unique_fold (array set : list A) :
  NoDup set ->
  NoDup (fold_left (ArrayUtils.setAdd eqb) array set)
  /\ forall x, In x (fold_left (ArrayUtils.setAdd eqb) array set) <-> In x set \/ In x array.
Proof.
  revert set. induction array as [|a array IH]; intros set U; simpl.
  - split; [exact U|]. intros x. tauto.
  - destruct (setAdd_spec a U) as [U' M].
    destruct (IH _ U') as [U'' M']. split; [exact U''|].
    intros x. rewrite M', M. intuition.
Qed.

Lemma unique_fold_nodup (array set : list A) :
  NoDup (set ++ array) -> fold_left (ArrayUtils.setAdd eqb) array set = set ++ array.
Proof.
  revert set. induction array as [|a array IH]; intros set U; simpl.
  - now rewrite app_nil_r.
  - assert (NI : existsb (eqb a) set = false).
    { destruct (existsb (eqb a) set) eqn:E; [|reflexivity].
      apply existsb_eqb in E. apply NoDup_remove_2 in U.
      exfalso. apply U. apply in_or_app. now left. }
    unfold ArrayUtils.setAdd at 2. rewrite NI.
    rewrite IH; rewrite <- app_assoc; [reflexivity|exact U].
Qed.

(** X23.  [unique] returns the values of the array without repetition: no value
    twice, and exactly the values of the array.  An array without
    repetition is returned as it is, so [unique] applied twice is [unique]
    applied once. *)
Theorem unique_spec (array : list A) :
  NoDup (ArrayUtils.unique eqb array)
  /\ (forall x, In x (ArrayUtils.unique eqb array) <-> In x array)
  /\ (NoDup array -> ArrayUtils.unique eqb array = array)
  /\ ArrayUtils.unique eqb (ArrayUtils.unique eqb array) = ArrayUtils.unique eqb array.
Proof.
  destruct (@unique_fold array [] (NoDup_nil A)) as [U M].
  assert (K : forall l, NoDup l -> ArrayUtils.unique eqb l = l)
    by (intros l Ul; apply (@unique_fold_nodup l []); exact Ul).
  split; [exact U|]. split; [|split; [apply K|apply K; exact U]].
  intros x. unfold ArrayUtils.unique. rewrite M. simpl. tauto.
Qed.

End UniqueFacts.

Lemma unique_spec_witness :
  let array := ["b"; "a"; "b"; "c"; "a"]%string in
  NoDup (ArrayUtils.unique String.eqb array)
  /\ (forall x, In x (ArrayUtils.unique String.eqb array) <-> In x array)
  /\ (NoDup array -> ArrayUtils.unique String.eqb array = array)
  /\ ArrayUtils.unique String.eqb (ArrayUtils.unique String.eqb array)
     = ArrayUtils.unique String.eqb array.
Proof.
  apply (@unique_spec string String.eqb String.eqb_eq ["b"; "a"; "b"; "c"; "a"]%string).
Defined.

Section ColorFacts.

Import ColorUtils.

Lemma toInt32_small (z : Z) : (0 <= z < 2 ^ 31)%Z -> toInt32 z = z.
Proof.
  intros H. unfold toInt32. rewrite Z.mod_small by lia.
  destruct (Z.ltb_spec z (2 ^ 31)); lia.
Qed.

Lemma bitAnd_mask (a : Z) : (0 <= bitAnd a 16777215 < 16 ^ 6)%Z.
Proof.
  unfold bitAnd. rewrite (toInt32_small (z := 16777215)) by lia.
  assert (H : (0 <= Z.land (toInt32 a) 16777215 < 2 ^ 24)%Z).
  { change 16777215%Z with (Z.ones 24). rewrite Z.land_ones by lia.
    apply Z.mod_pos_bound. lia. }
  rewrite toInt32_small; lia.
Qed.

Lemma hexDigit_upper (d : Z) :
  (0 <= d < 16)%Z -> isHexUpper (upper_ascii (hexDigit d)) = true.
Proof.
  intros H.
  assert (C : (d = 0 \/ d = 1 \/ d = 2 \/ d = 3 \/ d = 4 \/ d = 5 \/ d = 6 \/ d = 7
               \/ d = 8 \/ d = 9 \/ d = 10 \/ d = 11 \/ d = 12 \/ d = 13 \/ d = 14
               \/ d = 15)%Z) by lia.
  repeat (destruct C as [->|C]; [reflexivity|]). subst d. reflexivity.
Qed.

Lemma hexDigits_spec (fuel : nat) (n : Z) (acc : string) (k : nat) :
  (0 <= n < 16 ^ Z.of_nat (S k))%Z ->
  let s := hexDigits (S fuel) n acc in
  exists digits,
    s = (digits ++ acc)%string
    /\ 1 <= String.length digits <= S k
    /\ Forall (fun c => isHexUpper (upper_ascii c) = true) (list_ascii_of_string digits).
Proof.
  revert n acc k. induction fuel as [|fuel IH]; intros n acc k H.
  - simpl. exists (String (hexDigit (n mod 16)) EmptyString).
    assert (D : isHexUpper (upper_ascii (hexDigit (n mod 16))) = true)
      by (apply hexDigit_upper, Z.mod_pos_bound; lia).
    destruct (n / 16 =? 0)%Z; (split; [reflexivity|]; split; [simpl; lia|]);
      repeat constructor; exact D.
  - change (hexDigits (S (S fuel)) n acc)
      with (let acc' := String (hexDigit (n mod 16)) acc in
            if (n / 16 =? 0)%Z then acc' else hexDigits (S fuel) (n / 16) acc').
    cbv zeta.
    assert (D : isHexUpper (upper_ascii (hexDigit (n mod 16))) = true)
      by (apply hexDigit_upper, Z.mod_pos_bound; lia).
    destruct (Z.eqb_spec (n / 16) 0) as [E|E].
    + exists (String (hexDigit (n mod 16)) EmptyString).
      split; [reflexivity|]. split; [simpl; lia|]. repeat constructor; exact D.
    + destruct k as [|k].
      { exfalso. apply E. apply Z.div_small. simpl in H. lia. }
      destruct (IH (n / 16)%Z (String (hexDigit (n mod 16)) acc) k)
        as (digits & Es & Len & F).
      { split; [apply Z.div_pos; lia|].
        apply Z.div_lt_upper_bound; [lia|].
        replace (16 * 16 ^ Z.of_nat (S k))%Z with (16 ^ Z.of_nat (S (S k)))%Z; [lia|].
        rewrite (Nat2Z.inj_succ (S k)), Z.pow_succ_r by lia. reflexivity. }
      exists (digits ++ String (hexDigit (n mod 16)) EmptyString)%string.
      cbv zeta in Es. rewrite Es. split; [|split].
      * clear. induction digits as [|c digits IH]; simpl; [reflexivity|now rewrite IH].
      * assert (L : forall a b, String.length (a ++ b)
                                = String.length a + String.length b)
          by (clear; intros a b; induction a as [|c a IH]; simpl;
              [reflexivity|now rewrite IH]).
        rewrite L. simpl. lia.
      * assert (L : forall a b, list_ascii_of_string (a ++ b)
                                = (list_ascii_of_string a ++ list_ascii_of_string b)%list)
          by (clear; intros a b; induction a as [|c a IH]; simpl;
              [reflexivity|now rewrite IH]).
        rewrite L. apply Forall_app. split; [exact F|]. repeat constructor; exact D.
Qed.

Lemma toUpperCase_chars (s : string) :
  list_ascii_of_string (toUpperCase s) = map upper_ascii (list_ascii_of_string s).
Proof. induction s as [|c s IH]; simpl; [reflexivity|now rewrite IH]. Qed.

Lemma toUpperCase_length (s : string) : String.length (toUpperCase s) = String.length s.
Proof. induction s as [|c s IH]; simpl; [reflexivity|now rewrite IH]. Qed.

(** X24.  [stringToColor] always returns a colour code: "#" followed by exactly
    six upper-case hexadecimal digits, whatever the string. *)
Theorem stringToColor_well_formed (str : string) :
  exists digits,
    stringToColor str = String "#" digits
    /\ String.length digits = 6
    /\ Forall (fun c => isHexUpper c = true) (list_ascii_of_string digits).
Proof.
  unfold stringToColor. cbv zeta.
  pose proof (bitAnd_mask (hashLoop str 0)) as B.
  set (v := bitAnd (hashLoop str 0) 16777215) in *.
  destruct (@hexDigits_spec (Z.to_nat (Z.log2 v)) v EmptyString 5) as (digits & E & Len & F).
  { change (Z.of_nat 6) with 6%Z. exact B. }
  cbv zeta in E. fold (toString16 v) in E.
  assert (E' : toString16 v = digits).
  { rewrite E. clear. induction digits as [|c digits IH]; simpl; [reflexivity|now rewrite IH]. }
  rewrite E'. clear E E'.
  set (color := toUpperCase digits).
  assert (Lc : String.length color = String.length digits) by apply toUpperCase_length.
  assert (Fc : Forall (fun c => isHexUpper c = true) (list_ascii_of_string color)).
  { unfold color. rewrite toUpperCase_chars. clear -F.
    induction F; simpl; constructor; auto. }
  exists (String.substring 0 (6 - String.length color) "00000" ++ color)%string.
  split; [reflexivity|].
  assert (C : String.length color = 1 \/ String.length color = 2
              \/ String.length color = 3 \/ String.length color = 4
              \/ String.length color = 5 \/ String.length color = 6) by lia.
  assert (La : forall a b, String.length (a ++ b) = String.length a + String.length b)
    by (clear; intros a b; induction a as [|c a IH]; simpl; [reflexivity|now rewrite IH]).
  assert (Ca : forall a b, list_ascii_of_string (a ++ b)
                           = (list_ascii_of_string a ++ list_ascii_of_string b)%list)
    by (clear; intros a b; induction a as [|c a IH]; simpl; [reflexivity|now rewrite IH]).
  rewrite La, Ca.
  destruct C as [C|[C|[C|[C|[C|C]]]]]; rewrite C; simpl;
    (split; [lia|]); repeat (constructor; [reflexivity|]); exact Fc.
Qed.

End ColorFacts.

Section DateFacts.

Import DateUtils.

Local Open Scope Z_scope.

(** X25.  [getRelativeTime] never reports a count of zero.  For a date less than
    59.5 seconds back, or in the future, it says "just now"; otherwise it
    says "yesterday" or a count of at least one minute, hour, day, week,
    month or year, the count being below 60 minutes, 24 hours, 7 days,
    4 weeks and 12 months. *)
Theorem relativePhrase_counts (diffMs : Z) :
  match relativePhrase diffMs with
  | JustNow => diffMs < 59500
  | Yesterday => 59500 <= diffMs
  | Ago count unit =>
      59500 <= diffMs /\ 1 <= count
      /\ ((unit = "minute"%string /\ count < 60)
          \/ (unit = "hour"%string /\ count < 24)
          \/ (unit = "day"%string /\ 2 <= count < 7)
          \/ (unit = "week"%string /\ count < 4)
          \/ (unit = "month"%string /\ count < 12)
          \/ unit = "year"%string)
  end.
Proof.
  unfold relativePhrase, roundDiv. cbv zeta.
  repeat match goal with
         | |- context [if ?a <? ?b then _ else _] => destruct (Z.ltb_spec a b)
         | |- context [if ?a =? ?b then _ else _] => destruct (Z.eqb_spec a b)
         end;
    try (Z.to_euclidean_division_equations; lia);
    (split; [Z.to_euclidean_division_equations; lia|]);
    (split; [Z.to_euclidean_division_equations; lia|]);
    try (left; split; [reflexivity|Z.to_euclidean_division_equations; lia]);
    try (right; left; split; [reflexivity|Z.to_euclidean_division_equations; lia]);
    try (right; right; left; split; [reflexivity|Z.to_euclidean_division_equations; lia]);
    try (right; right; right; left; split;
         [reflexivity|Z.to_euclidean_division_equations; lia]);
    try (right; right; right; right; left; split;
         [reflexivity|Z.to_euclidean_division_equations; lia]);
    try (right; right; right; right; right; reflexivity).
Qed.

End DateFacts.

(** * Facts about notes and the note manager *)

Section LinkFacts.

Import NoteModel.

Context {Txt : JsText}.
Local Open Scope string_scope.

Lemma untilBracket_spec (s : string) :
  let (body, rest) := untilBracket s in
  s = body ++ rest /\ lacks "]" body = true
  /\ (rest = EmptyString \/ exists rest', rest = String "]" rest').
Proof.
  induction s as [|c s IH]; simpl; [auto|].
  destruct (Ascii.eqb c "]") eqn:E.
  - apply Ascii.eqb_eq in E. subst c. simpl. eauto.
  - destruct (untilBracket s) as [body rest]. destruct IH as (-> & L & R).
    simpl. rewrite E. auto.
Qed.

Lemma untilBracket_plain (title rest : string) :
  lacks "]" title = true ->
  untilBracket (title ++ String "]" rest) = (title, String "]" rest).
Proof.
  induction title as [|c title IH]; simpl; [reflexivity|].
  intros L. apply andb_true_iff in L. destruct L as [Lc L].
  apply negb_true_iff in Lc. rewrite Lc, (IH L). reflexivity.
Qed.

(** Fuel above the length of the string is never used up. *)
Lemma scanLinks_fuel (fuel fuel' : nat) (s : string) :
  String.length s < fuel -> String.length s < fuel' ->
  scanLinks fuel s = scanLinks fuel' s.
Proof.
  revert fuel' s. induction fuel as [|fuel IH]; intros fuel' s L L'; [lia|].
  destruct fuel' as [|fuel']; [lia|].
  destruct s as [|c rest]; [reflexivity|].
  simpl in L, L'. simpl scanLinks.
  rewrite (IH fuel' rest) by lia.
  destruct (Ascii.eqb c "["); [|reflexivity].
  destruct rest as [|c' rest']; [reflexivity|].
  destruct (Ascii.eqb c' "["); [|reflexivity].
  pose proof (untilBracket_spec rest') as U.
  destruct (untilBracket rest') as [body after].
  destruct U as (E & _ & _).
  destruct body as [|b body]; [reflexivity|].
  destruct after as [|c1 [|c2 after]]; try reflexivity.
  destruct (Ascii.eqb c1 "]" && Ascii.eqb c2 "]"); [|reflexivity].
  rewrite (IH fuel' after); [reflexivity| |].
  - simpl in L. rewrite E, append_length in L. simpl in L. lia.
  - simpl in L'. rewrite E, append_length in L'. simpl in L'. lia.
Qed.

Lemma scanLinks_text (fuel : nat) (text s : string) :
  lacks "[" text = true ->
  scanLinks (String.length text + fuel) (text ++ s) = scanLinks fuel s.
Proof.
  induction text as [|c text IH]; simpl; [reflexivity|].
  intros L. apply andb_true_iff in L. destruct L as [Lc L].
  apply negb_true_iff in Lc. rewrite Lc. apply (IH L).
Qed.

Lemma scanLinks_link (fuel : nat) (title s : string) :
  title <> EmptyString -> lacks "]" title = true ->
  scanLinks (S fuel) ("[[" ++ title ++ "]]" ++ s) = trim title :: scanLinks fuel s.
Proof.
  intros NE L. simpl.
  rewrite (@untilBracket_plain title (String "]" s) L).
  destruct title as [|b body]; [congruence|]. reflexivity.
Qed.

Lemma scanLinks_plain (fuel : nat) (s : string) :
  lacks "[" s = true -> scanLinks fuel s = [].
Proof.
  revert s. induction fuel as [|fuel IH]; intros s L; [reflexivity|].
  destruct s as [|c s]; [reflexivity|]. simpl in *.
  apply andb_true_iff in L. destruct L as [Lc L].
  apply negb_true_iff in Lc. rewrite Lc. now apply IH.
Qed.

Lemma scanLinks_linkedText (pieces : list (string * string)) (last : string) (fuel : nat) :
  Forall plainPiece pieces -> lacks "[" last = true ->
  String.length (linkedText pieces last) < fuel ->
  scanLinks fuel (linkedText pieces last) = map (fun piece => trim (snd piece)) pieces.
Proof.
  intros F L. revert fuel.
  induction F as [|[text title] pieces (Lt & NE & Lb) F IH]; intros fuel Len; simpl.
  - now apply scanLinks_plain.
  - simpl in Len. simpl in Lt, NE, Lb.
    rewrite !append_length in Len. simpl in Len. rewrite append_length in Len.
    simpl in Len.
    replace fuel with (String.length text
                       + S (fuel - String.length text - 1)) by lia.
    rewrite (@scanLinks_text _ text _ Lt).
    change (String "[" (String "[" (title ++ String "]" (String "]" (linkedText pieces last)))))
      with ("[[" ++ title ++ "]]" ++ linkedText pieces last).
    rewrite (@scanLinks_link _ title _ NE Lb). f_equal. apply IH. lia.
Qed.

(** X26.  A content made of pieces of text without "[", each followed by a title
    in double brackets (a title that is not empty and has no "]"), gives
    exactly those titles as links: trimmed, in the order of their first
    occurrence, each once. *)
Theorem extractLinks_round_trip (pieces : list (string * string)) (last : string) :
  Forall plainPiece pieces -> lacks "[" last = true ->
  extractLinks (linkedText pieces last)
  = ArrayUtils.unique String.eqb (map (fun piece => trim (snd piece)) pieces).
Proof.
  intros F L. unfold extractLinks.
  rewrite (@scanLinks_linkedText pieces last _ F L); [reflexivity|lia].
Qed.

End LinkFacts.

Lemma extractLinks_round_trip_witness :
  NoteModel.extractLinks
    (NoteModel.linkedText [("see "%string, " Beta "%string); (" and "%string, "Gamma"%string);
                           (" or "%string, "Beta"%string)] "."%string)
  = ArrayUtils.unique String.eqb
      (map (fun piece => trim (snd piece))
           [("see "%string, " Beta "%string); (" and "%string, "Gamma"%string);
            (" or "%string, "Beta"%string)]).
Proof.
  apply (@extractLinks_round_trip latin1
           [("see "%string, " Beta "%string); (" and "%string, "Gamma"%string);
            (" or "%string, "Beta"%string)] "."%string).
  - repeat constructor; simpl; discriminate.
  - reflexivity.
Defined.

(** On [latin1], the no-break space is white space for [trim]. *)
Lemma extractLinks_no_break_space :
  NoteModel.extractLinks ("[[" ++ noBreakSpace ++ "Beta" ++ noBreakSpace ++ "]]")%string
  = ["Beta"%string].
Proof. vm_compute. reflexivity. Qed.

(** A note made without an identifier, or with a falsy one, takes the
    generated identifier. *)
Lemma newNote_generated_id (generated title content : string) (tags : list string) :
  note_id (NoteModel.newNote generated title content tags None) = IdStr generated
  /\ note_id (NoteModel.newNote generated title content tags (Some (IdNum 0)))
     = IdStr generated
  /\ note_id (NoteModel.newNote generated title content tags (Some (IdStr EmptyString)))
     = IdStr generated.
Proof. repeat split. Qed.

Section ManagerFacts.

Import NoteManager.

Lemma find_map_replace (id : Ident) (note : Note) (notes : list Note) :
  note_id note = id -> existsb (hasId id) notes = true ->
  find (hasId id) (map (fun n => if hasId id n then note else n) notes) = Some note.
Proof.
  intros E. induction notes as [|n notes IH]; simpl; [discriminate|].
  destruct (hasId id n) eqn:H; simpl.
  - intros _. unfold hasId at 1. now rewrite E, ident_eqb_refl.
  - rewrite H. exact IH.
Qed.

Lemma find_map_other (id id' : Ident) (note : Note) (notes : list Note) :
  note_id note = id -> id' <> id ->
  find (hasId id') (map (fun n => if hasId id n then note else n) notes)
  = find (hasId id') notes.
Proof.
  intros E D. induction notes as [|n notes IH]; simpl; [reflexivity|].
  destruct (hasId id n) eqn:H.
  - assert (K1 : hasId id' note = false)
      by (unfold hasId; rewrite E; apply ident_eqb_neq; congruence).
    assert (K2 : hasId id' n = false).
    { unfold hasId in *. apply ident_eqb_eq in H. rewrite H.
      apply ident_eqb_neq. congruence. }
    rewrite K1, K2. exact IH.
  - destruct (hasId id' n); [reflexivity|exact IH].
Qed.

(** X27.  What is stored is found, and only that: after [addNote(note)],
    [getNote(note.id)] returns the note; after [deleteNote(id)],
    [getNote(id)] returns nothing, and [deleteNote] reports whether the note
    was there; neither call changes what [getNote] returns for another
    identifier. *)
Theorem noteManager_lookup (notes : list Note) (note : Note) (id : Ident) :
  getNote (addNote notes note) (note_id note) = Some note
  /\ (id <> note_id note -> getNote (addNote notes note) id = getNote notes id)
  /\ getNote (fst (deleteNote notes id)) id = None
  /\ (forall id', id' <> id -> getNote (fst (deleteNote notes id)) id' = getNote notes id')
  /\ snd (deleteNote notes id) = match getNote notes id with Some _ => true | None => false end.
Proof.
  unfold getNote, addNote, deleteNote. split; [|split; [|split; [|split]]].
  - destruct (existsb (hasId (note_id note)) notes) eqn:E.
    + now apply find_map_replace.
    + assert (F : find (hasId (note_id note)) notes = None).
      { destruct (find (hasId (note_id note)) notes) as [n|] eqn:F; [|reflexivity].
        apply find_some in F. destruct F as [I H].
        assert (X : existsb (hasId (note_id note)) notes = true)
          by (apply existsb_exists; eauto).
        congruence. }
      clear E. induction notes as [|n notes IH]; simpl in *.
      * unfold hasId. now rewrite ident_eqb_refl.
      * destruct (hasId (note_id note) n); [discriminate|auto].
  - intros D. destruct (existsb (hasId (note_id note)) notes).
    + now apply find_map_other.
    + induction notes as [|n notes IH]; simpl.
      * unfold hasId. destruct (ident_eqb (note_id note) id) eqn:K; [|reflexivity].
        apply ident_eqb_eq in K. congruence.
      * destruct (hasId id n); [reflexivity|exact IH].
  - destruct (find (hasId id) notes) as [found|] eqn:F; [|exact F]. simpl. clear F.
    induction notes as [|m notes IH]; simpl; [reflexivity|].
    destruct (hasId id m) eqn:H; simpl; [exact IH|]. now rewrite H.
  - intros id' D. destruct (find (hasId id) notes) as [found|]; [|reflexivity]. simpl.
    induction notes as [|m notes IH]; simpl; [reflexivity|].
    destruct (hasId id m) eqn:H; simpl.
    + destruct (hasId id' m) eqn:H'; [|exact IH].
      unfold hasId in H, H'. apply ident_eqb_eq in H, H'. congruence.
    + destruct (hasId id' m); [reflexivity|exact IH].
  - destruct (find (hasId id) notes); reflexivity.
Qed.

Lemma addNote_ids (notes : list Note) (note : Note) :
  NoDup (map note_id notes) -> NoDup (map note_id (addNote notes note)).
Proof.
  intros U. unfold addNote.
  destruct (existsb (hasId (note_id note)) notes) eqn:E.
  - replace (map note_id (map (fun n => if hasId (note_id note) n then note else n) notes))
      with (map note_id notes); [exact U|].
    clear. induction notes as [|n notes IH]; simpl; [reflexivity|].
    rewrite <- IH. f_equal. destruct (hasId (note_id note) n) eqn:H; [|reflexivity].
    unfold hasId in H. now apply ident_eqb_eq in H.
  - rewrite map_app. simpl. apply NoDup_app; [exact U|repeat constructor; auto|].
    intros x Ix [<-|[]]. apply in_map_iff in Ix. destruct Ix as (n & En & In_n).
    assert (X : existsb (hasId (note_id note)) notes = true).
    { apply existsb_exists. exists n. split; [exact In_n|].
      unfold hasId. now apply ident_eqb_eq. }
    congruence.
Qed.

Lemma deleteNote_ids (notes : list Note) (id : Ident) :
  NoDup (map note_id notes) -> NoDup (map note_id (fst (deleteNote notes id))).
Proof.
  intros U. unfold deleteNote. destruct (find (hasId id) notes) as [found|]; [|exact U].
  simpl. clear found.
  induction notes as [|n notes IH]; simpl; [constructor|].
  inversion U as [|x l NI U']; subst.
  destruct (hasId id n); simpl; [now apply IH|].
  constructor; [|now apply IH].
  intros I. apply NI. apply in_map_iff in I. destruct I as (m & Em & Im).
  apply filter_In in Im. apply in_map_iff. exists m. tauto.
Qed.

(** The notes of a manager have pairwise different identifiers, whatever
    was added and deleted. *)
Lemma after_ids (calls : list Call) : NoDup (map note_id (after calls)).
Proof.
  unfold after.
  apply (fold_left_invariant perform (fun notes => NoDup (map note_id notes)));
    [|constructor].
  intros notes [note|id] _ U; simpl; [now apply addNote_ids|now apply deleteNote_ids].
Qed.

End ManagerFacts.

(** * The notes of the manager in the graph *)

Section NotesInGraph.

Context {num : Type} {N : JsNumber num} {Txt : JsText}.
Variable Math_random : nat -> num.

Lemma mirrors_ids (notes : list Note) (ns : list (@Node num)) :
  Forall2 mirrors notes ns -> map node_id ns = map note_id notes.
Proof.
  induction 1 as [|A a l l' Ma F IH]; simpl; [reflexivity|].
  rewrite IH. f_equal. apply Ma.
Qed.

(** X28.  For the notes a note manager holds, whatever was added and deleted,
    the graph is exact: the nodes have pairwise different identifiers, and
    the connection count of every node is the number of link edges at
    it. *)
Theorem manager_graph_connections (g : @GraphRenderer num)
    (calls : list NoteManager.Call) :
  noteManager g = NoteManager.getAllNotes (NoteManager.after calls) ->
  let g' := generateGraph Math_random g in
  NoDup (map node_id (nodes g'))
  /\ forall node, In node (nodes g') ->
                  node_connections node = linkDegree (node_id node) (edges g').
Proof.
  intros E g'. subst g'.
  assert (U : NoDup (map note_id (noteManager g)))
    by (rewrite E; apply after_ids).
  split.
  - rewrite (mirrors_ids (generateGraph_mirrors Math_random g)). exact U.
  - intros node I.
    rewrite generateGraph_nodes_built in I. rewrite generateGraph_edges.
    destruct (noteManager g) as [|note notes] eqn:En; [destruct I|].
    now apply buildGraph_connections.
Qed.

(** X29.  A backlink the note view lists is an edge of the graph: when [A] is
    the note its title resolves to and [B], with another identifier, is
    among [getBacklinks(A.title)], exactly one edge joins [B] and [A], and
    it is a link edge. *)
Theorem backlink_is_edge (g : @GraphRenderer num) (A B : Note) :
  resolves (noteManager g) (note_title A) = Some A ->
  In B (NoteManager.getBacklinks (noteManager g) (note_title A)) ->
  note_id B <> note_id A ->
  let g' := generateGraph Math_random g in
  exists e, In e (edges g')
            /\ joins (note_id B) (note_id A) e = true
            /\ edge_kind e = DirectLink
            /\ forall e', In e' (edges g') ->
                          joins (note_id B) (note_id A) e' = true -> e' = e.
Proof.
  intros RA IB D g'. subst g'.
  unfold NoteManager.getBacklinks, NoteManager.getAllNotes in IB.
  apply filter_In in IB. destruct IB as [IB C].
  apply andb_true_iff in C. destruct C as [C _].
  apply existsb_exists in C. destruct C as (l & Il & El).
  apply String.eqb_eq in El. subst l.
  rewrite generateGraph_edges.
  destruct (noteManager g) as [|note notes] eqn:En; [destruct IB|].
  destruct (buildGraph_spec Math_random (nextObject (host g)) (randomCalls (host g))
              (canvas_width (canvas g)) (canvas_height (canvas g))
              (devicePixelRatio (host g)) (note :: notes)) as [U L].
  destruct (L B A (note_title A) IB Il RA D) as (e & Ie & Je & Ke).
  exists e. split; [exact Ie|]. split; [exact Je|]. split; [exact Ke|].
  intros e' Ie' Je'. eapply singleEdges_unique; eauto.
Qed.

(** X30.  A link written in the content of a note is an edge of the graph: when
    the content of [A] is pieces of text each followed by a title in double
    brackets, the links of [A] are those [extractLinks] finds, and one of
    the titles, trimmed, resolves to a note [B] with another identifier,
    then exactly one edge joins [A] and [B], and it is a link edge. *)
Theorem written_link_is_edge (g : @GraphRenderer num) (A B : Note)
    (pieces : list (string * string)) (last text title : string) :
  In A (noteManager g) ->
  note_links A = NoteModel.extractLinks (note_content A) ->
  note_content A = NoteModel.linkedText pieces last ->
  Forall NoteModel.plainPiece pieces -> NoteModel.lacks "[" last = true ->
  In (text, title) pieces ->
  resolves (noteManager g) (trim title) = Some B ->
  note_id A <> note_id B ->
  let g' := generateGraph Math_random g in
  exists e, In e (edges g')
            /\ joins (note_id A) (note_id B) e = true
            /\ edge_kind e = DirectLink
            /\ forall e', In e' (edges g') ->
                          joins (note_id A) (note_id B) e' = true -> e' = e.
Proof.
  intros IA EL EC F Ll Ip RB D g'. subst g'.
  assert (Il : In (trim title) (note_links A)).
  { rewrite EL, EC. unfold NoteModel.extractLinks.
    rewrite (@scanLinks_linkedText _ pieces last _ F Ll) by lia.
    apply (proj2 (@unique_fold string String.eqb String.eqb_eq _ [] (NoDup_nil _))).
    right. apply in_map_iff. exists (text, title). auto. }
  rewrite generateGraph_edges.
  destruct (noteManager g) as [|note notes] eqn:En; [destruct IA|].
  destruct (buildGraph_spec Math_random (nextObject (host g)) (randomCalls (host g))
              (canvas_width (canvas g)) (canvas_height (canvas g))
              (devicePixelRatio (host g)) (note :: notes)) as [U L].
  destruct (L A B (trim title) IA Il RB D) as (e & Ie & Je & Ke).
  exists e. split; [exact Ie|]. split; [exact Je|]. split; [exact Ke|].
  intros e' Ie' Je'. eapply singleEdges_unique; eauto.
Qed.

End NotesInGraph.

Lemma manager_graph_connections_witness :
  let g := @blankRenderer PrimFloat.float binary64
             (NoteManager.after [NoteManager.AddNote noteAlpha; NoteManager.AddNote noteBeta;
                                 NoteManager.DeleteNote (IdStr "n3")])
             (freshHost 800 600) in
  let g' := generateGraph sampleRandom g in
  NoDup (map node_id (nodes g'))
  /\ forall node, In node (nodes g') ->
                  node_connections node = linkDegree (node_id node) (edges g').
Proof.
  apply (@manager_graph_connections _ binary64 latin1 sampleRandom
           (@blankRenderer PrimFloat.float binary64
              (NoteManager.after [NoteManager.AddNote noteAlpha; NoteManager.AddNote noteBeta;
                                  NoteManager.DeleteNote (IdStr "n3")])
              (freshHost 800 600))
           [NoteManager.AddNote noteAlpha; NoteManager.AddNote noteBeta;
            NoteManager.DeleteNote (IdStr "n3")]).
  reflexivity.
Defined.

Lemma backlink_is_edge_witness :
  let g := @blankRenderer PrimFloat.float binary64 [noteAlpha; noteLower]
             (freshHost 800 600) in
  let g' := generateGraph sampleRandom g in
  exists e, In e (edges g')
            /\ joins (note_id noteAlpha) (note_id noteLower) e = true
            /\ edge_kind e = DirectLink
            /\ forall e', In e' (edges g') ->
                          joins (note_id noteAlpha) (note_id noteLower) e' = true -> e' = e.
Proof.
  apply (@backlink_is_edge _ binary64 latin1 sampleRandom
           (@blankRenderer PrimFloat.float binary64 [noteAlpha; noteLower]
              (freshHost 800 600))
           noteLower noteAlpha).
  - reflexivity.
  - simpl. auto.
  - simpl. discriminate.
Defined.

Lemma written_link_is_edge_witness :
  let alpha := NoteModel.newNote "k3x9" "Alpha" "see [[beta]]" ["x"; "y"]%string (Some (IdStr "n1")) in
  let g := @blankRenderer PrimFloat.float binary64 [alpha; noteBeta] (freshHost 800 600) in
  let g' := generateGraph sampleRandom g in
  exists e, In e (edges g')
            /\ joins (note_id alpha) (note_id noteBeta) e = true
            /\ edge_kind e = DirectLink
            /\ forall e', In e' (edges g') ->
                          joins (note_id alpha) (note_id noteBeta) e' = true -> e' = e.
Proof.
  apply (@written_link_is_edge _ binary64 latin1 sampleRandom
           (@blankRenderer PrimFloat.float binary64
              [NoteModel.newNote "k3x9" "Alpha" "see [[beta]]" ["x"; "y"]%string (Some (IdStr "n1"));
               noteBeta]
              (freshHost 800 600))
           (NoteModel.newNote "k3x9" "Alpha" "see [[beta]]" ["x"; "y"]%string (Some (IdStr "n1")))
           noteBeta [("see "%string, "beta"%string)] EmptyString
           "see "%string "beta"%string).
  - simpl. auto.
  - reflexivity.
  - reflexivity.
  - repeat constructor; simpl; discriminate.
  - reflexivity.
  - simpl. auto.
  - reflexivity.
  - simpl. discriminate.
Defined.
